(** * Treemap Visualizer: a shallow embedding of [treemap_viewer.py]

    The development follows the source file: the utilities ([human_size]),
    the data model ([Node]), directory scanning ([scan_directory] and the
    worker that wraps it), the treemap math ([worst_aspect_ratio],
    [layout_row], [leftover_rect], [squarify]) and the exclusion matcher
    ([_should_exclude]).  The library functions the program calls ([str]
    methods, [os.path], [fnmatch]) come first.

    Modelling decisions.
    - In [Treemap] the Python [float] values of the layout code are exact
      rationals ([Q]); its properties are statements of exact arithmetic.
      Equality of rationals is [Qeq] ([==]).  [Numbers] has the same
      functions over numbers whose operations are parameters, for what holds
      whatever the arithmetic computes; [Exact] instantiates them with the
      exact operations, [Binary64] with IEEE doubles.  In [human_size] the
      conversion of an integer to a double is modelled with its rounding.
    - Python exceptions are an error type [exn]; code that can raise returns
      a [result].
    - [threading.Event] is read through an oracle that gives the value of
      [is_set()] at the k-th query made by the scan thread.
    - The filesystem is a finite tree of entries carrying the answers of the
      OS calls that the scanner makes on them.  [_scan] recurses as deep as
      the tree is; [_scan_within] bounds the depth of the nested calls, as
      the interpreter does.
    - Strings hold ASCII text. *)

From Stdlib Require Import ZArith QArith Lia Lqa.
From Stdlib Require Import List String Ascii Bool Permutation Sorted.
From Stdlib Require Import DecimalString.
From Stdlib Require Floats.
Import ListNotations.

Set Implicit Arguments.
Set Warnings "-register-all".

(** ** Exceptions and results *)

Inductive exn : Type :=
| RuntimeError        (* raise RuntimeError("Scan stopped") *)
| PermissionError
| ZeroDivisionError
| OverflowError
| OtherError.         (* any other [Exception] *)

Inductive result (A : Type) : Type :=
| Ok (a : A)
| Raise (e : exn).

Arguments Ok {A} a.
Arguments Raise {A} e.

Definition bind {A B : Type} (m : result A) (k : A -> result B) : result B :=
  match m with
  | Ok a => k a
  | Raise e => Raise e
  end.

Declare Scope result_scope.
Delimit Scope result_scope with result.
Notation "x <- m ;; k" := (bind m (fun x => k))
  (at level 61, m at next level, right associativity) : result_scope.

(** ** Strings

    Python [str] operations used by the program.  Strings hold ASCII text. *)

Module Strings.

Open Scope string_scope.

Definition is_upper (c : ascii) : bool :=
  let n := nat_of_ascii c in Nat.leb 65 n && Nat.leb n 90.

(** [str.lower] *)
Definition lower_char (c : ascii) : ascii :=
  if is_upper c then ascii_of_nat (nat_of_ascii c + 32) else c.

Fixpoint lower (s : string) : string :=
  match s with
  | EmptyString => EmptyString
  | String c s' => String (lower_char c) (lower s')
  end.

(** [s.replace("\\", "/")] *)
Definition backslash : ascii := ascii_of_nat 92.
Definition slash : ascii := "/"%char.

Fixpoint replace_backslash (s : string) : string :=
  match s with
  | EmptyString => EmptyString
  | String c s' =>
      String (if Ascii.eqb c backslash then slash else c) (replace_backslash s')
  end.

(** Whitespace removed by [str.strip()]: tab, line feed, vertical tab, form
    feed, carriage return, the separators 28 to 31, and space. *)
Definition is_space (c : ascii) : bool :=
  let n := nat_of_ascii c in
  (Nat.leb 9 n && Nat.leb n 13) || (Nat.leb 28 n && Nat.leb n 32).

Fixpoint lstrip (s : string) : string :=
  match s with
  | EmptyString => EmptyString
  | String c s' => if is_space c then lstrip s' else s
  end.

(** Removes the trailing characters that satisfy [drop]. *)
Fixpoint rstrip_with (drop : ascii -> bool) (s : string) : string :=
  match s with
  | EmptyString => EmptyString
  | String c s' =>
      match rstrip_with drop s' with
      | EmptyString => if drop c then EmptyString else String c EmptyString
      | rest => String c rest
      end
  end.

(** [s.strip()] *)
Definition strip (s : string) : string := rstrip_with is_space (lstrip s).

(** [s.rstrip("/")] *)
Definition rstrip_slash (s : string) : string :=
  rstrip_with (fun c => Ascii.eqb c slash) s.

(** [s.startswith(p)] *)
Fixpoint startswith (s p : string) {struct p} : bool :=
  match p, s with
  | EmptyString, _ => true
  | String a p', String b s' => Ascii.eqb a b && startswith s' p'
  | String _ _, EmptyString => false
  end.

(** [ch in s] *)
Fixpoint contains (s : string) (ch : ascii) : bool :=
  match s with
  | EmptyString => false
  | String c s' => Ascii.eqb c ch || contains s' ch
  end.

(** [s.split("/")] and ["/".join(segs)]. *)
Fixpoint split_slash (s : string) : list string :=
  match s with
  | EmptyString => [EmptyString]
  | String c s' =>
      if Ascii.eqb c slash then EmptyString :: split_slash s'
      else match split_slash s' with
           | seg :: segs => String c seg :: segs
           | [] => [String c EmptyString]
           end
  end.

Fixpoint join_slash (segs : list string) : string :=
  match segs with
  | [] => EmptyString
  | [seg] => seg
  | seg :: rest => seg ++ String slash (join_slash rest)
  end.

(** *** Facts on prefixes and segments *)

Lemma append_assoc (a b c : string) : (a ++ b) ++ c = a ++ (b ++ c).
Proof. induction a as [|x a IH]; simpl; [reflexivity|]. rewrite IH. reflexivity. Qed.

Lemma startswith_iff (s p : string) :
  startswith s p = true <-> exists rest, s = p ++ rest.
Proof.
  revert s. induction p as [|a p IH]; intros s; simpl.
  - split; [intros _; exists s; reflexivity|reflexivity].
  - destruct s as [|b s].
    + split; [discriminate|intros [rest H]; discriminate].
    + split.
      * intros H. apply andb_true_iff in H as [Hab Hs].
        apply Ascii.eqb_eq in Hab. subst b.
        apply IH in Hs as [rest ->]. exists rest. reflexivity.
      * intros [rest H]. injection H as -> ->.
        rewrite Ascii.eqb_refl. simpl. apply IH. exists rest. reflexivity.
Qed.

Lemma split_slash_nonempty (s : string) : split_slash s <> [].
Proof.
  destruct s as [|c s]; simpl; [discriminate|].
  destruct (Ascii.eqb c slash); [discriminate|].
  destruct (split_slash s); discriminate.
Qed.

Lemma join_split_slash (s : string) : join_slash (split_slash s) = s.
Proof.
  induction s as [|c s IH]; [reflexivity|]. simpl.
  pose proof (split_slash_nonempty s) as Hne.
  destruct (Ascii.eqb c slash) eqn:E.
  - apply Ascii.eqb_eq in E. subst c.
    destruct (split_slash s) as [|seg segs]; [congruence|].
    cbn [join_slash]. cbn [join_slash] in IH. rewrite IH. reflexivity.
  - destruct (split_slash s) as [|seg segs]; [congruence|].
    destruct segs as [|seg' segs].
    + simpl in *. rewrite IH. reflexivity.
    + cbn [join_slash] in *. simpl. rewrite IH. reflexivity.
Qed.

Lemma split_slash_app (a b : string) :
  split_slash (a ++ String slash b) = (split_slash a ++ split_slash b)%list.
Proof.
  induction a as [|c a IH]; simpl.
  - reflexivity.
  - rewrite IH. pose proof (split_slash_nonempty a) as Hne.
    destruct (Ascii.eqb c slash); [reflexivity|].
    destruct (split_slash a) as [|seg segs]; [congruence|]. reflexivity.
Qed.

Lemma join_slash_app (l1 l2 : list string) :
  l1 <> [] -> l2 <> [] ->
  join_slash (l1 ++ l2) = join_slash l1 ++ String slash (join_slash l2).
Proof.
  intros H1 H2. induction l1 as [|x l1 IH]; [congruence|].
  destruct l1 as [|y l1].
  - simpl. destruct l2; [congruence|]. reflexivity.
  - change (((x :: y :: l1) ++ l2)%list) with (x :: ((y :: l1) ++ l2))%list.
    change (join_slash (x :: (y :: l1) ++ l2))
      with (x ++ String slash (join_slash ((y :: l1) ++ l2))).
    rewrite IH by discriminate.
    change (join_slash (x :: y :: l1))
      with (x ++ String slash (join_slash (y :: l1))).
    rewrite append_assoc. reflexivity.
Qed.

(** Equal to the base or below it, with a separator in between, is the same
    as having the base's segments as leading segments. *)
Lemma below_iff_segments (base p : string) :
  (p = base \/ exists rest, p = base ++ String slash rest) <->
  exists more, split_slash p = (split_slash base ++ more)%list.
Proof.
  split.
  - intros [->|[rest ->]].
    + exists []. rewrite app_nil_r. reflexivity.
    + exists (split_slash rest). apply split_slash_app.
  - intros [more Hm].
    rewrite <- (join_split_slash p), Hm. destruct more as [|x more].
    + left. rewrite app_nil_r. apply join_split_slash.
    + right. exists (join_slash (x :: more)).
      rewrite join_slash_app, join_split_slash;
        [reflexivity|apply split_slash_nonempty|discriminate].
Qed.

End Strings.

(** ** POSIX paths and globs

    The functions of [os.path] (here [posixpath]) and [fnmatch] that the
    program calls, after their library sources. *)

Module Posix.

Import Strings.
Open Scope string_scope.

(** The text after the last ["/"]: [p[p.rfind("/") + 1:]]. *)
Fixpoint last_segment (s acc : string) : string :=
  match s with
  | EmptyString => acc
  | String c s' =>
      if Ascii.eqb c slash then last_segment s' ""
      else last_segment s' (acc ++ String c "")
  end.

Definition basename (p : string) : string := last_segment p "".

(** [isabs(s)]: [s.startswith("/")]. *)
Definition isabs (s : string) : bool := startswith s "/".

Fixpoint endswith_slash (s : string) : bool :=
  match s with
  | EmptyString => false
  | String c EmptyString => Ascii.eqb c slash
  | String _ s' => endswith_slash s'
  end.

(** [join(a, b)] *)
Definition join (a b : string) : string :=
  if startswith b "/" then b
  else if String.eqb a "" || endswith_slash a then a ++ b
  else a ++ "/" ++ b.

(** The loop of [normpath] over the components of the path; [initial] is
    the number of leading slashes kept (0, 1 or 2). *)
Fixpoint norm_comps (comps : list string) (initial : nat)
         (new_comps : list string) : list string :=
  match comps with
  | [] => new_comps
  | comp :: rest =>
      if String.eqb comp "" || String.eqb comp "." then
        norm_comps rest initial new_comps
      else if negb (String.eqb comp "..")
              || (Nat.eqb initial 0 && Nat.eqb (List.length new_comps) 0)
              || String.eqb (List.last new_comps "") ".." then
        norm_comps rest initial (new_comps ++ [comp])
      else
        norm_comps rest initial (List.removelast new_comps)
  end.

Definition initial_slashes (p : string) : nat :=
  if startswith p "/" then
    if startswith p "//" && negb (startswith p "///") then 2 else 1
  else 0.

Fixpoint slashes (n : nat) : string :=
  match n with
  | O => ""
  | S n' => String slash (slashes n')
  end.

(** [normpath(path)] *)
Definition normpath (p : string) : string :=
  if String.eqb p "" then "."
  else
    let initial := initial_slashes p in
    let comps := norm_comps (split_slash p) initial [] in
    let q := slashes initial ++ join_slash comps in
    if String.eqb q "" then "." else q.

(** [abspath(path)], with the current directory [cwd] of the process. *)
Definition abspath (cwd : string) (p : string) : string :=
  normpath (if isabs p then p else join cwd p).

(** Tokens of a glob pattern, as [fnmatch.translate] reads it: [*], [?],
    a character class [[...]] (negated by a leading [!]) and literal
    characters; a ["["] with no closing ["]"] is a literal. *)
Inductive token : Type :=
| Star
| AnyChar
| Class (negated : bool) (body : string)
| Lit (c : ascii).

(** The text up to the first ["]"], and what follows it. *)
Fixpoint until_bracket (s : string) : option (string * string) :=
  match s with
  | EmptyString => None
  | String c s' =>
      if Ascii.eqb c "]" then Some (EmptyString, s')
      else match until_bracket s' with
           | Some (body, rest) => Some (String c body, rest)
           | None => None
           end
  end.

(** The class that starts after a ["["]: an optional ["!"], then a body in
    which a ["]"] in first place belongs to the body. *)
Definition read_class (s : string) : option (bool * string * string) :=
  let (neg, s1) :=
    match s with
    | String "!" s' => (true, s')
    | _ => (false, s)
    end in
  match s1 with
  | String "]" s2 =>
      match until_bracket s2 with
      | Some (body, rest) => Some (neg, String "]" body, rest)
      | None => None
      end
  | _ =>
      match until_bracket s1 with
      | Some (body, rest) => Some (neg, body, rest)
      | None => None
      end
  end.

Fixpoint tokens (fuel : nat) (pat : string) : list token :=
  match fuel, pat with
  | _, EmptyString => []
  | O, _ => []
  | S fuel', String c pat' =>
      if Ascii.eqb c "*" then Star :: tokens fuel' pat'
      else if Ascii.eqb c "?" then AnyChar :: tokens fuel' pat'
      else if Ascii.eqb c "[" then
        match read_class pat' with
        | Some (neg, body, rest) => Class neg body :: tokens fuel' rest
        | None => Lit c :: tokens fuel' pat'
        end
      else Lit c :: tokens fuel' pat'
  end.

(** Membership in the body of a class: single characters and ranges
    [a-z]. *)
Fixpoint in_class (body : string) (c : ascii) : bool :=
  match body with
  | EmptyString => false
  | String lo (String "-" (String hi rest)) =>
      (Nat.leb (nat_of_ascii lo) (nat_of_ascii c)
       && Nat.leb (nat_of_ascii c) (nat_of_ascii hi))
      || in_class rest c
  | String a rest => Ascii.eqb a c || in_class rest c
  end.

Fixpoint glob (p : list token) (s : string) : bool :=
  match p with
  | [] => String.eqb s ""
  | Star :: p' =>
      (fix try (s : string) : bool :=
         glob p' s
         || match s with
            | EmptyString => false
            | String _ s' => try s'
            end) s
  | AnyChar :: p' =>
      match s with
      | String _ s' => glob p' s'
      | EmptyString => false
      end
  | Class neg body :: p' =>
      match s with
      | String c s' => xorb neg (in_class body c) && glob p' s'
      | EmptyString => false
      end
  | Lit a :: p' =>
      match s with
      | String c s' => Ascii.eqb a c && glob p' s'
      | EmptyString => false
      end
  end.

(** [fnmatch.fnmatch(name, pat)]; [os.path.normcase] is the identity. *)
Definition fnmatch (name pat : string) : bool :=
  glob (tokens (String.length pat) pat) name.

End Posix.

(** ** Utilities: [human_size] *)

Module Utilities.

Open Scope Z_scope.
Local Open Scope result_scope.

(** [str(n)] of an integer. *)
Definition str (n : Z) : string := NilZero.string_of_int (Z.to_int n).

(** [float(n)] of an integer: the nearest binary64 value, ties to the even
    significand, [OverflowError] when that is beyond the range of doubles.
    With 53 bits or fewer the integer is kept; otherwise the low [shift] bits
    are rounded off. *)
Definition to_float (n : Z) : result Q :=
  let m := Z.abs n in
  let bits := Z.log2 m + 1 in
  let shift := Z.max 0 (bits - 53) in
  let q := Z.shiftr m shift in
  let r := m - Z.shiftl q shift in
  let half := Z.shiftl 1 (shift - 1) in
  let q' :=
    if shift =? 0 then q
    else if (half <? r) || ((r =? half) && Z.odd q) then q + 1
    else q in
  let v := Z.shiftl q' shift in
  if 2 ^ 1024 <=? v then Raise OverflowError
  else Ok (inject_Z (Z.sgn n * v)).

(** The integer nearest to [x], ties to even. *)
Definition round_half_even (x : Q) : Z :=
  let num := Qnum x in
  let den := Zpos (Qden x) in
  let fl := num / den in
  let rem := num mod den in
  match 2 * rem ?= den with
  | Lt => fl
  | Gt => fl + 1
  | Eq => if Z.even fl then fl else fl + 1
  end.

(** [f"{x:.1f}"] for [x >= 0]: the decimal with one digit after the point
    nearest to the exact value of the double, ties to even. *)
Definition format_1f (x : Q) : string :=
  let t := round_half_even (x * 10)%Q in
  (str (t / 10) ++ "." ++ str (t mod 10))%string.

Definition units : list string := ["KB"; "MB"; "GB"; "TB"; "PB"; "EB"]%string.

(** [[
    for unit in ["KB", "MB", "GB", "TB", "PB", "EB"]:
        n /= 1024.0
        if n < 1024:
            return f"{n:.1f} {unit}"
    return f"{n:.1f} ZB"
]]
    The values divided are at least 1024, so the division by a power of two
    is exact in binary64. *)
Fixpoint human_loop (us : list string) (x : Q) : string :=
  match us with
  | [] => (format_1f x ++ " ZB")%string
  | unit :: rest =>
      let x := (x / 1024)%Q in
      if Qle_bool 1024 x then human_loop rest x
      else (format_1f x ++ " " ++ unit)%string
  end.

(** [[
def human_size(n: int) -> str:
    if n < 1024:
        return f"{n} B"
    for unit in [...]: ...
]]
    The integer becomes a float at the first [n /= 1024.0]. *)
Definition human_size (n : Z) : result string :=
  if n <? 1024 then Ok (str n ++ " B")%string
  else
    x <- to_float n ;;
    Ok (human_loop units x).

(** *** Tiers *)

(** [1024 ** k] as a float. *)
Definition pow1024 (k : nat) : Q := inject_Z (1024 ^ Z.of_nat k).

(** [x] after [k] divisions by 1024. *)
Fixpoint div_by (k : nat) (x : Q) : Q :=
  match k with
  | O => x
  | S k' => div_by k' (x / 1024)%Q
  end.

(** The unit that the powers of 1024 bracketing [n] designate, in the
    words of the specification: [B] below 1024, [KB] from 1024 up to (not
    including) [1024 ** 2], and so on, [ZB] from [1024 ** 7] on. *)
Definition bracket_unit (n : Z) : string :=
  if n <? 1024 then "B"
  else if n <? 1024 ^ 2 then "KB"
  else if n <? 1024 ^ 3 then "MB"
  else if n <? 1024 ^ 4 then "GB"
  else if n <? 1024 ^ 5 then "TB"
  else if n <? 1024 ^ 6 then "PB"
  else if n <? 1024 ^ 7 then "EB"
  else "ZB".

Lemma pow1024_S (k : nat) : (pow1024 (S k) == 1024 * pow1024 k)%Q.
Proof.
  unfold pow1024. rewrite Nat2Z.inj_succ, Z.pow_succ_r by lia.
  rewrite inject_Z_mult. reflexivity.
Qed.

Lemma pow1024_ge_1 (k : nat) : (1 <= pow1024 k)%Q.
Proof.
  unfold pow1024. change 1%Q with (inject_Z 1). rewrite <- Zle_Qle.
  assert (0 < 1024 ^ Z.of_nat k) by (apply Z.pow_pos_nonneg; lia). lia.
Qed.

Lemma to_float_exact (n : Z) :
  0 <= n < 2 ^ 53 -> to_float n = Ok (inject_Z n).
Proof.
  intros [H0 H53]. unfold to_float.
  rewrite (Z.abs_eq n H0).
  assert (Hlog : Z.log2 n + 1 <= 53).
  { destruct (Z.eq_dec n 0) as [->|Hn]; [simpl; lia|].
    assert (Z.log2 n < 53) by (apply Z.log2_lt_pow2; lia). lia. }
  rewrite (Z.max_l 0 (Z.log2 n + 1 - 53)) by lia.
  rewrite Z.shiftr_0_r. cbn [Z.eqb]. rewrite Z.shiftl_0_r.
  assert (Hbig : 2 ^ 53 < 2 ^ 1024) by (apply Z.pow_lt_mono_r; lia).
  destruct (2 ^ 1024 <=? n) eqn:E; [apply Z.leb_le in E; lia|].
  f_equal. f_equal. destruct (Z.eq_dec n 0) as [->|Hn]; [reflexivity|].
  rewrite (Z.sgn_pos n) by lia. lia.
Qed.

Lemma human_loop_tier (us : list string) :
  forall x k unit,
    nth_error us k = Some unit ->
    (pow1024 (S k) <= x)%Q -> (x < pow1024 (S (S k)))%Q ->
    human_loop us x = (format_1f (div_by (S k) x) ++ " " ++ unit)%string.
Proof.
  induction us as [|u0 rest IH]; intros x k unit Hk Hlo Hhi.
  - destruct k; discriminate.
  - cbn [human_loop]. destruct k as [|k].
    + injection Hk as <-. rewrite !pow1024_S in Hhi.
      assert (E : Qle_bool 1024 (x / 1024) = false).
      { destruct (Qle_bool 1024 (x / 1024)) eqn:E; [|reflexivity].
        apply Qle_bool_iff in E.
        assert (P0 : (pow1024 0 == 1)%Q) by reflexivity.
        assert (x / 1024 < 1024)%Q
          by (apply Qlt_shift_div_r; [reflexivity|lra]).
        lra. }
      rewrite E. reflexivity.
    + cbn [nth_error] in Hk.
      pose proof (pow1024_ge_1 k) as H1.
      rewrite !pow1024_S in Hlo. rewrite !pow1024_S in Hhi.
      assert (Hlo' : (pow1024 (S k) <= x / 1024)%Q).
      { rewrite pow1024_S. apply Qle_shift_div_l; [reflexivity|]. lra. }
      assert (Hhi' : (x / 1024 < pow1024 (S (S k)))%Q).
      { rewrite !pow1024_S. apply Qlt_shift_div_r; [reflexivity|]. lra. }
      assert (E : Qle_bool 1024 (x / 1024) = true).
      { apply Qle_bool_iff. rewrite pow1024_S in Hlo'. lra. }
      rewrite E. rewrite (IH _ _ _ Hk Hlo' Hhi'). reflexivity.
Qed.

Lemma human_loop_top (us : list string) :
  forall x,
    (pow1024 (S (List.length us)) <= x)%Q ->
    exists q, human_loop us x = (format_1f q ++ " ZB")%string.
Proof.
  induction us as [|u0 rest IH]; intros x Hlo.
  - exists x. reflexivity.
  - cbn [human_loop]. cbn [List.length] in Hlo.
    pose proof (pow1024_ge_1 (List.length rest)) as H1.
    rewrite !pow1024_S in Hlo.
    assert (Hlo' : (pow1024 (S (List.length rest)) <= x / 1024)%Q).
    { rewrite pow1024_S. apply Qle_shift_div_l; [reflexivity|]. lra. }
    assert (E : Qle_bool 1024 (x / 1024) = true).
    { apply Qle_bool_iff. rewrite pow1024_S in Hlo'. lra. }
    rewrite E. apply IH. exact Hlo'.
Qed.

(** C9, as the code has it.  Below 1024 the result is the plain byte form.
    From 1024 on, the integer is converted to a double [x] and [x] is
    divided by 1024 until it is below 1024 or the largest unit is reached;
    every tier but the byte tier shows one decimal place.  The unit is the
    one designated by the powers of 1024 that bracket the double [x]: the
    k-th unit, with the magnitude [x / 1024^k], for
    [1024^k <= x < 1024^(k+1)], and [ZB] for [1024^7 <= x].  The double is
    the integer itself below [2^53]. *)
Theorem human_size_tiers (n : Z) :
  (n < 1024 -> human_size n = Ok (str n ++ " B")%string) /\
  (1024 <= n ->
   forall x,
     to_float n = Ok x ->
     (forall k unit,
         nth_error units k = Some unit ->
         (pow1024 (S k) <= x)%Q -> (x < pow1024 (S (S k)))%Q ->
         human_size n
         = Ok (format_1f (div_by (S k) x) ++ " " ++ unit)%string) /\
     ((pow1024 7 <= x)%Q ->
      exists q, human_size n = Ok (format_1f q ++ " ZB")%string)) /\
  (0 <= n < 2 ^ 53 -> to_float n = Ok (inject_Z n)).
Proof.
  split; [|split].
  - intros Hn. unfold human_size.
    apply Z.ltb_lt in Hn. rewrite Hn. reflexivity.
  - intros Hn x Hx.
    assert (E : (n <? 1024) = false) by (apply Z.ltb_ge; exact Hn).
    split.
    + intros k unit Hk Hlo Hhi. unfold human_size. rewrite E, Hx.
      cbn [bind]. rewrite (@human_loop_tier units x k unit Hk Hlo Hhi). reflexivity.
    + intros Hlo. unfold human_size. rewrite E, Hx. cbn [bind].
      destruct (@human_loop_top units x Hlo) as [q Hq].
      exists q. rewrite Hq. reflexivity.
  - apply to_float_exact.
Qed.

Lemma human_size_tiers_witness :
  human_size 1023 = Ok "1023 B"%string /\
  human_size 123456789
  = Ok (format_1f (div_by 2 (inject_Z 123456789)) ++ " MB")%string /\
  (exists q, human_size (2 ^ 70) = Ok (format_1f q ++ " ZB")%string).
Proof.
  split; [|split].
  - apply (proj1 (human_size_tiers 1023)). reflexivity.
  - destruct (human_size_tiers 123456789) as (_ & Htier & Hexact).
    destruct (Htier ltac:(discriminate) (inject_Z 123456789)
                    (Hexact ltac:(split; [discriminate|reflexivity])))
      as [Hk _].
    apply (Hk 1%nat "MB"%string eq_refl); [discriminate|reflexivity].
  - destruct (human_size_tiers (2 ^ 70)) as (_ & Htier & _).
    destruct (Htier ltac:(discriminate) (inject_Z (2 ^ 70))
                    ltac:(vm_compute; reflexivity)) as [_ Htop].
    apply Htop. discriminate.
Defined.

(** C9 as stated (the unit is the one designated by the powers of 1024
    bracketing [n]) fails: [2^60 - 1] lies between [1024^5] and [1024^6],
    the [PB] bracket, but the nearest double is [2^60] and the result is
    ["1.0 EB"]. *)
Lemma human_size_rounds_into_next_tier :
  ~ (forall n,
        0 <= n ->
        exists mag, human_size n = Ok (mag ++ " " ++ bracket_unit n)%string).
Proof.
  intros H. destruct (H (2 ^ 60 - 1)) as [mag Hm]; [discriminate|].
  assert (E : human_size (2 ^ 60 - 1) = Ok "1.0 EB"%string)
    by (vm_compute; reflexivity).
  assert (U : bracket_unit (2 ^ 60 - 1) = "PB"%string) by reflexivity.
  rewrite E, U in Hm. injection Hm as Hs.
  do 6 (destruct mag as [|? mag]; [discriminate Hs|];
        simpl in Hs; injection Hs as _ Hs).
  destruct mag; discriminate Hs.
Qed.

(** *** The top tier and the range of doubles *)

Lemma human_loop_top_value (us : list string) :
  forall x,
    (pow1024 (S (List.length us)) <= x)%Q ->
    human_loop us x
    = (format_1f (div_by (List.length us) x) ++ " ZB")%string.
Proof.
  induction us as [|u0 rest IH]; intros x Hlo; [reflexivity|].
  cbn [human_loop List.length div_by]. cbn [List.length] in Hlo.
  pose proof (pow1024_ge_1 (List.length rest)) as H1.
  rewrite !pow1024_S in Hlo.
  assert (Hlo' : (pow1024 (S (List.length rest)) <= x / 1024)%Q).
  { rewrite pow1024_S. apply Qle_shift_div_l; [reflexivity|]. lra. }
  assert (E : Qle_bool 1024 (x / 1024) = true).
  { apply Qle_bool_iff. rewrite pow1024_S in Hlo'. lra. }
  rewrite E. apply IH. exact Hlo'.
Qed.

(** X19.  From [1024^7] on, the magnitude shown with the unit [ZB] is the
    double divided by [1024^6], the divisor of the unit [EB]: the last
    return follows six divisions, not seven. *)
Theorem human_size_zb_magnitude (n : Z) (x : Q) :
  1024 <= n -> to_float n = Ok x -> (pow1024 7 <= x)%Q ->
  human_size n = Ok (format_1f (div_by 6 x) ++ " ZB")%string.
Proof.
  intros Hn Hx Hlo. unfold human_size.
  assert (E : (n <? 1024) = false) by (apply Z.ltb_ge; exact Hn).
  rewrite E, Hx. cbn [bind].
  rewrite (@human_loop_top_value units x Hlo). reflexivity.
Qed.

Lemma human_size_zb_magnitude_witness :
  human_size (2 ^ 70)
  = Ok (format_1f (div_by 6 (inject_Z (2 ^ 70))) ++ " ZB")%string /\
  human_size (2 ^ 70) = Ok "1024.0 ZB"%string.
Proof.
  split; [|vm_compute; reflexivity].
  apply (@human_size_zb_magnitude (2 ^ 70) (inject_Z (2 ^ 70))).
  - discriminate.
  - vm_compute. reflexivity.
  - discriminate.
Defined.

(** The double of a positive integer is one of the two multiples of
    [2^shift] around it. *)
Lemma to_float_cases (n : Z) :
  0 < n ->
  let shift := Z.max 0 (Z.log2 n + 1 - 53) in
  exists q',
    n / 2 ^ shift <= q' <= n / 2 ^ shift + 1 /\
    (shift = 0 -> q' = n) /\
    to_float n
    = if 2 ^ 1024 <=? q' * 2 ^ shift then Raise OverflowError
      else Ok (inject_Z (q' * 2 ^ shift)).
Proof.
  intros Hn shift. unfold to_float.
  rewrite (Z.abs_eq n) by lia. rewrite (Z.sgn_pos n) by exact Hn.
  fold shift. assert (Hs : 0 <= shift) by (unfold shift; lia).
  rewrite Z.shiftr_div_pow2 by exact Hs.
  set (q := n / 2 ^ shift).
  set (q' := if shift =? 0 then q
             else if (Z.shiftl 1 (shift - 1) <? n - Z.shiftl q shift)
                     || ((n - Z.shiftl q shift =? Z.shiftl 1 (shift - 1))
                         && Z.odd q)
                  then q + 1 else q).
  exists q'. rewrite Z.shiftl_mul_pow2 by exact Hs. rewrite Z.mul_1_l.
  split; [|split; [|reflexivity]].
  - unfold q'. destruct (shift =? 0); [lia|].
    destruct (_ || _); lia.
  - intros E. unfold q', q. rewrite E. cbn [Z.eqb].
    change (2 ^ 0) with 1. apply Z.div_1_r.
Qed.

(** X20.  [human_size] gives a result for every byte count below [2^1023]
    and raises [OverflowError] for every byte count from [2^1024] on, where
    the integer has no double. *)
Theorem human_size_overflow (n : Z) :
  (n < 2 ^ 1023 -> exists s, human_size n = Ok s) /\
  (2 ^ 1024 <= n -> human_size n = Raise OverflowError).
Proof.
  assert (P1023 : 0 < 2 ^ 1023) by (apply Z.pow_pos_nonneg; lia).
  assert (P1024 : 2 ^ 1024 = 2 * 2 ^ 1023)
    by (change 1024 with (Z.succ 1023); apply Z.pow_succ_r; lia).
  assert (P10 : 1024 < 2 ^ 1023).
  { change 1024 with (2 ^ 10). apply Z.pow_lt_mono_r; lia. }
  split.
  - intros Hn. unfold human_size. destruct (n <? 1024) eqn:E.
    { eexists; reflexivity. }
    apply Z.ltb_ge in E. assert (Hpos : 0 < n) by lia.
    destruct (to_float_cases Hpos) as (q' & [Hq1 Hq2] & Hz & ->).
    set (shift := Z.max 0 (Z.log2 n + 1 - 53)) in *.
    assert (Hlog : Z.log2 n < 1023) by (apply Z.log2_lt_pow2; lia).
    assert (Hv : q' * 2 ^ shift < 2 ^ 1024).
    { destruct (Z.eq_dec shift 0) as [E0|E0].
      - rewrite (Hz E0), E0. change (2 ^ 0) with 1. lia.
      - assert (Hsh : shift = Z.log2 n + 1 - 53) by (unfold shift in *; lia).
        assert (Hp : 0 < 2 ^ shift) by (apply Z.pow_pos_nonneg; lia).
        assert (Hnb : n < 2 ^ 53 * 2 ^ shift).
        { rewrite <- Z.pow_add_r by lia.
          replace (53 + shift) with (Z.succ (Z.log2 n)) by lia.
          apply Z.log2_spec. exact Hpos. }
        assert (Hq : n / 2 ^ shift < 2 ^ 53)
          by (apply Z.div_lt_upper_bound; lia).
        assert (Hle : q' * 2 ^ shift <= 2 ^ 53 * 2 ^ shift)
          by (apply Z.mul_le_mono_nonneg_r; lia).
        rewrite <- Z.pow_add_r in Hle by lia.
        assert (Hm : 2 ^ (53 + shift) <= 2 ^ 1023)
          by (apply Z.pow_le_mono_r; lia).
        lia. }
    assert (Eb : (2 ^ 1024 <=? q' * 2 ^ shift) = false)
      by (apply Z.leb_gt; exact Hv).
    rewrite Eb. cbn [bind]. eexists; reflexivity.
  - intros Hn. unfold human_size.
    assert (E : (n <? 1024) = false) by (apply Z.ltb_ge; lia).
    rewrite E. assert (Hpos : 0 < n) by lia.
    destruct (to_float_cases Hpos) as (q' & [Hq1 Hq2] & Hz & ->).
    set (shift := Z.max 0 (Z.log2 n + 1 - 53)) in *.
    assert (Hlog : 1024 <= Z.log2 n) by (apply Z.log2_le_pow2; lia).
    assert (Hsh : shift = Z.log2 n + 1 - 53) by (unfold shift; lia).
    assert (Hp : 0 < 2 ^ shift) by (apply Z.pow_pos_nonneg; lia).
    assert (Hnb : 2 ^ 52 * 2 ^ shift <= n).
    { rewrite <- Z.pow_add_r by lia.
      replace (52 + shift) with (Z.log2 n) by lia.
      apply Z.log2_spec. exact Hpos. }
    assert (Hq : 2 ^ 52 <= n / 2 ^ shift)
      by (apply Z.div_le_lower_bound; lia).
    assert (Hle : 2 ^ 52 * 2 ^ shift <= q' * 2 ^ shift)
      by (apply Z.mul_le_mono_nonneg_r; lia).
    rewrite <- Z.pow_add_r in Hle by lia.
    assert (Hm : 2 ^ 1024 <= 2 ^ (52 + shift))
      by (apply Z.pow_le_mono_r; lia).
    assert (Eb : (2 ^ 1024 <=? q' * 2 ^ shift) = true)
      by (apply Z.leb_le; lia).
    rewrite Eb. reflexivity.
Qed.

Lemma human_size_overflow_witness :
  (exists s, human_size (2 ^ 80) = Ok s) /\
  human_size (2 ^ 1024) = Raise OverflowError.
Proof.
  split.
  - apply (proj1 (human_size_overflow (2 ^ 80))).
    apply Z.pow_lt_mono_r; lia.
  - apply (proj2 (human_size_overflow (2 ^ 1024))). apply Z.le_refl.
Defined.

End Utilities.

(** ** Data model *)

(** [[
@dataclass
class Node:
    path: str
    name: str
    size: int
    is_dir: bool
    children: List["Node"] = field(default_factory=list)
]] *)
Inductive Node : Type :=
  mkNode { path : string; name : string; size : Z; is_dir : bool;
           children : list Node }.

(** ** Directory scanning *)

Module Scan.

Open Scope string_scope.
Open Scope Z_scope.

(** One filesystem entry, with the answers of the OS calls the scanner makes
    on it: [e_path] and [e_name] are [entry.path] and [entry.name] of the
    [os.scandir] entry (for the root, [e_path] is the path given to the
    scan); [e_isdir] is [os.path.isdir(path)]; [e_lstat] is [os.lstat(path)],
    [None] when it raises and [Some n] when it reports [st_size = n];
    [e_islink] is [os.path.islink(path)]; iterating [os.scandir(path)] yields
    [e_entries] in order and then, when [e_fail = Some ex], raises [ex] (with
    no entries, the call itself fails). *)
Inductive entry : Type :=
  mkEntry { e_path : string; e_name : string; e_isdir : bool;
            e_lstat : option Z; e_islink : bool;
            e_entries : list entry; e_fail : option exn }.

(** What the scan thread changes: the number of [stop_flag.is_set()] queries
    made so far and [self.scan_count]. *)
Record state : Type := mkSt { reads : nat; scan_count : nat }.

Section Scanner.

(** [os.path.basename] *)
Variable basename : string -> string.

(** [stop_flag.is_set()] at the k-th query (the event is set by another
    thread, at a moment the scan does not control). *)
Variable stop_flag : nat -> bool.

(** [exclude], [(path, is_dir, name) -> bool], and [progress_cb]. *)
Variable exclude : option (string -> bool -> string -> bool).
Variable progress_cb : option (state -> state).

Definition is_set (st : state) : bool * state :=
  (stop_flag (reads st), mkSt (S (reads st)) (scan_count st)).

(** [if progress_cb: progress_cb()] *)
Definition call_progress (st : state) : state :=
  match progress_cb with
  | Some cb => cb st
  | None => st
  end.

(** [not is_root and exclude and exclude(path, is_dir, name)] *)
Definition excluded (is_root : bool) (p : string) (d : bool) (n : string)
  : bool :=
  negb is_root &&
  match exclude with
  | Some f => f p d n
  | None => false
  end.

(** [[
    def _scan(path, is_root=False):
        if stop_flag.is_set():
            raise RuntimeError("Scan stopped")
        name = os.path.basename(path) or path
        is_dir = os.path.isdir(path)
        if not is_root and exclude and exclude(path, is_dir, name):
            return None
        try:
            st = os.lstat(path)
        except Exception:
            return Node(path, name + " [stat error]", 0, False, [])
        if os.path.islink(path):
            return Node(path, name + " [symlink]", 0, False, [])
        if is_dir:
            total = 0
            kids = []
            try:
                with os.scandir(path) as it:
                    for entry in it:
                        if stop_flag.is_set():
                            raise RuntimeError("Scan stopped")
                        try:
                            child = _scan(entry.path)
                            if child is not None:
                                kids.append(child)
                                total += max(child.size, 0)
                        except PermissionError:
                            kids.append(Node(entry.path, entry.name + " [denied]", 0, False, []))
                        except RuntimeError:
                            raise
                        except Exception:
                            kids.append(Node(entry.path, entry.name + " [error]", 0, False, []))
                        if progress_cb:
                            progress_cb()
            except PermissionError:
                return Node(path, name + " [denied]", 0, True, [])
            except Exception:
                return Node(path, name + " [error]", 0, True, [])
            return Node(path, name, total, True, kids)
        else:
            size = 0
            try:
                size = st.st_size
            except Exception:
                pass
            return Node(path, name, size, False, [])
]]
    The [for] loop is [scan_entries], over the entries [os.scandir] yields,
    with the recursive call [_scan(entry.path)] as [scan_child]; it returns
    what the body of the outer [try] leaves: the pair [(total, kids)] or the
    exception that left the loop.  The outer [except] clauses are the final
    [match] of [_scan]: they receive every exception that leaves the loop,
    [RuntimeError] included, since [RuntimeError] is an [Exception].
    [_scan] recurses as deep as the tree of entries is; [_scan_within],
    further down, is the same function within the interpreter's bound on
    nested calls. *)
Section Entries.

Variable scan_child : entry -> state -> result (option Node) * state.
Variable fail : option exn.

Fixpoint scan_entries (es : list entry) (total : Z) (kids : list Node)
         (st : state) : result (Z * list Node) * state :=
  match es with
  | [] =>
      match fail with
      | Some ex => (Raise ex, st)
      | None => (Ok (total, kids), st)
      end
  | c :: es' =>
      let (stopped, st) := is_set st in
      if stopped then (Raise RuntimeError, st)
      else
        let (r, st) := scan_child c st in
        match r with
        | Ok (Some child) =>
            scan_entries es' (total + Z.max (size child) 0)
                         (kids ++ [child])%list (call_progress st)
        | Ok None =>
            scan_entries es' total kids (call_progress st)
        | Raise PermissionError =>
            scan_entries es' total
              (kids ++ [mkNode (e_path c) (e_name c ++ " [denied]")
                               0 false []])%list
              (call_progress st)
        | Raise RuntimeError => (Raise RuntimeError, st)
        | Raise _ =>
            scan_entries es' total
              (kids ++ [mkNode (e_path c) (e_name c ++ " [error]")
                               0 false []])%list
              (call_progress st)
        end
  end.

End Entries.

(** [name = os.path.basename(path) or path] *)
Definition name_of (p : string) : string :=
  if String.eqb (basename p) "" then p else basename p.

Fixpoint _scan (e : entry) (is_root : bool) (st : state)
  : result (option Node) * state :=
  match e with
  | mkEntry p _ is_dir lstat islink entries fail =>
      let (stopped, st) := is_set st in
      if stopped then (Raise RuntimeError, st)
      else
        let name := name_of p in
        if excluded is_root p is_dir name then (Ok None, st)
        else
          match lstat with
          | None =>
              (Ok (Some (mkNode p (name ++ " [stat error]") 0 false [])), st)
          | Some st_size =>
              if islink then
                (Ok (Some (mkNode p (name ++ " [symlink]") 0 false [])), st)
              else if is_dir then
                let (r, st) :=
                  scan_entries (fun c st => _scan c false st) fail
                               entries 0 [] st in
                match r with
                | Ok (total, kids) =>
                    (Ok (Some (mkNode p name total true kids)), st)
                | Raise PermissionError =>
                    (Ok (Some (mkNode p (name ++ " [denied]") 0 true [])), st)
                | Raise _ =>
                    (Ok (Some (mkNode p (name ++ " [error]") 0 true [])), st)
                end
              else (Ok (Some (mkNode p name st_size false [])), st)
          end
  end.

(** [[
    root = _scan(root_path, is_root=True)
    assert root is not None
    return root
]]
    A failed [assert] raises [AssertionError], an [Exception]. *)
Definition scan_directory (root : entry) (st : state) : result Node * state :=
  let (r, st) := _scan root true st in
  match r with
  | Ok (Some node) => (Ok node, st)
  | Ok None => (Raise OtherError, st)
  | Raise ex => (Raise ex, st)
  end.

(** What the UI ends up showing for one scan. *)
Inductive outcome : Type :=
| Completed (tree : Node)   (* [apply_tree] ran: status "Done" *)
| Cancelled                 (* status "Scan stopped" *)
| Failed (ex : exn)         (* message box "Scan failed" *)
| NoUpdate.                 (* the result is dropped without a word *)

End Scanner.

Arguments is_set _ _ : simpl never.
Arguments call_progress _ _ : simpl never.
Arguments excluded _ _ _ _ _ : simpl never.
Arguments name_of _ _ : simpl never.

(** [[
    def _scan_worker(self, path, stop_flag, scan_id):
        self.scan_count = 0
        def progress():
            if stop_flag.is_set() or scan_id != self.scan_id:
                return
            self.scan_count += 1
            ...
        try:
            tree = scan_directory(path, stop_flag, progress_cb=progress,
                                  exclude=self._should_exclude)
        except RuntimeError:
            if scan_id == self.scan_id:
                self.root.after(0, lambda: self.status.config(text="Scan stopped"))
            return
        except Exception as e:
            ...
            if scan_id == self.scan_id:
                self.root.after(0, lambda: messagebox.showerror("Scan failed", str(e)))
            return
        def apply_tree():
            if scan_id != self.scan_id or stop_flag.is_set():
                return
            self.current_tree = tree
            ...
            self.status.config(text="Done")
        self.root.after(0, apply_tree)
]]
    [current] is the value of [scan_id == self.scan_id] (no later scan has
    been started). *)
Section Worker.

Variable basename : string -> string.
Variable stop_flag : nat -> bool.
Variable should_exclude : string -> bool -> string -> bool.
Variable current : bool.

Definition progress (st : state) : state :=
  let (stopped, st) := is_set stop_flag st in
  if stopped || negb current then st
  else mkSt (reads st) (S (scan_count st)).

Definition _scan_worker (root : entry) : outcome :=
  let st := mkSt 0 0 in
  let (r, st) :=
    scan_directory basename stop_flag (Some should_exclude) (Some progress)
                   root st in
  match r with
  | Raise RuntimeError => if current then Cancelled else NoUpdate
  | Raise ex => if current then Failed ex else NoUpdate
  | Ok tree =>
      let (stopped, _) := is_set stop_flag st in
      if negb current || stopped then NoUpdate else Completed tree
  end.

End Worker.

(** *** Sizes in the tree *)

(** [sum(max(c.size, 0) for c in kids)] and [sum(c.size for c in kids)]. *)
Definition floor_sum (kids : list Node) : Z :=
  fold_right (fun c acc => Z.max (size c) 0 + acc) 0 kids.

Definition size_sum (kids : list Node) : Z :=
  fold_right (fun c acc => size c + acc) 0 kids.

(** Every directory node has the size [floor_sum] of its children. *)
Fixpoint dirs_sum_floored (n : Node) : bool :=
  match n with
  | mkNode _ _ sz d kids =>
      implb d (sz =? floor_sum kids) && forallb dirs_sum_floored kids
  end.

(** Every directory node has the size [size_sum] of its children. *)
Fixpoint dirs_sum_exact (n : Node) : bool :=
  match n with
  | mkNode _ _ sz d kids =>
      implb d (sz =? size_sum kids) && forallb dirs_sum_exact kids
  end.

(** No [lstat] in the tree of entries reports a negative [st_size]. *)
Fixpoint stat_sizes_nonneg (e : entry) : bool :=
  match e with
  | mkEntry _ _ _ lstat _ es _ =>
      match lstat with Some n => 0 <=? n | None => true end
      && forallb stat_sizes_nonneg es
  end.

(** Induction on the tree of entries. *)
Fixpoint entry_tree_ind (P : entry -> Prop)
         (step : forall p n d l k es f,
             Forall P es -> P (mkEntry p n d l k es f))
         (e : entry) : P e :=
  match e with
  | mkEntry p n d l k es f =>
      step p n d l k es f
           ((fix all (l : list entry) : Forall P l :=
               match l with
               | [] => Forall_nil P
               | c :: l' => Forall_cons c (entry_tree_ind step c) (all l')
               end) es)
  end.

Lemma floor_sum_app (a b : list Node) :
  floor_sum (a ++ b) = floor_sum a + floor_sum b.
Proof. induction a as [|c a IH]; simpl; [reflexivity|]. rewrite IH. lia. Qed.

Lemma floor_sum_nonneg (kids : list Node) : 0 <= floor_sum kids.
Proof. induction kids as [|c kids IH]; simpl; lia. Qed.

Lemma floor_sum_exact (kids : list Node) :
  Forall (fun n => 0 <= size n) kids -> floor_sum kids = size_sum kids.
Proof. induction 1 as [|c kids Hc _ IH]; simpl; [reflexivity|]. lia. Qed.

Section NoCancellation.

Variable basename : string -> string.
Variable stop_flag : nat -> bool.
Variable exclude : option (string -> bool -> string -> bool).
Variable progress_cb : option (state -> state).

(** The event is never set while the scan runs. *)
Hypothesis never_set : forall k, stop_flag k = false.

Local Abbreviation scan := (_scan basename stop_flag exclude progress_cb).

(** What a node produced for the entry [e] satisfies. *)
Definition good (e : entry) (n : Node) : Prop :=
  dirs_sum_floored n = true /\
  (stat_sizes_nonneg e = true -> dirs_sum_exact n = true /\ 0 <= size n).

Definition scans_well (e : entry) : Prop :=
  forall is_root st,
  exists r st',
    scan e is_root st = (Ok r, st') /\
    forall n, r = Some n -> good e n.

Lemma is_set_false (st : state) :
  is_set stop_flag st = (false, mkSt (S (reads st)) (scan_count st)).
Proof. unfold is_set. rewrite never_set. reflexivity. Qed.

(** The loop over the entries of a directory: it runs to the end of the
    listing, where the listing's own failure, if any, is raised. *)
Lemma scan_entries_spec (fail : option exn) (es : list entry) :
  Forall scans_well es ->
  forall total kids st,
  exists new st',
    scan_entries stop_flag progress_cb (fun c st => scan c false st) fail
                 es total kids st
    = (match fail with
       | Some ex => Raise ex
       | None => Ok (total + floor_sum new, (kids ++ new)%list)
       end, st') /\
    Forall (fun n => dirs_sum_floored n = true) new /\
    (forallb stat_sizes_nonneg es = true ->
     Forall (fun n => dirs_sum_exact n = true /\ 0 <= size n) new).
Proof.
  induction 1 as [|c es Hc _ IH]; intros total kids st.
  - exists [], st. simpl. rewrite app_nil_r, Z.add_0_r.
    split; [destruct fail; reflexivity|]. split; constructor.
  - cbn [scan_entries]. rewrite is_set_false.
    destruct (Hc false (mkSt (S (reads st)) (scan_count st)))
      as (r & st1 & Hrun & Hgood).
    rewrite Hrun. destruct r as [child|].
    + destruct (IH (total + Z.max (size child) 0) (kids ++ [child])%list
                   (call_progress progress_cb st1))
        as (new & st' & Hloop & Hfl & Hex).
      exists (child :: new), st'. rewrite Hloop.
      destruct (Hgood child eq_refl) as [Hg1 Hg2].
      split; [|split].
      * destruct fail; [reflexivity|].
        rewrite <- app_assoc. simpl. rewrite Z.add_assoc. reflexivity.
      * constructor; assumption.
      * intros Hnn. apply andb_true_iff in Hnn as [Hc0 Hes].
        constructor; [apply Hg2; exact Hc0|apply Hex; exact Hes].
    + destruct (IH total kids (call_progress progress_cb st1))
        as (new & st' & Hloop & Hfl & Hex).
      exists new, st'. rewrite Hloop. split; [reflexivity|].
      split; [exact Hfl|].
      intros Hnn. apply andb_true_iff in Hnn as [_ Hes]. apply Hex, Hes.
Qed.

Lemma forallb_Forall (A : Type) (f : A -> bool) (l : list A) :
  Forall (fun x => f x = true) l -> forallb f l = true.
Proof. intros H. apply forallb_forall. apply Forall_forall. exact H. Qed.

Lemma scan_good (e : entry) : scans_well e.
Proof.
  induction e as [p n d l k es f IH] using entry_tree_ind.
  intros is_root st. cbn [_scan]. rewrite is_set_false.
  set (st1 := mkSt (S (reads st)) (scan_count st)).
  destruct (excluded exclude is_root p d (name_of basename p)).
  { exists None, st1. split; [reflexivity|]. discriminate. }
  destruct l as [st_size|].
  2:{ eexists; exists st1. split; [reflexivity|].
      intros node [= <-]. split; [reflexivity|].
      intros _. split; [reflexivity|simpl; lia]. }
  destruct k.
  { eexists; exists st1. split; [reflexivity|].
    intros node [= <-]. split; [reflexivity|].
    intros _. split; [reflexivity|simpl; lia]. }
  destruct d.
  2:{ eexists; exists st1. split; [reflexivity|].
      intros node [= <-]. split; [reflexivity|].
      simpl. intros Hnn. apply andb_true_iff in Hnn as [Hsz _].
      split; [reflexivity|]. apply Z.leb_le. exact Hsz. }
  destruct (@scan_entries_spec f es IH 0 [] st1)
    as (new & st' & Hloop & Hfl & Hex).
  rewrite Hloop. destruct f as [ex|].
  - exists (Some (mkNode p (name_of basename p
                            ++ (match ex with
                                | PermissionError => " [denied]"
                                | _ => " [error]"
                                end)) 0 true [])), st'.
    split; [destruct ex; reflexivity|].
    intros node [= <-]. split; [reflexivity|].
    intros _. split; [reflexivity|simpl; lia].
  - simpl. eexists; exists st'. split; [reflexivity|].
    intros node [= <-]. split.
    + simpl. rewrite Z.eqb_refl. simpl. apply forallb_Forall. exact Hfl.
    + simpl. intros Hnn. apply andb_true_iff in Hnn as [_ Hes].
      specialize (Hex Hes).
      assert (Hsz : Forall (fun n => 0 <= size n) new)
        by (eapply Forall_impl; [|exact Hex]; intros ? [_ ?]; assumption).
      rewrite (floor_sum_exact Hsz), Z.eqb_refl. simpl. split.
      * apply forallb_Forall. eapply Forall_impl; [|exact Hex].
        intros ? [? _]; assumption.
      * rewrite <- (floor_sum_exact Hsz). apply floor_sum_nonneg.
Qed.

(** A directory whose listing fails gets size 0 and no children. *)
Lemma scan_failed_listing (e : entry) (is_root : bool) (st : state) :
  e_isdir e = true -> e_fail e <> None ->
  exists r st',
    scan e is_root st = (Ok r, st') /\
    forall n, r = Some n -> size n = 0 /\ children n = [].
Proof.
  destruct e as [p n d l k es f]. cbn [e_isdir e_fail]. intros -> Hf.
  destruct f as [ex|]; [clear Hf|congruence].
  cbn [_scan]. rewrite is_set_false.
  set (st1 := mkSt (S (reads st)) (scan_count st)).
  destruct (excluded exclude is_root p true (name_of basename p)).
  { exists None, st1. split; [reflexivity|]. discriminate. }
  destruct l as [st_size|].
  2:{ eexists; exists st1. split; [reflexivity|].
      intros node [= <-]. split; reflexivity. }
  destruct k.
  { eexists; exists st1. split; [reflexivity|].
    intros node [= <-]. split; reflexivity. }
  assert (Hall : Forall scans_well es)
    by (apply Forall_forall; intros c _; apply scan_good).
  destruct (@scan_entries_spec (Some ex) es Hall 0 [] st1)
    as (new & st' & Hloop & _).
  rewrite Hloop.
  destruct ex; eexists; exists st'; (split; [reflexivity|]);
    intros node [= <-]; split; reflexivity.
Qed.

End NoCancellation.

(** *** Sample filesystems *)

(** [/r] holds the file [f] (10 bytes) and the directory [d], which holds the
    file [g] (50 bytes). *)
Definition file_f : entry := mkEntry "/r/f" "f" false (Some 10) false [] None.
Definition file_g : entry := mkEntry "/r/d/g" "g" false (Some 50) false [] None.
Definition dir_d : entry := mkEntry "/r/d" "d" true (Some 4096) false [file_g] None.
Definition dir_r : entry := mkEntry "/r" "r" true (Some 4096) false [file_f; dir_d] None.

(** [/one] holds the single file [f]. *)
Definition dir_one : entry :=
  mkEntry "/one" "one" true (Some 4096) false
          [mkEntry "/one/f" "f" false (Some 10) false [] None] None.

(** [/neg] holds one file whose [lstat] reports the size -1. *)
Definition dir_neg : entry :=
  mkEntry "/neg" "neg" true (Some 4096) false
          [mkEntry "/neg/f" "f" false (Some (-1)) false [] None] None.

(** [/nope] does not exist. *)
Definition missing_root : entry :=
  mkEntry "/nope" "nope" false None false [] None.

(** The event is set when the scan has made [k] queries. *)
Definition set_after (k : nat) : nat -> bool := fun i => Nat.leb k i.

Definition never : nat -> bool := fun _ => false.

Definition no_rules : string -> bool -> string -> bool := fun _ _ _ => false.

(** *** Cancellation *)

(** C1.  The code when the event is set in the middle of a walk.
    - In [/one], the event is set after the check at the top of the root
      call and before the check for the entry [f]: the [RuntimeError] raised
      in the loop is caught by the [except Exception] of the directory's own
      [try], and [scan_directory] returns a root node tagged [" [error]"].
    - In [/one] again, the event is set after the check for the entry [f]
      and before the check at the top of the recursive call for [f]: the
      [RuntimeError] of the recursive call is re-raised by
      [except RuntimeError: raise] and caught in the same way.
    - In [/r], the event is set while [/r/d] is being listed: [d] becomes a
      node tagged [" [error]"], the listing of [/r] is at its end, and
      [scan_directory] returns an untagged root with the partial contents
      ([f] counted, [g] lost).
    In no such case does a [RuntimeError] reach the worker, which then drops the
    tree without reporting "Scan stopped".  Only a set event at the very
    first check makes the scan raise. *)
Theorem scan_cancelled_mid_walk_returns_tree :
  scan_directory Posix.basename (set_after 1) None None dir_one (mkSt 0 0)
  = (Ok (mkNode "/one" "one [error]" 0 true []), mkSt 2 0) /\
  scan_directory Posix.basename (set_after 2) None None dir_one (mkSt 0 0)
  = (Ok (mkNode "/one" "one [error]" 0 true []), mkSt 3 0) /\
  scan_directory Posix.basename (set_after 5) None None dir_r (mkSt 0 0)
  = (Ok (mkNode "/r" "r" 10 true
                [mkNode "/r/f" "f" 10 false [];
                 mkNode "/r/d" "d [error]" 0 true []]), mkSt 6 0) /\
  _scan_worker Posix.basename (set_after 1) no_rules true dir_one = NoUpdate /\
  _scan_worker Posix.basename (set_after 5) no_rules true dir_r = NoUpdate /\
  _scan_worker Posix.basename (set_after 0) no_rules true dir_r = Cancelled.
Proof. repeat split; vm_compute; reflexivity. Qed.

(** *** A root that cannot be stat'd *)

(** C3, as the code has it.  When [os.lstat] fails on the root, the scan
    never reports a failure; unless the event is set, [scan_directory]
    returns a zero-size leaf tagged [" [stat error]"] and the worker
    completes with that tree. *)
Theorem scan_missing_root_completes
        (basename : string -> string) (stop_flag : nat -> bool)
        (should_exclude : string -> bool -> string -> bool) (root : entry) :
  e_lstat root = None ->
  (forall current ex,
      _scan_worker basename stop_flag should_exclude current root
      <> Failed ex) /\
  (stop_flag 0%nat = false -> stop_flag 1%nat = false ->
   let leaf := mkNode (e_path root)
                      (name_of basename (e_path root) ++ " [stat error]")
                      0 false [] in
   scan_directory basename stop_flag (Some should_exclude)
                  (Some (progress stop_flag true)) root (mkSt 0 0)
   = (Ok leaf, mkSt 1 0) /\
   _scan_worker basename stop_flag should_exclude true root = Completed leaf).
Proof.
  destruct root as [p n d l k es f]. cbn [e_lstat e_path]. intros ->.
  split.
  - intros current ex. unfold _scan_worker, scan_directory. cbn [_scan].
    unfold is_set at 1. cbn [reads scan_count].
    destruct (stop_flag 0%nat).
    + destruct current; discriminate.
    + unfold excluded. cbn [negb andb]. unfold is_set. cbn [reads].
      destruct (negb current || stop_flag 1%nat); discriminate.
  - intros H0 H1. cbv zeta.
    unfold _scan_worker, scan_directory. cbn [_scan].
    unfold is_set, excluded. cbn [reads scan_count negb andb].
    rewrite H0. cbn [reads]. rewrite H1. split; reflexivity.
Qed.

Lemma scan_missing_root_completes_witness :
  (forall current ex,
      _scan_worker Posix.basename never no_rules current missing_root
      <> Failed ex) /\
  _scan_worker Posix.basename never no_rules true missing_root
  = Completed (mkNode "/nope" "nope [stat error]" 0 false []).
Proof.
  destruct (@scan_missing_root_completes Posix.basename never no_rules
              missing_root eq_refl) as [Hnf Hdone].
  split; [exact Hnf|].
  destruct (Hdone eq_refl eq_refl) as [_ Hw]. exact Hw.
Defined.

(** C3 as stated fails: the scan of a root that does not exist is not
    reported as failed; it completes with a tagged zero-size node. *)
Lemma scan_missing_root_not_failed :
  ~ (forall root,
        e_lstat root = None ->
        exists ex,
          _scan_worker Posix.basename never no_rules true root = Failed ex).
Proof.
  intros H. destruct (H missing_root eq_refl) as [ex Hex].
  vm_compute in Hex. discriminate.
Qed.

(** *** Directory sizes *)

(** The root is never excluded: its call does not return [None]. *)
Lemma scan_root_not_none
      (basename : string -> string) (stop_flag : nat -> bool)
      (exclude : option (string -> bool -> string -> bool))
      (progress_cb : option (state -> state)) (e : entry) (st st' : state) :
  _scan basename stop_flag exclude progress_cb e true st <> (Ok None, st').
Proof.
  destruct e as [p n d l k es f]. cbn [_scan].
  destruct (is_set stop_flag st) as [stopped st1].
  destruct stopped; [discriminate|].
  unfold excluded. cbn [negb andb].
  destruct l as [sz|]; [|discriminate].
  destruct k; [discriminate|].
  destruct d; [|discriminate].
  destruct (scan_entries _ _ _ _ _ _ _ _) as [[[total kids]|ex] st2];
    [discriminate|].
  destruct ex; discriminate.
Qed.

(** C5, as the code has it.  When the event is never set, [scan_directory]
    returns a tree in which every directory node's size is the sum of its
    children's sizes, each floored at 0; when no [lstat] reports a negative
    size this is the plain sum of the children's sizes.  A directory whose
    listing fails gets size 0 and no children. *)
Theorem scan_directory_dir_sizes
        (basename : string -> string) (stop_flag : nat -> bool)
        (exclude : option (string -> bool -> string -> bool))
        (progress_cb : option (state -> state)) :
  (forall k, stop_flag k = false) ->
  (forall root st,
    exists tree st',
      scan_directory basename stop_flag exclude progress_cb root st
      = (Ok tree, st') /\
      dirs_sum_floored tree = true /\
      (stat_sizes_nonneg root = true -> dirs_sum_exact tree = true)) /\
  (forall e is_root st,
      e_isdir e = true -> e_fail e <> None ->
      exists r st',
        _scan basename stop_flag exclude progress_cb e is_root st
        = (Ok r, st') /\
        forall n, r = Some n -> size n = 0 /\ children n = []).
Proof.
  intros Hnever. split.
  - intros root st.
    destruct (@scan_good basename stop_flag exclude progress_cb Hnever
                root true st) as (r & st' & Hrun & Hgood).
    destruct r as [tree|];
      [|exfalso; exact (scan_root_not_none _ _ _ _ _ _ Hrun)].
    exists tree, st'. unfold scan_directory. rewrite Hrun.
    destruct (Hgood tree eq_refl) as [Hfl Hex].
    split; [reflexivity|]. split; [exact Hfl|].
    intros Hnn. apply Hex, Hnn.
  - intros e is_root st. apply scan_failed_listing. exact Hnever.
Qed.

Lemma scan_directory_dir_sizes_witness :
  exists tree st',
    scan_directory Posix.basename never None None dir_r (mkSt 0 0)
    = (Ok tree, st') /\
    dirs_sum_floored tree = true /\
    (stat_sizes_nonneg dir_r = true -> dirs_sum_exact tree = true).
Proof.
  apply (@scan_directory_dir_sizes Posix.basename never None None).
  intros k. reflexivity.
Defined.

(** C5 as stated (the plain sum, whatever the filesystem reports) fails: a
    file whose [lstat] reports the size -1 counts for 0 in its directory's
    total but keeps -1 as its own size. *)
Lemma scan_negative_size_not_summed :
  ~ (forall root tree st',
        scan_directory Posix.basename never None None root (mkSt 0 0)
        = (Ok tree, st') ->
        dirs_sum_exact tree = true).
Proof.
  intros H.
  specialize (H dir_neg
                (mkNode "/neg" "neg" 0 true [mkNode "/neg/f" "f" (-1) false []])
                (mkSt 3 0) eq_refl).
  vm_compute in H. discriminate.
Qed.

(** *** The scanner under any behaviour of the event *)

(** A node that is not a directory has no children, all through the tree. *)
Fixpoint files_childless (n : Node) : bool :=
  match n with
  | mkNode _ _ _ d kids =>
      (d || match kids with [] => true | _ => false end)
      && forallb files_childless kids
  end.

(** Every directory node has a size that is not negative. *)
Fixpoint dir_sizes_nonneg (n : Node) : bool :=
  match n with
  | mkNode _ _ sz d kids =>
      implb d (0 <=? sz) && forallb dir_sizes_nonneg kids
  end.

Definition well_shaped (n : Node) : bool :=
  dirs_sum_floored n && files_childless n && dir_sizes_nonneg n.

Lemma well_shaped_leaf (p nm : string) (sz : Z) :
  well_shaped (mkNode p nm sz false []) = true.
Proof. reflexivity. Qed.

Lemma well_shaped_dir (p nm : string) (kids : list Node) :
  Forall (fun n => well_shaped n = true) kids ->
  well_shaped (mkNode p nm (floor_sum kids) true kids) = true.
Proof.
  intros H. unfold well_shaped. cbn [dirs_sum_floored files_childless
                                       dir_sizes_nonneg implb orb andb].
  rewrite Z.eqb_refl.
  assert (H0 : (0 <=? floor_sum kids) = true)
    by (apply Z.leb_le, floor_sum_nonneg).
  rewrite H0. cbn [andb].
  assert (H1 : forallb dirs_sum_floored kids = true
               /\ forallb files_childless kids = true
               /\ forallb dir_sizes_nonneg kids = true).
  { clear H0. induction H as [|n kids Hn _ IH]; [repeat split; reflexivity|].
    unfold well_shaped in Hn.
    apply andb_true_iff in Hn as [Hn Hn3].
    apply andb_true_iff in Hn as [Hn1 Hn2].
    destruct IH as (I1 & I2 & I3). cbn [forallb].
    rewrite Hn1, Hn2, Hn3, I1, I2, I3. repeat split; reflexivity. }
  destruct H1 as (-> & -> & ->). reflexivity.
Qed.

Section AnyFlag.

Variable basename : string -> string.
Variable stop_flag : nat -> bool.
Variable exclude : option (string -> bool -> string -> bool).
Variable progress_cb : option (state -> state).

Local Abbreviation scan' := (_scan basename stop_flag exclude progress_cb).

(** What every call of [_scan] guarantees: the only exception that leaves
    it is the [RuntimeError] of its own first check; a node it returns is for
    the entry's path and well shaped. *)
Definition scan_sound (e : entry) : Prop :=
  forall is_root st r st',
    scan' e is_root st = (r, st') ->
    match r with
    | Ok (Some n) =>
        stop_flag (reads st) = false /\
        path n = e_path e /\ well_shaped n = true
    | Ok None =>
        stop_flag (reads st) = false /\
        excluded exclude is_root (e_path e) (e_isdir e)
                 (name_of basename (e_path e)) = true
    | Raise ex => ex = RuntimeError /\ stop_flag (reads st) = true
    end.

(** The loop keeps [total] equal to the floored sum of the kids and the kids
    well shaped, whatever leaves it. *)
Lemma scan_entries_sound (fail : option exn) (es : list entry) :
  Forall scan_sound es ->
  forall total kids st r st',
    scan_entries stop_flag progress_cb (fun c st => scan' c false st) fail
                 es total kids st = (r, st') ->
    match r with
    | Ok (total', kids') =>
        exists new,
          total' = total + floor_sum new /\ kids' = (kids ++ new)%list /\
          Forall (fun n => well_shaped n = true) new
    | Raise _ => True
    end.
Proof.
  induction 1 as [|c es Hc _ IH]; intros total kids st r st' Hrun.
  - cbn [scan_entries] in Hrun. destruct fail; injection Hrun as <- <-.
    + exact I.
    + exists []. rewrite app_nil_r, Z.add_0_r. repeat split. constructor.
  - cbn [scan_entries] in Hrun. unfold is_set in Hrun.
    destruct (stop_flag (reads st)).
    { injection Hrun as <- <-. exact I. }
    destruct (scan' c false (mkSt (S (reads st)) (scan_count st)))
      as [rc st1] eqn:Ec.
    assert (Hleaf : forall nm total1,
               scan_entries stop_flag progress_cb
                 (fun c st => scan' c false st) fail es total1
                 (kids ++ [mkNode (e_path c) nm 0 false []])%list
                 (call_progress progress_cb st1) = (r, st') ->
               total1 = total ->
               match r with
               | Ok (total', kids') =>
                   exists new,
                     total' = total + floor_sum new /\
                     kids' = (kids ++ new)%list /\
                     Forall (fun n => well_shaped n = true) new
               | Raise _ => True
               end).
    { intros nm total1 Hr ->. specialize (IH _ _ _ _ _ Hr).
      destruct r as [[total' kids']|]; [|exact I].
      destruct IH as (new & -> & -> & Hnew).
      exists (mkNode (e_path c) nm 0 false [] :: new).
      rewrite <- app_assoc. repeat split.
      constructor; [apply well_shaped_leaf|exact Hnew]. }
    destruct rc as [[child|]|ex].
    + specialize (IH _ _ _ _ _ Hrun).
      destruct r as [[total' kids']|]; [|exact I].
      destruct IH as (new & -> & -> & Hnew).
      exists (child :: new). rewrite <- app_assoc.
      split; [cbn [floor_sum fold_right]; fold (floor_sum new); lia|].
      split; [reflexivity|].
      constructor; [|exact Hnew].
      apply (Hc _ _ _ _ Ec).
    + exact (IH _ _ _ _ _ Hrun).
    + destruct ex; try (eapply Hleaf; [exact Hrun|reflexivity]).
      injection Hrun as <- <-. exact I.
Qed.

Lemma scan_is_sound (e : entry) : scan_sound e.
Proof.
  induction e as [p n d l k es f IH] using entry_tree_ind.
  intros is_root st r st' Hrun. cbn [_scan] in Hrun.
  unfold is_set in Hrun. cbn [e_path e_isdir].
  destruct (stop_flag (reads st)) eqn:Eflag.
  { injection Hrun as <- <-. split; reflexivity. }
  destruct (excluded exclude is_root p d (name_of basename p)) eqn:Eex.
  { injection Hrun as <- <-. split; reflexivity. }
  destruct l as [st_size|].
  2:{ injection Hrun as <- <-. repeat split. }
  destruct k.
  { injection Hrun as <- <-. repeat split. }
  destruct d.
  2:{ injection Hrun as <- <-. repeat split. }
  destruct (scan_entries stop_flag progress_cb (fun c st => scan' c false st)
                         f es 0 [] (mkSt (S (reads st)) (scan_count st)))
    as [rl st1] eqn:El.
  pose proof (@scan_entries_sound f es IH _ _ _ _ _ El) as Hl.
  destruct rl as [[total kids]|ex].
  - injection Hrun as <- <-. destruct Hl as (new & -> & -> & Hnew).
    cbn [app Z.add]. repeat split. apply well_shaped_dir. exact Hnew.
  - destruct ex; injection Hrun as <- <-; repeat split.
Qed.

Lemma scan_directory_cases (root : entry) (st : state)
      (r : result Node) (st' : state) :
  scan_directory basename stop_flag exclude progress_cb root st = (r, st') ->
  match r with
  | Ok tree =>
      stop_flag (reads st) = false /\
      path tree = e_path root /\ well_shaped tree = true
  | Raise ex => ex = RuntimeError /\ stop_flag (reads st) = true
  end.
Proof.
  unfold scan_directory.
  destruct (scan' root true st) as [r0 st0] eqn:E.
  pose proof (scan_is_sound root _ _ E) as Hs.
  destruct r0 as [[n|]|ex]; intros [= <- <-].
  - exact Hs.
  - exfalso. exact (scan_root_not_none _ _ _ _ _ _ E).
  - exact Hs.
Qed.

End AnyFlag.

(** X1.  [scan_directory] raises exactly when the event is already set at
    its first check, and then it raises [RuntimeError]; when the first check
    passes it returns a tree, whatever the event, the filesystem and the
    exclusion do afterwards. *)
Theorem scan_directory_raises_only_at_first_check
        (basename : string -> string) (stop_flag : nat -> bool)
        (exclude : option (string -> bool -> string -> bool))
        (progress_cb : option (state -> state)) (root : entry) (st : state) :
  (stop_flag (reads st) = true ->
   scan_directory basename stop_flag exclude progress_cb root st
   = (Raise RuntimeError, mkSt (S (reads st)) (scan_count st))) /\
  (stop_flag (reads st) = false ->
   exists tree st',
     scan_directory basename stop_flag exclude progress_cb root st
     = (Ok tree, st')).
Proof.
  split; intros Hflag.
  - unfold scan_directory. destruct root as [p n d l k es f]. cbn [_scan].
    unfold is_set. rewrite Hflag. reflexivity.
  - destruct (scan_directory basename stop_flag exclude progress_cb root st)
      as [r st'] eqn:E.
    pose proof (scan_directory_cases _ _ _ _ _ _ E) as Hc.
    destruct r as [tree|ex]; [exists tree, st'; reflexivity|].
    destruct Hc as [_ Hc]. congruence.
Qed.

Lemma scan_directory_raises_only_at_first_check_witness :
  scan_directory Posix.basename (set_after 0) None None dir_r (mkSt 0 0)
  = (Raise RuntimeError, mkSt 1 0) /\
  exists tree st',
    scan_directory Posix.basename (set_after 3) None None dir_r (mkSt 0 0)
    = (Ok tree, st').
Proof.
  split.
  - apply (proj1 (scan_directory_raises_only_at_first_check
                    Posix.basename (set_after 0) None None dir_r (mkSt 0 0))).
    reflexivity.
  - apply (proj2 (scan_directory_raises_only_at_first_check
                    Posix.basename (set_after 3) None None dir_r (mkSt 0 0))).
    reflexivity.
Defined.

(** X2.  Every tree that [scan_directory] returns, cancelled on the way or
    not, is rooted at the path given; in it every directory node's size is
    the sum of its children's sizes floored at 0 and is not negative, and a
    node that is not a directory has no children. *)
Theorem scan_directory_tree_well_shaped
        (basename : string -> string) (stop_flag : nat -> bool)
        (exclude : option (string -> bool -> string -> bool))
        (progress_cb : option (state -> state)) (root : entry)
        (st st' : state) (tree : Node) :
  scan_directory basename stop_flag exclude progress_cb root st
  = (Ok tree, st') ->
  path tree = e_path root /\
  dirs_sum_floored tree = true /\
  dir_sizes_nonneg tree = true /\
  files_childless tree = true.
Proof.
  intros E. destruct (scan_directory_cases _ _ _ _ _ _ E) as (_ & Hp & Hw).
  unfold well_shaped in Hw.
  apply andb_true_iff in Hw as [Hw H3]. apply andb_true_iff in Hw as [H1 H2].
  auto.
Qed.

Lemma scan_directory_tree_well_shaped_witness :
  let tree := mkNode "/r" "r" 10 true
                     [mkNode "/r/f" "f" 10 false [];
                      mkNode "/r/d" "d [error]" 0 true []] in
  path tree = "/r" /\
  dirs_sum_floored tree = true /\
  dir_sizes_nonneg tree = true /\
  files_childless tree = true.
Proof.
  apply (@scan_directory_tree_well_shaped
           Posix.basename (set_after 5) None None dir_r (mkSt 0 0) (mkSt 6 0)).
  reflexivity.
Defined.

(** X3.  What the worker can end with.  A superseded scan never updates the
    UI.  No scan ends with the "Scan failed" message.  A scan that is still
    the current one reports "Scan stopped" exactly when the event was set
    at its first check, and completes only with a tree that
    [scan_directory] returned and with the event unset when the tree is
    applied. *)
Theorem scan_worker_outcomes
        (basename : string -> string) (stop_flag : nat -> bool)
        (should_exclude : string -> bool -> string -> bool) (root : entry) :
  _scan_worker basename stop_flag should_exclude false root = NoUpdate /\
  (forall current ex,
      _scan_worker basename stop_flag should_exclude current root
      <> Failed ex) /\
  (_scan_worker basename stop_flag should_exclude true root = Cancelled
   <-> stop_flag 0%nat = true) /\
  (forall tree,
      _scan_worker basename stop_flag should_exclude true root
      = Completed tree ->
      exists st',
        scan_directory basename stop_flag (Some should_exclude)
                       (Some (progress stop_flag true)) root (mkSt 0 0)
        = (Ok tree, st') /\
        stop_flag (reads st') = false).
Proof.
  assert (Hcases : forall current,
             exists r st',
               scan_directory basename stop_flag (Some should_exclude)
                              (Some (progress stop_flag current)) root
                              (mkSt 0 0) = (r, st') /\
               match r with
               | Ok _ => stop_flag 0%nat = false
               | Raise ex => ex = RuntimeError /\ stop_flag 0%nat = true
               end).
  { intros current.
    destruct (scan_directory basename stop_flag (Some should_exclude)
                             (Some (progress stop_flag current)) root
                             (mkSt 0 0)) as [r st'] eqn:E.
    exists r, st'. split; [reflexivity|].
    pose proof (scan_directory_cases _ _ _ _ _ _ E) as Hc.
    destruct r; [apply Hc|exact Hc]. }
  repeat split.
  - unfold _scan_worker. destruct (Hcases false) as (r & st' & -> & Hr).
    destruct r as [tree|ex]; [|destruct ex; reflexivity].
    unfold is_set. reflexivity.
  - intros current ex. unfold _scan_worker.
    destruct (Hcases current) as (r & st' & -> & Hr).
    destruct r as [tree|ex'].
    + unfold is_set. destruct (negb current || stop_flag (reads st'));
        discriminate.
    + destruct Hr as [-> _]. destruct current; discriminate.
  - unfold _scan_worker. destruct (Hcases true) as (r & st' & -> & Hr).
    destruct r as [tree|ex'].
    + unfold is_set. cbn [negb orb].
      destruct (stop_flag (reads st')); discriminate.
    + intros _. apply Hr.
  - intros Hflag. unfold _scan_worker.
    destruct (Hcases true) as (r & st' & -> & Hr).
    destruct r as [tree|ex']; [congruence|].
    destruct Hr as [-> _]. reflexivity.
  - intros tree. unfold _scan_worker.
    destruct (Hcases true) as (r & st' & -> & Hr).
    destruct r as [tree'|ex'].
    + unfold is_set. cbn [negb orb].
      destruct (stop_flag (reads st')) eqn:Ef; [discriminate|].
      intros [= <-]. exists st'. split; [reflexivity|exact Ef].
    + destruct Hr as [-> _]. discriminate.
Qed.

Lemma scan_worker_outcomes_witness :
  _scan_worker Posix.basename (set_after 0) no_rules true dir_r = Cancelled /\
  exists st',
    scan_directory Posix.basename never (Some no_rules)
                   (Some (progress never true)) dir_one (mkSt 0 0)
    = (Ok (mkNode "/one" "one" 10 true [mkNode "/one/f" "f" 10 false []]),
       st') /\
    never (reads st') = false.
Proof.
  split.
  - apply (proj2 (proj1 (proj2 (proj2 (scan_worker_outcomes
             Posix.basename (set_after 0) no_rules dir_r))))).
    reflexivity.
  - apply (proj2 (proj2 (proj2 (scan_worker_outcomes
             Posix.basename never no_rules dir_one)))).
    reflexivity.
Defined.

(** *** What an uncancelled walk keeps and counts *)

Section Walk.

Variable basename : string -> string.
Variable stop_flag : nat -> bool.
Variable exclude : option (string -> bool -> string -> bool).

Hypothesis never_set : forall k, stop_flag k = false.

(** The entries of a listing that the exclusion lets through. *)
Definition kept (c : entry) : bool :=
  negb (excluded exclude false (e_path c) (e_isdir c)
                 (name_of basename (e_path c))).

(** The number of entries that the walk of [e] enumerates: those of [e]
    itself when it is a directory that is scanned, and those of the
    directories below. *)
Fixpoint walked (is_root : bool) (e : entry) : nat :=
  match e with
  | mkEntry p _ d l k es _ =>
      if excluded exclude is_root p d (name_of basename p) then 0%nat
      else match l with
           | None => 0%nat
           | Some _ =>
               if k then 0%nat
               else if d then list_sum (map (fun c => S (walked false c)) es)
               else 0%nat
           end
  end.

(** How deep the calls of [_scan] nest in the walk of [e]: one for [e], and
    below a directory that is scanned, the deepest of its entries. *)
Fixpoint nesting (is_root : bool) (e : entry) : nat :=
  match e with
  | mkEntry p _ d l k es _ =>
      S (if excluded exclude is_root p d (name_of basename p) then 0%nat
         else match l with
              | None => 0%nat
              | Some _ =>
                  if k then 0%nat
                  else if d then
                         fold_right (fun c m => Nat.max (nesting false c) m)
                                    0%nat es
                       else 0%nat
              end)
  end.

Section Stack.

Variable progress_cb : option (state -> state).

(** [_scan] as the interpreter runs it.  The interpreter bounds the depth
    of nested calls (about 1000 by default) and raises [RecursionError], a
    [RuntimeError], from the call that finds the stack full; which call that
    is, [_scan] itself or one that its body makes, within a [try] or not,
    is the interpreter's matter.  [frames] is the number of nested calls of
    [_scan] whose bodies run as written; what a call does below that depth
    is left open, as [beyond]. *)
Variable beyond : entry -> bool -> state -> result (option Node) * state.

Fixpoint _scan_within (frames : nat) (e : entry) (is_root : bool)
         (st : state) : result (option Node) * state :=
  match frames with
  | O => beyond e is_root st
  | S frames' =>
      match e with
      | mkEntry p _ is_dir lstat islink entries fail =>
          let (stopped, st) := is_set stop_flag st in
          if stopped then (Raise RuntimeError, st)
          else
            let name := name_of basename p in
            if excluded exclude is_root p is_dir name then (Ok None, st)
            else
              match lstat with
              | None =>
                  (Ok (Some (mkNode p (name ++ " [stat error]") 0 false [])),
                   st)
              | Some st_size =>
                  if islink then
                    (Ok (Some (mkNode p (name ++ " [symlink]") 0 false [])),
                     st)
                  else if is_dir then
                    let (r, st) :=
                      scan_entries stop_flag progress_cb
                                   (fun c st => _scan_within frames' c false st)
                                   fail entries 0 [] st in
                    match r with
                    | Ok (total, kids) =>
                        (Ok (Some (mkNode p name total true kids)), st)
                    | Raise PermissionError =>
                        (Ok (Some (mkNode p (name ++ " [denied]") 0 true [])),
                         st)
                    | Raise _ =>
                        (Ok (Some (mkNode p (name ++ " [error]") 0 true [])),
                         st)
                    end
                  else (Ok (Some (mkNode p name st_size false [])), st)
              end
      end
  end.

Definition scan_directory_within (frames : nat) (root : entry) (st : state)
  : result Node * state :=
  let (r, st) := _scan_within frames root true st in
  match r with
  | Ok (Some node) => (Ok node, st)
  | Ok None => (Raise OtherError, st)
  | Raise ex => (Raise ex, st)
  end.

Lemma scan_entries_agree
      (f g : entry -> state -> result (option Node) * state)
      (fail : option exn) (es : list entry) :
  (forall c, In c es -> forall st, f c st = g c st) ->
  forall total kids st,
    scan_entries stop_flag progress_cb f fail es total kids st
    = scan_entries stop_flag progress_cb g fail es total kids st.
Proof.
  induction es as [|c es IH]; intros Hfg total kids st; [reflexivity|].
  cbn [scan_entries].
  destruct (is_set stop_flag st) as [stopped st1].
  destruct stopped; [reflexivity|].
  rewrite (Hfg c (or_introl eq_refl)).
  assert (Htl : forall c', In c' es -> forall st, f c' st = g c' st)
    by (intros c' Hin; apply Hfg; right; exact Hin).
  destruct (g c st1) as [[[child|]|ex] st2].
  - apply IH. exact Htl.
  - apply IH. exact Htl.
  - destruct ex; try reflexivity; apply IH; exact Htl.
Qed.

Lemma nesting_of_entry (c : entry) (es : list entry) :
  In c es ->
  (nesting false c
   <= fold_right (fun c m => Nat.max (nesting false c) m) 0 es)%nat.
Proof.
  induction es as [|c' es IH]; intros Hin; [destruct Hin|].
  cbn [fold_right]. destruct Hin as [->|Hin]; [lia|].
  specialize (IH Hin). lia.
Qed.

(** A walk that fits the stack is the walk of [_scan]. *)
Lemma scan_within_full (e : entry) :
  forall frames is_root st,
    (nesting is_root e <= frames)%nat ->
    _scan_within frames e is_root st
    = _scan basename stop_flag exclude progress_cb e is_root st.
Proof.
  induction e as [p n d l k es f IH] using entry_tree_ind.
  intros frames is_root st Hfit. cbn [nesting] in Hfit.
  destruct frames as [|frames]; [lia|].
  cbn [_scan_within _scan].
  destruct (is_set stop_flag st) as [stopped st1].
  destruct stopped; [reflexivity|].
  destruct (excluded exclude is_root p d (name_of basename p));
    [reflexivity|].
  destruct l as [st_size|]; [|reflexivity].
  destruct k; [reflexivity|].
  destruct d; [|reflexivity].
  rewrite (@scan_entries_agree
             (fun c st => _scan_within frames c false st)
             (fun c st => _scan basename stop_flag exclude progress_cb
                                c false st)).
  - reflexivity.
  - intros c Hin st'. rewrite Forall_forall in IH. apply IH; [exact Hin|].
    pose proof (nesting_of_entry c es Hin). lia.
Qed.

(** Within the stack, a child call returns no node exactly for an excluded
    entry, and else a node for the entry's path, whatever happens below
    it. *)
Lemma scan_child_kept (frames : nat) (c : entry) (st : state) :
  exists o st',
    _scan_within (S frames) c false st = (Ok o, st') /\
    match o with
    | Some n => kept c = true /\ path n = e_path c
    | None => kept c = false
    end.
Proof.
  destruct c as [p nm d l k es f]. cbn [_scan_within]. unfold is_set, kept.
  rewrite never_set. cbn [e_path e_isdir].
  destruct (excluded exclude false p d (name_of basename p)).
  { eexists. eexists. split; [reflexivity|]. reflexivity. }
  destruct l as [st_size|].
  2:{ eexists. eexists. split; [reflexivity|]. split; reflexivity. }
  destruct k.
  { eexists. eexists. split; [reflexivity|]. split; reflexivity. }
  destruct d.
  2:{ eexists. eexists. split; [reflexivity|]. split; reflexivity. }
  destruct (scan_entries stop_flag progress_cb
                         (fun c st => _scan_within frames c false st)
                         f es 0 [] (mkSt (S (reads st)) (scan_count st)))
    as [[[total kids]|ex] st1].
  - eexists. eexists. split; [reflexivity|]. split; reflexivity.
  - destruct ex; (eexists; eexists; split; [reflexivity|]; split; reflexivity).
Qed.

Lemma scan_entries_kept (frames : nat) (es : list entry) :
  forall total kids st,
  exists total' kids' st',
    scan_entries stop_flag progress_cb
                 (fun c st => _scan_within (S frames) c false st) None
                 es total kids st = (Ok (total', kids'), st') /\
    map path kids' = (map path kids ++ map e_path (filter kept es))%list.
Proof.
  induction es as [|c es IH]; intros total kids st.
  - exists total, kids, st. split; [reflexivity|].
    cbn [filter map]. rewrite app_nil_r. reflexivity.
  - cbn [scan_entries]. unfold is_set. rewrite never_set.
    destruct (scan_child_kept frames c
                              (mkSt (S (reads st)) (scan_count st)))
      as (o & st1 & -> & Ho).
    destruct o as [n|].
    + destruct Ho as [Hk Hp].
      destruct (IH (total + Z.max (size n) 0) (kids ++ [n])%list
                   (call_progress progress_cb st1))
        as (total' & kids' & st' & -> & Hpaths).
      exists total', kids', st'. split; [reflexivity|].
      rewrite Hpaths. cbn [filter]. rewrite Hk. cbn [map].
      rewrite map_app. cbn [map]. rewrite Hp, <- app_assoc. reflexivity.
    + destruct (IH total kids (call_progress progress_cb st1))
        as (total' & kids' & st' & -> & Hpaths).
      exists total', kids', st'. split; [reflexivity|].
      rewrite Hpaths. cbn [filter]. rewrite Ho. reflexivity.
Qed.

End Stack.

(** The worker's [progress], while the event is unset and the scan current,
    makes one query and counts one. *)
Lemma progress_counts (st : state) :
  call_progress (Some (progress stop_flag true)) st
  = mkSt (S (reads st)) (S (scan_count st)).
Proof.
  unfold call_progress, progress, is_set. rewrite never_set. reflexivity.
Qed.

Local Abbreviation scanp :=
  (_scan basename stop_flag exclude (Some (progress stop_flag true))).

Definition counts (e : entry) : Prop :=
  forall is_root st r st',
    scanp e is_root st = (r, st') ->
    scan_count st' = (scan_count st + walked is_root e)%nat.

Lemma scan_entries_counts (fail : option exn) (es : list entry) :
  Forall counts es ->
  forall total kids st r st',
    scan_entries stop_flag (Some (progress stop_flag true))
                 (fun c st => scanp c false st) fail es total kids st
    = (r, st') ->
    scan_count st'
    = (scan_count st + list_sum (map (fun c => S (walked false c)) es))%nat.
Proof.
  induction 1 as [|c es Hc _ IH]; intros total kids st r st' Hrun.
  - cbn [scan_entries] in Hrun. unfold list_sum. cbn [map fold_right].
    destruct fail; injection Hrun as _ <-; lia.
  - cbn [scan_entries] in Hrun. unfold is_set in Hrun.
    rewrite never_set in Hrun.
    destruct (scanp c false (mkSt (S (reads st)) (scan_count st)))
      as [rc st1] eqn:Ec.
    pose proof (Hc _ _ _ _ Ec) as Hcount. cbn [scan_count] in Hcount.
    pose proof (@scan_is_sound basename stop_flag exclude
                  (Some (progress stop_flag true)) c _ _ _ _ Ec) as Hs.
    destruct rc as [[child|]|ex].
    + apply IH in Hrun. rewrite progress_counts in Hrun.
      cbn [scan_count] in Hrun.
      unfold list_sum in *. cbn [map fold_right]. lia.
    + apply IH in Hrun. rewrite progress_counts in Hrun.
      cbn [scan_count] in Hrun.
      unfold list_sum in *. cbn [map fold_right]. lia.
    + destruct Hs as [_ Hs]. cbn [reads] in Hs. rewrite never_set in Hs.
      discriminate.
Qed.

Lemma scan_counts (e : entry) : counts e.
Proof.
  induction e as [p n d l k es f IH] using entry_tree_ind.
  intros is_root st r st' Hrun. cbn [_scan] in Hrun.
  unfold is_set in Hrun. rewrite never_set in Hrun. cbn [walked].
  destruct (excluded exclude is_root p d (name_of basename p)).
  { injection Hrun as _ <-. cbn [scan_count]. lia. }
  destruct l as [st_size|].
  2:{ injection Hrun as _ <-. cbn [scan_count]. lia. }
  destruct k.
  { injection Hrun as _ <-. cbn [scan_count]. lia. }
  destruct d.
  2:{ injection Hrun as _ <-. cbn [scan_count]. lia. }
  destruct (scan_entries stop_flag (Some (progress stop_flag true))
                         (fun c st => scanp c false st) f es 0 []
                         (mkSt (S (reads st)) (scan_count st)))
    as [rl st1] eqn:El.
  pose proof (@scan_entries_counts f es IH _ _ _ _ _ El) as Hl.
  cbn [scan_count] in Hl.
  destruct rl as [[total kids]|ex].
  - injection Hrun as _ <-. exact Hl.
  - destruct ex; injection Hrun as _ <-; exact Hl.
Qed.

End Walk.

(** What a call does when the stack is full, in the examples: it raises
    [RecursionError]. *)
Definition stack_full : entry -> bool -> state -> result (option Node) * state :=
  fun _ _ st => (Raise RuntimeError, st).

(** X4.  When the event is never set, the stack has room for the call of
    a directory and for the calls of its entries, and the directory is
    listed without failure, its node carries the directory's own name and
    has one child per entry that the exclusion lets through, in the order of
    the listing, each at its entry's path; excluded entries leave no node.
    This holds whatever happens further down, where the stack may be
    full. *)
Theorem scan_children_follow_listing
        (basename : string -> string) (stop_flag : nat -> bool)
        (exclude : option (string -> bool -> string -> bool))
        (progress_cb : option (state -> state))
        (beyond : entry -> bool -> state -> result (option Node) * state)
        (frames : nat)
        (e : entry) (is_root : bool) (st : state) (st_size : Z) :
  (forall k, stop_flag k = false) ->
  (2 <= frames)%nat ->
  e_isdir e = true -> e_lstat e = Some st_size -> e_islink e = false ->
  e_fail e = None ->
  excluded exclude is_root (e_path e) true (name_of basename (e_path e))
  = false ->
  exists n st',
    _scan_within basename stop_flag exclude progress_cb beyond
                 frames e is_root st
    = (Ok (Some n), st') /\
    path n = e_path e /\ name n = name_of basename (e_path e) /\
    is_dir n = true /\
    map path (children n)
    = map e_path (filter (kept basename exclude) (e_entries e)).
Proof.
  intros Hnever Hframes. destruct e as [p nm d l k es f].
  cbn [e_isdir e_lstat e_islink e_fail e_path e_entries].
  intros -> -> -> -> Hex.
  destruct frames as [|frames1]; [lia|].
  cbn [_scan_within]. unfold is_set.
  rewrite Hnever, Hex.
  destruct frames1 as [|frames]; [lia|].
  destruct (@scan_entries_kept basename stop_flag exclude Hnever progress_cb
              beyond frames es 0 [] (mkSt (S (reads st)) (scan_count st)))
    as (total' & kids' & st' & -> & Hpaths).
  exists (mkNode p (name_of basename p) total' true kids'), st'.
  split; [reflexivity|]. split; [reflexivity|]. split; [reflexivity|].
  split; [reflexivity|]. exact Hpaths.
Qed.

(** [/r] with room for two nested calls: the call for [/r/d/g] finds the
    stack full, [/r/d] is tagged, and [/r] still has its two children. *)
Lemma scan_children_follow_listing_witness :
  exists n st',
    _scan_within Posix.basename never None None stack_full
                 2 dir_r true (mkSt 0 0)
    = (Ok (Some n), st') /\
    path n = "/r" /\ name n = "r" /\ is_dir n = true /\
    map path (children n) = ["/r/f"; "/r/d"] /\
    map name (children n) = ["f"; "d [error]"].
Proof.
  destruct (@scan_children_follow_listing
              Posix.basename never None None stack_full
              2 dir_r true (mkSt 0 0) 4096)
    as (n & st' & Hrun & Hp & Hn & Hd & Hc);
    [intros k; reflexivity | lia | reflexivity | reflexivity | reflexivity
    | reflexivity | reflexivity | ].
  exists n, st'. split; [exact Hrun|]. split; [exact Hp|].
  split; [exact Hn|]. split; [exact Hd|]. split; [exact Hc|].
  vm_compute in Hrun. injection Hrun as <- _. reflexivity.
Defined.

(** X5.  When the event is never set, the scan stays current and the walk
    fits the interpreter's stack, the worker's progress callback is run once
    for every entry that the walk enumerates: [scan_count] ends as the
    number of entries listed in the directories that were scanned, whether a
    listing failed at its end or not. *)
Theorem scan_count_is_entries_walked
        (basename : string -> string) (stop_flag : nat -> bool)
        (exclude : option (string -> bool -> string -> bool))
        (beyond : entry -> bool -> state -> result (option Node) * state)
        (frames : nat)
        (root : entry) (r : result Node) (st' : state) :
  (forall k, stop_flag k = false) ->
  (nesting basename exclude true root <= frames)%nat ->
  scan_directory_within basename stop_flag exclude
                        (Some (progress stop_flag true)) beyond frames
                        root (mkSt 0 0)
  = (r, st') ->
  scan_count st' = walked basename exclude true root.
Proof.
  intros Hnever Hfit. unfold scan_directory_within.
  rewrite (@scan_within_full basename stop_flag exclude
             (Some (progress stop_flag true)) beyond root frames true
             (mkSt 0 0) Hfit).
  destruct (_scan basename stop_flag exclude
                  (Some (progress stop_flag true)) root true (mkSt 0 0))
    as [r0 st0] eqn:E.
  pose proof (@scan_counts basename stop_flag exclude Hnever root
                _ _ _ _ E) as Hc.
  cbn [scan_count] in Hc.
  destruct r0 as [[n|]|ex]; intros [= _ <-]; exact Hc.
Qed.

Lemma scan_count_is_entries_walked_witness :
  scan_count
    (snd (scan_directory_within Posix.basename never None
                                (Some (progress never true)) stack_full 3
                                dir_r (mkSt 0 0)))
  = 3%nat.
Proof.
  apply (@scan_count_is_entries_walked
           Posix.basename never None stack_full 3 dir_r
           (fst (scan_directory_within Posix.basename never None
                                       (Some (progress never true))
                                       stack_full 3 dir_r (mkSt 0 0)))).
  - intros k. reflexivity.
  - vm_compute. lia.
  - reflexivity.
Defined.

(** With room for two nested calls only, the walk of [/r] stops short and
    counts the two entries of [/r] alone. *)
Example scan_count_short_of_stack :
  scan_count
    (snd (scan_directory_within Posix.basename never None
                                (Some (progress never true)) stack_full 2
                                dir_r (mkSt 0 0)))
  = 2%nat /\
  walked Posix.basename None true dir_r = 3%nat.
Proof. split; reflexivity. Qed.

End Scan.

(** ** Treemap math (squarify) *)

Module Treemap.

Open Scope Q_scope.
Local Open Scope result_scope.

(** [Rect = Tuple[float, float, float, float]  # (x, y, w, h)] *)
Record Rect : Type := mkRect { rx : Q; ry : Q; rw : Q; rh : Q }.

(** A float that may be [float("inf")]. *)
Inductive efloat : Type :=
| Fin (q : Q)
| Inf.

(** [a <= b] on floats with infinity. *)
Definition efloat_leb (a b : efloat) : bool :=
  match a, b with
  | _, Inf => true
  | Inf, Fin _ => false
  | Fin x, Fin y => Qle_bool x y
  end.

(** Float division: raises [ZeroDivisionError] on a zero divisor. *)
Definition fdiv (a b : Q) : result Q :=
  if Qeq_bool b 0 then Raise ZeroDivisionError else Ok (a / b).

(** [a**2] *)
Definition sq (a : Q) : Q := a * a.

(** Python's [sum]: left to right from 0. *)
Definition sum (row : list Q) : Q := fold_left Qplus row 0.

(** Python's two-argument [max]/[min]: the first argument is kept unless the
    second is strictly larger (smaller). *)
Definition max2 (a b : Q) : Q := if Qlt_le_dec a b then b else a.
Definition min2 (a b : Q) : Q := if Qlt_le_dec b a then b else a.

(** [max(row)] and [min(row)] of a non-empty list, given as head and tail. *)
Definition max_list (x : Q) (row : list Q) : Q := fold_left max2 row x.
Definition min_list (x : Q) (row : list Q) : Q := fold_left min2 row x.

(** [[
def worst_aspect_ratio(row, short_side):
    if not row or short_side <= 0:
        return float("inf")
    s = sum(row)
    mx = max(row)
    mn = min(row)
    return max((short_side**2) * mx / (s**2), (s**2) / (short_side**2 * mn))
]] *)
Definition worst_aspect_ratio (row : list Q) (short_side : Q) : result efloat :=
  match row with
  | [] => Ok Inf
  | x :: tl =>
      if Qle_bool short_side 0 then Ok Inf
      else
        let s := sum row in
        let mx := max_list x tl in
        let mn := min_list x tl in
        a <- fdiv (sq short_side * mx) (sq s) ;;
        b <- fdiv (sq s) (sq short_side * mn) ;;
        Ok (Fin (max2 a b))
  end.

(** [[
def layout_row(row, rect, horizontal):
    x, y, w, h = rect
    out = []
    s = sum(row)
    if s <= 0 or w <= 0 or h <= 0:
        return out
    if horizontal:
        row_h = s / w
        cx = x
        for v in row:
            rw = v / row_h
            out.append((cx, y, rw, row_h))
            cx += rw
    else:
        col_w = s / h
        cy = y
        for v in row:
            rh = v / col_w
            out.append((x, cy, col_w, rh))
            cy += rh
    return out
]] *)
Fixpoint layout_h (row : list Q) (cx y row_h : Q) (out : list Rect)
  : result (list Rect) :=
  match row with
  | [] => Ok out
  | v :: tl =>
      w' <- fdiv v row_h ;;
      layout_h tl (cx + w') y row_h (out ++ [mkRect cx y w' row_h])
  end.

Fixpoint layout_v (row : list Q) (x cy col_w : Q) (out : list Rect)
  : result (list Rect) :=
  match row with
  | [] => Ok out
  | v :: tl =>
      h' <- fdiv v col_w ;;
      layout_v tl x (cy + h') col_w (out ++ [mkRect x cy col_w h'])
  end.

Definition layout_row (row : list Q) (rect : Rect) (horizontal : bool)
  : result (list Rect) :=
  let '(mkRect x y w h) := rect in
  let s := sum row in
  if Qle_bool s 0 || Qle_bool w 0 || Qle_bool h 0 then Ok []
  else if horizontal then
    row_h <- fdiv s w ;;
    layout_h row x y row_h []
  else
    col_w <- fdiv s h ;;
    layout_v row x y col_w [].

(** [[
def leftover_rect(rect, row, horizontal):
    x, y, w, h = rect
    s = sum(row)
    if s <= 0 or w <= 0 or h <= 0:
        return rect
    if horizontal:
        row_h = s / w
        return (x, y + row_h, w, h - row_h)  # carve from TOP
    else:
        col_w = s / h
        return (x + col_w, y, w - col_w, h)  # carve from LEFT
]] *)
Definition leftover_rect (rect : Rect) (row : list Q) (horizontal : bool)
  : result Rect :=
  let '(mkRect x y w h) := rect in
  let s := sum row in
  if Qle_bool s 0 || Qle_bool w 0 || Qle_bool h 0 then Ok rect
  else if horizontal then
    row_h <- fdiv s w ;;
    Ok (mkRect x (y + row_h) w (h - row_h))
  else
    col_w <- fdiv s h ;;
    Ok (mkRect (x + col_w) y (w - col_w) h).

(** State of the [while vals:] loop of [squarify]. *)
Record loop_state : Type := mkState {
  st_vals : list Q;
  st_row : list Q;
  st_r : Rect;
  st_out : list Rect
}.

(** [horizontal = (rw >= rh)] *)
Definition is_horizontal (r : Rect) : bool := Qle_bool (rh r) (rw r).

(** The test of the loop body:
    [not row or worst_aspect_ratio(row + [v], short) <= worst_aspect_ratio(row, short)]. *)
Definition accepts (row : list Q) (v short : Q) : result bool :=
  match row with
  | [] => Ok true
  | _ =>
      w_with <- worst_aspect_ratio (row ++ [v]) short ;;
      w_without <- worst_aspect_ratio row short ;;
      Ok (efloat_leb w_with w_without)
  end.

(** One iteration of the loop body, for [vals = v :: rest]. *)
Definition squarify_step (v : Q) (rest : list Q) (row : list Q) (r : Rect)
           (out : list Rect) : result loop_state :=
  let short := min2 (rw r) (rh r) in
  acc <- accepts row v short ;;
  if acc : bool then
    Ok (mkState rest (row ++ [v]) r out)
  else
    let horizontal := is_horizontal r in
    rects <- layout_row row r horizontal ;;
    r' <- leftover_rect r row horizontal ;;
    Ok (mkState (v :: rest) [] r' (out ++ rects)).

(** The loop; [None] when the iteration budget is used up before [vals] is
    empty. *)
Fixpoint squarify_loop (fuel : nat) (st : loop_state)
  : option (result loop_state) :=
  match st_vals st with
  | [] => Some (Ok st)
  | v :: rest =>
      match fuel with
      | O => None
      | S fuel' =>
          match squarify_step v rest (st_row st) (st_r st) (st_out st) with
          | Ok st' => squarify_loop fuel' st'
          | Raise e => Some (Raise e)
          end
      end
  end.

(** [[
def squarify(values, rect):
    x, y, w, h = rect
    if w <= 1 or h <= 1:
        return []
    vals = [v for v in values if v > 0]
    if not vals:
        return []
    total = sum(vals)
    area = w * h
    scale = area / total if total > 0 else 0.0
    vals = [v * scale for v in vals]
    r = (x, y, w, h); row = []; out = []
    while vals: ...
    if row:
        rx, ry, rw, rh = r
        horizontal = (rw >= rh)
        out.extend(layout_row(row, r, horizontal))
    return out
]]
    Every iteration of the loop either pops a value or empties a non-empty
    row, so [2 * len(vals)] iterations are enough; [squarify_terminates]
    below proves that the budget is never exhausted. *)
Definition positive (v : Q) : bool := negb (Qle_bool v 0).

Definition squarify (values : list Q) (rect : Rect)
  : option (result (list Rect)) :=
  let '(mkRect x y w h) := rect in
  if Qle_bool w 1 || Qle_bool h 1 then Some (Ok [])
  else
    let vals := filter positive values in
    match vals with
    | [] => Some (Ok [])
    | _ =>
        let total := sum vals in
        let area := w * h in
        match (if positive total then fdiv area total else Ok 0) with
        | Raise e => Some (Raise e)
        | Ok scale =>
            let vals := map (fun v => v * scale) vals in
            match squarify_loop (2 * List.length vals)
                    (mkState vals [] (mkRect x y w h) []) with
            | None => None
            | Some (Raise e) => Some (Raise e)
            | Some (Ok st) =>
                match st_row st with
                | [] => Some (Ok (st_out st))
                | _ =>
                    match layout_row (st_row st) (st_r st)
                            (is_horizontal (st_r st)) with
                    | Raise e => Some (Raise e)
                    | Ok rects => Some (Ok (st_out st ++ rects))
                    end
                end
            end
        end
    end.


(** *** Arithmetic of the layout *)

Definition area (r : Rect) : Q := rw r * rh r.

Definition all_pos (l : list Q) : Prop := Forall (fun v => 0 < v) l.

(** [inner] lies within [outer], edges included. *)
Definition inside (outer inner : Rect) : Prop :=
  rx outer <= rx inner /\ ry outer <= ry inner /\
  rx inner + rw inner <= rx outer + rw outer /\
  ry inner + rh inner <= ry outer + rh outer /\
  0 <= rw inner /\ 0 <= rh inner.

Lemma fdiv_ok (a b : Q) : ~ b == 0 -> fdiv a b = Ok (a / b).
Proof.
  intros Hb. unfold fdiv.
  destruct (Qeq_bool b 0) eqn:E; [|reflexivity].
  apply Qeq_bool_eq in E. contradiction.
Qed.

Lemma fold_plus_shift (l : list Q) (a : Q) :
  fold_left Qplus l a == a + fold_left Qplus l 0.
Proof.
  revert a. induction l as [|x l IH]; intros a; simpl.
  - lra.
  - rewrite (IH (a + x)), (IH (0 + x)). lra.
Qed.

Lemma sum_nil : sum [] == 0.
Proof. unfold sum; simpl; lra. Qed.

Lemma sum_cons (x : Q) (l : list Q) : sum (x :: l) == x + sum l.
Proof. unfold sum; simpl. rewrite fold_plus_shift. lra. Qed.

Lemma sum_app (l1 l2 : list Q) : sum (l1 ++ l2) == sum l1 + sum l2.
Proof.
  induction l1 as [|x l1 IH]; simpl.
  - rewrite sum_nil. lra.
  - rewrite !sum_cons, IH. lra.
Qed.

Lemma sum_nonneg (l : list Q) : all_pos l -> 0 <= sum l.
Proof.
  induction 1 as [|x l Hx _ IH].
  - rewrite sum_nil; lra.
  - rewrite sum_cons; lra.
Qed.

Lemma sum_pos (l : list Q) : all_pos l -> l <> [] -> 0 < sum l.
Proof.
  intros H Hne. destruct H as [|x l Hx Hl]; [congruence|].
  rewrite sum_cons. pose proof (sum_nonneg Hl). lra.
Qed.

Lemma max2_cases (a b : Q) : max2 a b = a \/ max2 a b = b.
Proof. unfold max2; destruct (Qlt_le_dec a b); auto. Qed.

Lemma min2_cases (a b : Q) : min2 a b = a \/ min2 a b = b.
Proof. unfold min2; destruct (Qlt_le_dec b a); auto. Qed.

Lemma max2_ge (a b : Q) : a <= max2 a b /\ b <= max2 a b.
Proof. unfold max2; destruct (Qlt_le_dec a b); split; lra. Qed.

Lemma min2_le (a b : Q) : min2 a b <= a /\ min2 a b <= b.
Proof. unfold min2; destruct (Qlt_le_dec b a); split; lra. Qed.

Lemma max_list_in (x : Q) (l : list Q) : In (max_list x l) (x :: l).
Proof.
  unfold max_list. revert x. induction l as [|y l IH]; intros x; simpl.
  - auto.
  - destruct (IH (max2 x y)) as [H|H].
    + rewrite <- H. destruct (max2_cases x y) as [E|E]; rewrite E; auto.
    + right; right; exact H.
Qed.

Lemma min_list_in (x : Q) (l : list Q) : In (min_list x l) (x :: l).
Proof.
  unfold min_list. revert x. induction l as [|y l IH]; intros x; simpl.
  - auto.
  - destruct (IH (min2 x y)) as [H|H].
    + rewrite <- H. destruct (min2_cases x y) as [E|E]; rewrite E; auto.
    + right; right; exact H.
Qed.

Lemma max_list_ge (x : Q) (l : list Q) :
  forall y, In y (x :: l) -> y <= max_list x l.
Proof.
  unfold max_list. revert x. induction l as [|z l IH]; intros x y Hy; simpl.
  - destruct Hy as [<-|[]]. lra.
  - pose proof (max2_ge x z) as [Hx Hz].
    assert (Hm : max2 x z <= fold_left max2 l (max2 x z))
      by (apply IH; left; reflexivity).
    destruct Hy as [<-|[<-|Hy]]; [lra|lra|].
    apply IH. right. exact Hy.
Qed.

Lemma min_list_le (x : Q) (l : list Q) :
  forall y, In y (x :: l) -> min_list x l <= y.
Proof.
  unfold min_list. revert x. induction l as [|z l IH]; intros x y Hy; simpl.
  - destruct Hy as [<-|[]]. lra.
  - pose proof (min2_le x z) as [Hx Hz].
    assert (Hm : fold_left min2 l (min2 x z) <= min2 x z)
      by (apply IH; left; reflexivity).
    destruct Hy as [<-|[<-|Hy]]; [lra|lra|].
    apply IH. right. exact Hy.
Qed.

Lemma all_pos_in (l : list Q) (y : Q) : all_pos l -> In y l -> 0 < y.
Proof. intros H Hy. unfold all_pos in H. rewrite Forall_forall in H. auto. Qed.

Lemma sq_pos (a : Q) : 0 < a -> 0 < sq a.
Proof. intros Ha. unfold sq. nra. Qed.

(** The two arguments of the final [max] of [worst_aspect_ratio], for a
    non-empty row of positive values and a positive short side: no division
    fails, and the larger one is at least 1. *)
Lemma worst_aspect_ratio_pos (x : Q) (tl : list Q) (s : Q) :
  all_pos (x :: tl) -> 0 < s ->
  exists q,
    worst_aspect_ratio (x :: tl) s = Ok (Fin q) /\ 1 <= q /\
    q = max2 (sq s * max_list x tl / sq (sum (x :: tl)))
             (sq (sum (x :: tl)) / (sq s * min_list x tl)).
Proof.
  intros Hpos Hs.
  assert (HS : 0 < sum (x :: tl)) by (apply sum_pos; [assumption|discriminate]).
  assert (Hmx : 0 < max_list x tl)
    by (apply (@all_pos_in (x :: tl)); [exact Hpos | apply max_list_in]).
  assert (Hmn : 0 < min_list x tl)
    by (apply (@all_pos_in (x :: tl)); [exact Hpos | apply min_list_in]).
  assert (Hle : min_list x tl <= max_list x tl).
  { apply Qle_trans with x.
    - apply min_list_le; left; reflexivity.
    - apply max_list_ge; left; reflexivity. }
  pose proof (sq_pos Hs) as Hs2. pose proof (sq_pos HS) as HS2.
  set (P := sq s * max_list x tl). set (E := sq s * min_list x tl).
  set (D := sq (sum (x :: tl))).
  assert (HP : 0 < P) by (unfold P; nra).
  assert (HE : 0 < E) by (unfold E; nra).
  assert (HEP : E <= P) by (unfold E, P; nra).
  exists (max2 (P / D) (D / E)). split; [|split; [|reflexivity]].
  - unfold worst_aspect_ratio.
    destruct (Qle_bool s 0) eqn:Es.
    + apply Qle_bool_iff in Es. lra.
    + fold P E D. rewrite (@fdiv_ok P D), (@fdiv_ok D E); simpl.
      * reflexivity.
      * intro H0. lra.
      * intro H0. fold D in HS2. lra.
  - fold D in HS2. pose proof (max2_ge (P / D) (D / E)) as [Ha Hb].
    destruct (Qlt_le_dec P D) as [Hlt|Hge].
    + apply Qle_trans with (D / E); [|assumption].
      apply Qle_shift_div_l; lra.
    + apply Qle_trans with (P / D); [|assumption].
      apply Qle_shift_div_l; lra.
Qed.



(** *** Laying out one row *)

Lemma div_pos (a b : Q) : 0 < a -> 0 < b -> 0 < a / b.
Proof. intros Ha Hb. apply Qlt_shift_div_l; lra. Qed.

Lemma div_mul_cancel (a b : Q) : 0 < b -> a / b * b == a.
Proof. intros Hb. field. lra. Qed.

Lemma div_div_cancel (s w : Q) : 0 < s -> 0 < w -> s / (s / w) == w.
Proof. intros Hs Hw. field. split; lra. Qed.

Lemma div_plus (a b c : Q) : 0 < c -> a / c + b / c == (a + b) / c.
Proof. intros Hc. field. lra. Qed.

Lemma layout_h_spec (row : list Q) :
  forall cx y row_h out,
    0 < row_h -> all_pos row ->
    exists rects,
      layout_h row cx y row_h out = Ok (out ++ rects) /\
      Forall2 (fun v rc => area rc == v) row rects /\
      Forall (fun rc => cx <= rx rc /\
                        rx rc + rw rc <= cx + sum row / row_h /\
                        ry rc = y /\ rh rc = row_h /\ 0 <= rw rc) rects.
Proof.
  induction row as [|v tl IH]; intros cx y row_h out Hh Hpos.
  - exists []. simpl. rewrite app_nil_r. repeat split; constructor.
  - inversion Hpos as [|? ? Hv Htl]; subst.
    pose proof (div_pos Hv Hh) as Hq.
    destruct (IH (cx + v / row_h) y row_h
                 (out ++ [mkRect cx y (v / row_h) row_h]) Hh Htl)
      as (rects & Hrun & Hareas & Hin).
    exists (mkRect cx y (v / row_h) row_h :: rects).
    split; [|split].
    + simpl. rewrite fdiv_ok by lra. simpl.
      rewrite Hrun, <- app_assoc. reflexivity.
    + constructor; [|exact Hareas]. unfold area; simpl.
      apply div_mul_cancel; assumption.
    + assert (Hsplit : cx + v / row_h + sum tl / row_h
                       == cx + sum (v :: tl) / row_h).
      { rewrite sum_cons, <- div_plus by assumption. lra. }
      assert (Htl0 : 0 <= sum tl / row_h).
      { apply Qle_shift_div_l; [assumption|].
        pose proof (sum_nonneg Htl). lra. }
      constructor.
      * simpl. repeat split; lra.
      * eapply Forall_impl; [|exact Hin].
        intros rc (H1 & H2 & H3 & H4 & H5). repeat split; try assumption; lra.
Qed.

Lemma layout_v_spec (row : list Q) :
  forall x cy col_w out,
    0 < col_w -> all_pos row ->
    exists rects,
      layout_v row x cy col_w out = Ok (out ++ rects) /\
      Forall2 (fun v rc => area rc == v) row rects /\
      Forall (fun rc => cy <= ry rc /\
                        ry rc + rh rc <= cy + sum row / col_w /\
                        rx rc = x /\ rw rc = col_w /\ 0 <= rh rc) rects.
Proof.
  induction row as [|v tl IH]; intros x cy col_w out Hw Hpos.
  - exists []. simpl. rewrite app_nil_r. repeat split; constructor.
  - inversion Hpos as [|? ? Hv Htl]; subst.
    pose proof (div_pos Hv Hw) as Hq.
    destruct (IH x (cy + v / col_w) col_w
                 (out ++ [mkRect x cy col_w (v / col_w)]) Hw Htl)
      as (rects & Hrun & Hareas & Hin).
    exists (mkRect x cy col_w (v / col_w) :: rects).
    split; [|split].
    + simpl. rewrite fdiv_ok by lra. simpl.
      rewrite Hrun, <- app_assoc. reflexivity.
    + constructor; [|exact Hareas]. unfold area; simpl.
      rewrite Qmult_comm. apply div_mul_cancel; assumption.
    + assert (Hsplit : cy + v / col_w + sum tl / col_w
                       == cy + sum (v :: tl) / col_w).
      { rewrite sum_cons, <- div_plus by assumption. lra. }
      assert (Htl0 : 0 <= sum tl / col_w).
      { apply Qle_shift_div_l; [assumption|].
        pose proof (sum_nonneg Htl). lra. }
      constructor.
      * simpl. repeat split; lra.
      * eapply Forall_impl; [|exact Hin].
        intros rc (H1 & H2 & H3 & H4 & H5). repeat split; try assumption; lra.
Qed.

Lemma guard_false (s w h : Q) :
  0 < s -> 0 < w -> 0 < h ->
  Qle_bool s 0 || Qle_bool w 0 || Qle_bool h 0 = false.
Proof.
  intros Hs Hw Hh.
  destruct (Qle_bool s 0) eqn:E1; [apply Qle_bool_iff in E1; lra|].
  destruct (Qle_bool w 0) eqn:E2; [apply Qle_bool_iff in E2; lra|].
  destruct (Qle_bool h 0) eqn:E3; [apply Qle_bool_iff in E3; lra|].
  reflexivity.
Qed.

(** A non-empty positive row that fits the rectangle is laid out without
    error, one rectangle per value, each of the value's area and within the
    rectangle. *)
Lemma layout_row_spec (row : list Q) (r : Rect) (hz : bool) :
  all_pos row -> row <> [] -> 0 < rw r -> 0 < rh r -> sum row <= area r ->
  exists rects,
    layout_row row r hz = Ok rects /\
    Forall2 (fun v rc => area rc == v) row rects /\
    Forall (inside r) rects.
Proof.
  intros Hpos Hne Hw Hh Hfit. destruct r as [x y w h]; simpl in *.
  unfold area in Hfit; simpl in Hfit.
  pose proof (sum_pos Hpos Hne) as Hs.
  unfold layout_row. rewrite guard_false by assumption.
  destruct hz.
  - rewrite fdiv_ok by lra. simpl.
    pose proof (div_pos Hs Hw) as Hrh.
    destruct (layout_h_spec x y nil Hrh Hpos) as (rects & Hrun & Hareas & Hin).
    exists rects. split; [exact Hrun|split; [exact Hareas|]].
    assert (Hle : sum row / w <= h) by (apply Qle_shift_div_r; lra).
    pose proof (div_div_cancel Hs Hw) as Hc.
    eapply Forall_impl; [|exact Hin].
    intros rc (H1 & H2 & H3 & H4 & H5). unfold inside; simpl.
    rewrite H3, H4. repeat split; lra.
  - rewrite fdiv_ok by lra. simpl.
    pose proof (div_pos Hs Hh) as Hrw.
    destruct (layout_v_spec x y nil Hrw Hpos) as (rects & Hrun & Hareas & Hin).
    exists rects. split; [exact Hrun|split; [exact Hareas|]].
    assert (Hle : sum row / h <= w) by (apply Qle_shift_div_r; lra).
    pose proof (div_div_cancel Hs Hh) as Hc.
    eapply Forall_impl; [|exact Hin].
    intros rc (H1 & H2 & H3 & H4 & H5). unfold inside; simpl.
    rewrite H3, H4. repeat split; lra.
Qed.

(** What is left after the row is carved off stays within the rectangle and
    has the rectangle's area less the row's. *)
Lemma leftover_rect_spec (row : list Q) (r : Rect) (hz : bool) :
  all_pos row -> row <> [] -> 0 < rw r -> 0 < rh r -> sum row <= area r ->
  exists r',
    leftover_rect r row hz = Ok r' /\
    inside r r' /\ area r' == area r - sum row.
Proof.
  intros Hpos Hne Hw Hh Hfit. destruct r as [x y w h]; simpl in *.
  unfold area in Hfit; simpl in Hfit.
  pose proof (sum_pos Hpos Hne) as Hs.
  unfold leftover_rect. rewrite guard_false by assumption.
  destruct hz.
  - rewrite fdiv_ok by lra. simpl.
    assert (Hle : sum row / w <= h) by (apply Qle_shift_div_r; lra).
    pose proof (div_pos Hs Hw) as Hrh.
    eexists; split; [reflexivity|]. unfold inside, area; simpl.
    split; [repeat split; lra|]. field. lra.
  - rewrite fdiv_ok by lra. simpl.
    assert (Hle : sum row / h <= w) by (apply Qle_shift_div_r; lra).
    pose proof (div_pos Hs Hh) as Hrw.
    eexists; split; [reflexivity|]. unfold inside, area; simpl.
    split; [repeat split; lra|]. field. lra.
Qed.

Lemma inside_refl (r : Rect) : 0 <= rw r -> 0 <= rh r -> inside r r.
Proof. intros; unfold inside; repeat split; lra. Qed.

Lemma inside_trans (a b c : Rect) : inside a b -> inside b c -> inside a c.
Proof. unfold inside; intros; repeat split; lra. Qed.

Lemma pos_factors (a b : Q) : 0 <= a -> 0 <= b -> 0 < a * b -> 0 < a /\ 0 < b.
Proof.
  intros Ha Hb Hab. split.
  - destruct (Qlt_le_dec 0 a); [assumption|].
    assert (a == 0) as E by lra. rewrite E in Hab. lra.
  - destruct (Qlt_le_dec 0 b); [assumption|].
    assert (b == 0) as E by lra. rewrite E in Hab. lra.
Qed.

(** *** The loop of [squarify] *)

Lemma accepts_total (row : list Q) (v short : Q) :
  all_pos row -> 0 < v -> 0 < short -> exists b, accepts row v short = Ok b.
Proof.
  intros Hrow Hv Hs. destruct row as [|x tl]; [exists true; reflexivity|].
  assert (Hw : all_pos (x :: tl ++ [v])).
  { change (all_pos ((x :: tl) ++ [v])). apply Forall_app; split; [exact Hrow|].
    constructor; [assumption|constructor]. }
  destruct (worst_aspect_ratio_pos Hw Hs) as (q1 & E1 & _).
  destruct (worst_aspect_ratio_pos Hrow Hs) as (q2 & E2 & _).
  unfold accepts. change ((x :: tl) ++ [v]) with (x :: tl ++ [v]).
  rewrite E1, E2. simpl. eexists; reflexivity.
Qed.

Lemma accepts_nil (v short : Q) : accepts [] v short = Ok true.
Proof. reflexivity. Qed.

Section Loop.

(** The rectangle given to [squarify] and the scaled values. *)
Variable R : Rect.
Variable V : list Q.

(** Invariant of the loop: what is still to be placed (the current row and
    the pending values) has exactly the area of the remaining rectangle, which
    lies within [R]; the rectangles emitted so far are those of the values
    already closed out, in order, each of its value's area and within [R]. *)
Definition Inv (st : loop_state) : Prop :=
  all_pos (st_vals st) /\ all_pos (st_row st) /\
  inside R (st_r st) /\
  area (st_r st) == sum (st_row st) + sum (st_vals st) /\
  exists done,
    V = done ++ st_row st ++ st_vals st /\
    Forall2 (fun v rc => area rc == v) done (st_out st) /\
    Forall (inside R) (st_out st).

(** Each iteration decreases this measure. *)
Definition measure (st : loop_state) : nat :=
  (2 * List.length (st_vals st)
   + match st_row st with [] => 0 | _ => 1 end)%nat.

Lemma squarify_step_spec (v : Q) (rest row : list Q) (r : Rect)
      (out : list Rect) :
  Inv (mkState (v :: rest) row r out) ->
  exists st',
    squarify_step v rest row r out = Ok st' /\ Inv st' /\
    (measure st' < measure (mkState (v :: rest) row r out))%nat.
Proof.
  intros (Hvals & Hrow & Hin & Harea & done & HV & Hdone & Hout).
  simpl in *.
  inversion Hvals as [|? ? Hv Hrest]; subst.
  pose proof (sum_nonneg Hrow) as Hrow0.
  pose proof (sum_nonneg Hrest) as Hrest0.
  assert (Hsv : sum (v :: rest) == v + sum rest) by apply sum_cons.
  destruct Hin as (I1 & I2 & I3 & I4 & I5 & I6).
  assert (Hpos : 0 < rw r * rh r) by (unfold area in Harea; lra).
  destruct (pos_factors I5 I6 Hpos) as [Hw Hh].
  assert (Hshort : 0 < min2 (rw r) (rh r))
    by (destruct (min2_cases (rw r) (rh r)) as [E|E]; rewrite E; assumption).
  unfold squarify_step.
  destruct (accepts_total Hrow Hv Hshort) as [b Hb]. rewrite Hb. simpl.
  destruct b.
  - eexists; split; [reflexivity|split].
    + unfold Inv; simpl. split; [assumption|]. split.
      { apply Forall_app; split; [assumption|].
        constructor; [assumption|constructor]. }
      split; [unfold inside; auto 10|]. split.
      { rewrite sum_app, sum_cons, sum_nil. lra. }
      exists done. rewrite <- app_assoc. simpl. auto.
    + unfold measure; simpl. destruct (row ++ [v]); destruct row; simpl; lia.
  - destruct row as [|x tl]; [rewrite accepts_nil in Hb; discriminate|].
    assert (Hne : x :: tl <> []) by discriminate.
    assert (Hfit : sum (x :: tl) <= area r) by (unfold area in *; lra).
    destruct (layout_row_spec (is_horizontal r) Hrow Hne Hw Hh Hfit)
      as (rects & Hlay & Hareas & Hins).
    destruct (leftover_rect_spec (is_horizontal r) Hrow Hne Hw Hh Hfit)
      as (r' & Hleft & Hin' & Harea').
    rewrite Hlay, Hleft. simpl.
    eexists; split; [reflexivity|split].
    + assert (HRr' : inside R r').
      { eapply inside_trans; [|exact Hin']. unfold inside; auto 10. }
      unfold Inv; simpl. split; [assumption|]. split; [constructor|].
      split; [exact HRr'|]. split.
      { rewrite Harea', sum_nil. lra. }
      exists (done ++ x :: tl). rewrite <- app_assoc. split; [exact HV|]. split.
      * apply Forall2_app; assumption.
      * apply Forall_app; split; [assumption|].
        eapply Forall_impl; [|exact Hins].
        intros rc Hrc. eapply inside_trans; [|exact Hrc].
        unfold inside; auto 10.
    + unfold measure; simpl. lia.
Qed.

Lemma squarify_loop_spec (fuel : nat) :
  forall st,
    Inv st -> (measure st <= fuel)%nat ->
    exists st',
      squarify_loop fuel st = Some (Ok st') /\ Inv st' /\ st_vals st' = [].
Proof.
  induction fuel as [|fuel IH]; intros [vals row r out] HI Hm.
  - destruct vals as [|v rest].
    + eexists; split; [reflexivity|]. split; [exact HI|reflexivity].
    + unfold measure in Hm; simpl in Hm. lia.
  - destruct vals as [|v rest].
    + eexists; split; [reflexivity|]. split; [exact HI|reflexivity].
    + destruct (squarify_step_spec HI) as (st' & Hstep & HI' & Hlt).
      simpl. rewrite Hstep. apply IH; [exact HI'|lia].
Qed.

End Loop.

(** *** [squarify] as a whole *)

Lemma positive_iff (v : Q) : positive v = true <-> 0 < v.
Proof.
  unfold positive. destruct (Qle_bool v 0) eqn:E; simpl.
  - apply Qle_bool_iff in E. split; [discriminate|lra].
  - split; [intros _|reflexivity].
    destruct (Qlt_le_dec 0 v) as [H|H]; [assumption|].
    apply Qle_bool_iff in H. congruence.
Qed.

Lemma filter_positive_all_pos (l : list Q) : all_pos (filter positive l).
Proof.
  apply Forall_forall. intros v Hv. apply filter_In in Hv.
  apply positive_iff, Hv.
Qed.

Lemma filter_positive_id (l : list Q) : all_pos l -> filter positive l = l.
Proof.
  induction 1 as [|v l Hv _ IH]; simpl; [reflexivity|].
  apply positive_iff in Hv. rewrite Hv, IH. reflexivity.
Qed.

Lemma all_pos_scale (l : list Q) (c : Q) :
  0 < c -> all_pos l -> all_pos (map (fun v => v * c) l).
Proof.
  intros Hc. induction 1 as [|v l Hv _ IH]; simpl; constructor; [nra|exact IH].
Qed.

Lemma sum_scale (l : list Q) (c : Q) :
  sum (map (fun v => v * c) l) == sum l * c.
Proof.
  induction l as [|v l IH]; simpl.
  - rewrite sum_nil. lra.
  - rewrite !sum_cons, IH. lra.
Qed.

Lemma Forall2_scaled (c : Q) (l : list Q) :
  forall out,
    Forall2 (fun v rc => area rc == v) (map (fun v => v * c) l) out ->
    Forall2 (fun v rc => area rc == v * c) l out.
Proof.
  induction l as [|v l IH]; intros out H; inversion H; subst; constructor; auto.
Qed.

Lemma sum_areas (c : Q) (l : list Q) :
  forall out,
    Forall2 (fun v rc => area rc == v * c) l out ->
    sum (map area out) == sum l * c.
Proof.
  induction l as [|v l IH]; intros out H; inversion H as [|? rc ? out' Hrc Hr]; subst; simpl.
  - rewrite sum_nil. lra.
  - rewrite !sum_cons, (IH _ Hr), Hrc. lra.
Qed.

Lemma Qle_bool_false (a b : Q) : b < a -> Qle_bool a b = false.
Proof.
  intros H. destruct (Qle_bool a b) eqn:E; [|reflexivity].
  apply Qle_bool_iff in E. lra.
Qed.

(** On a rectangle wider and taller than one unit and a weight list with at
    least one positive weight, [squarify] returns without error and within
    its iteration budget; the rectangles are those of the positive weights,
    in order, with areas scaled by [area / total], all within the
    rectangle. *)
Lemma squarify_spec (values : list Q) (rect : Rect) :
  1 < rw rect -> 1 < rh rect -> filter positive values <> [] ->
  exists out,
    squarify values rect = Some (Ok out) /\
    Forall2 (fun v rc =>
               area rc == v * (area rect / sum (filter positive values)))
            (filter positive values) out /\
    Forall (inside rect) out.
Proof.
  intros Hw Hh Hne. destruct rect as [x y w h]; simpl in *.
  unfold squarify. rewrite !Qle_bool_false by assumption. simpl.
  pose proof (filter_positive_all_pos values) as Hpos.
  set (vals := filter positive values) in *.
  destruct vals as [|v0 vs] eqn:Evals; [congruence|]. cbv iota.
  rewrite <- Evals in *. clear Evals.
  pose proof (sum_pos Hpos Hne) as Htot.
  assert (Hptot : positive (sum vals) = true) by (apply positive_iff; exact Htot).
  rewrite Hptot, fdiv_ok by lra.
  assert (Harea : 0 < w * h) by nra.
  set (scale := w * h / sum vals).
  assert (Hscale : 0 < scale) by (apply div_pos; assumption).
  set (V := map (fun v => v * scale) vals).
  set (R := mkRect x y w h).
  assert (HI : Inv R V (mkState V [] R [])).
  { unfold Inv; simpl. split; [apply all_pos_scale; assumption|].
    split; [constructor|].
    split; [apply inside_refl; simpl; lra|]. split.
    - unfold area, V; simpl. rewrite sum_nil, sum_scale. unfold scale.
      field. lra.
    - exists []. simpl. repeat split; constructor. }
  destruct (@squarify_loop_spec R V (List.length V + (List.length V + 0)) _ HI)
    as ([vals' row' r' out'] & Hloop & HI' & Hdone).
  { unfold measure; simpl. lia. }
  rewrite Hloop. simpl in *. subst vals'.
  destruct HI' as (_ & Hrow & Hin & Har & done & HV & Hdone & Hout).
  simpl in *. rewrite app_nil_r in HV.
  destruct row' as [|r0 rt].
  - exists out'. rewrite app_nil_r in HV. subst done.
    split; [reflexivity|]. split; [|exact Hout].
    apply (@Forall2_scaled scale). exact Hdone.
  - assert (Hne' : r0 :: rt <> []) by discriminate.
    pose proof (sum_pos Hrow Hne') as Hs.
    rewrite sum_nil in Har.
    destruct Hin as (I1 & I2 & I3 & I4 & I5 & I6).
    assert (Hp : 0 < rw r' * rh r') by (unfold area in Har; lra).
    destruct (pos_factors I5 I6 Hp) as [Hw' Hh'].
    assert (Hfit : sum (r0 :: rt) <= area r') by lra.
    destruct (layout_row_spec (is_horizontal r') Hrow Hne' Hw' Hh' Hfit)
      as (rects & Hlay & Hareas & Hins).
    rewrite Hlay. exists (out' ++ rects). split; [reflexivity|]. split.
    + apply (@Forall2_scaled scale).
      change (Forall2 (fun v rc => area rc == v) V (out' ++ rects)).
      rewrite HV. apply Forall2_app; assumption.
    + apply Forall_app; split; [exact Hout|].
      eapply Forall_impl; [|exact Hins].
      intros rc Hrc. eapply inside_trans; [|exact Hrc].
      unfold inside; auto 10.
Qed.

(** C6.  For every weight sequence and every rectangle, [squarify] returns
    (no error, iteration budget not exhausted) and every rectangle it
    produces lies within the input rectangle: its origin is within the input
    rectangle's extent and its far edges do not exceed the input
    rectangle's far edges. *)
Theorem squarify_within_bounds (values : list Q) (rect : Rect) :
  exists out,
    squarify values rect = Some (Ok out) /\
    Forall (fun rc =>
              rx rect <= rx rc <= rx rect + rw rect /\
              ry rect <= ry rc <= ry rect + rh rect /\
              rx rc + rw rc <= rx rect + rw rect /\
              ry rc + rh rc <= ry rect + rh rect) out.
Proof.
  destruct (Qlt_le_dec 1 (rw rect)) as [Hw|Hw];
    [destruct (Qlt_le_dec 1 (rh rect)) as [Hh|Hh]|].
  - destruct (filter positive values) as [|v0 vs] eqn:Ef.
    + exists []. split; [|constructor].
      destruct rect as [x y w h]; simpl in *. unfold squarify.
      rewrite !Qle_bool_false by assumption. simpl. rewrite Ef. reflexivity.
    + assert (Hne : filter positive values <> []) by (rewrite Ef; discriminate).
      destruct (@squarify_spec values rect Hw Hh Hne) as (out & Hrun & _ & Hin).
      exists out. split; [exact Hrun|].
      eapply Forall_impl; [|exact Hin].
      intros rc (H1 & H2 & H3 & H4 & H5 & H6). repeat split; lra.
  - exists []. split; [|constructor].
    destruct rect as [x y w h]; simpl in *. unfold squarify.
    apply Qle_bool_iff in Hh. rewrite Hh, orb_true_r. reflexivity.
  - exists []. split; [|constructor].
    destruct rect as [x y w h]; simpl in *. unfold squarify.
    apply Qle_bool_iff in Hw. rewrite Hw. reflexivity.
Qed.

(** The shares of the area in exact arithmetic: on a rectangle wider and
    taller than one unit, the i-th rectangle returned is that of the i-th
    positive weight and has its share of the area, and the areas add up to
    the area of the rectangle. *)
Lemma Forall2_nth (A B : Type) (P : A -> B -> Prop) (l : list A)
      (l' : list B) :
  Forall2 P l l' ->
  forall i b, nth_error l' i = Some b ->
              exists a, nth_error l i = Some a /\ P a b.
Proof.
  induction 1 as [|a b l l' Hab _ IH]; intros i b0 Hi.
  - destruct i; discriminate.
  - destruct i as [|i]; cbn [nth_error] in *.
    + injection Hi as <-. exists a. split; [reflexivity|exact Hab].
    + apply IH. exact Hi.
Qed.

Lemma squarify_exact_shares (values : list Q) (rect : Rect) :
  1 < rw rect -> 1 < rh rect -> filter positive values <> [] ->
  exists out,
    squarify values rect = Some (Ok out) /\
    (forall i rc,
        nth_error out i = Some rc ->
        exists v,
          nth_error (filter positive values) i = Some v /\
          area rc == v * (rw rect * rh rect / sum (filter positive values))) /\
    sum (map area out) == rw rect * rh rect.
Proof.
  intros Hw Hh Hne.
  destruct (@squarify_spec values rect Hw Hh Hne) as (out & Hrun & Hareas & _).
  exists out. split; [exact Hrun|]. split.
  - intros i rc Hi.
    destruct (Forall2_nth Hareas i Hi) as (v & Hv & Ha).
    exists v. split; [exact Hv|exact Ha].
  - rewrite (sum_areas Hareas). unfold area.
    pose proof (sum_pos (filter_positive_all_pos values) Hne) as Hs.
    field. lra.
Qed.



(** C2 as stated (positive width and height are enough) fails: a unit square
    has positive width and height, yet [squarify] returns no rectangle for
    one positive weight.  Nor is the area conserved for the empty sequence,
    which gets no rectangle either. *)
Lemma squarify_unit_square_empty :
  ~ (forall values rect,
        all_pos values -> 0 < rw rect -> 0 < rh rect ->
        exists out,
          squarify values rect = Some (Ok out) /\
          List.length out = List.length values /\
          sum (map area out) == rw rect * rh rect) /\
  squarify [1] (mkRect 0 0 1 1) = Some (Ok []) /\
  squarify [] (mkRect 0 0 4 2) = Some (Ok []).
Proof.
  split; [|split; reflexivity].
  intros H.
  destruct (H [1] (mkRect 0 0 1 1)) as (out & Hrun & Hlen & _).
  - repeat constructor.
  - reflexivity.
  - reflexivity.
  - vm_compute in Hrun. inversion Hrun; subst. discriminate.
Qed.


(** What one iteration does: an accepted value moves to the end of the row;
    otherwise the row is laid out in the remaining rectangle, horizontally
    when [rw >= rh], the rectangle shrinks, the row is emptied and [v] stays
    first in line. *)
Lemma squarify_step_cases (v : Q) (rest row : list Q) (r : Rect)
      (out : list Rect) (st' : loop_state) :
  squarify_step v rest row r out = Ok st' ->
  (accepts row v (min2 (rw r) (rh r)) = Ok true /\
   st' = mkState rest (row ++ [v]) r out) \/
  (accepts row v (min2 (rw r) (rh r)) = Ok false /\
   exists rects r',
     layout_row row r (is_horizontal r) = Ok rects /\
     leftover_rect r row (is_horizontal r) = Ok r' /\
     st' = mkState (v :: rest) [] r' (out ++ rects) /\
     squarify_step v rest [] r' (out ++ rects)
     = Ok (mkState rest [v] r' (out ++ rects))).
Proof.
  unfold squarify_step.
  destruct (accepts row v (min2 (rw r) (rh r))) as [[|]|] eqn:E;
    cbn [bind]; [| |discriminate].
  - intros [= <-]. left. split; reflexivity.
  - destruct (layout_row row r (is_horizontal r)) as [rects|] eqn:E1;
      cbn [bind]; [|discriminate].
    destruct (leftover_rect r row (is_horizontal r)) as [r'|] eqn:E2;
      cbn [bind]; [|discriminate].
    intros [= <-]. right. split; [reflexivity|].
    exists rects, r'. repeat split; reflexivity.
Qed.



(** *** Rectangles do not overlap *)

(** Two rectangles share no interior point: one lies entirely to the left
    of, to the right of, above or below the other. *)
Definition disjoint (a b : Rect) : Prop :=
  rx a + rw a <= rx b \/ rx b + rw b <= rx a \/
  ry a + rh a <= ry b \/ ry b + rh b <= ry a.

Lemma disjoint_inside (a r b : Rect) :
  disjoint a r -> inside r b -> disjoint a b.
Proof.
  unfold disjoint, inside. intros [H|[H|[H|H]]] (I1 & I2 & I3 & I4 & I5 & I6).
  - left. lra.
  - right; left. lra.
  - right; right; left. lra.
  - right; right; right. lra.
Qed.

Lemma FOP_app (A : Type) (R : A -> A -> Prop) (l1 l2 : list A) :
  ForallOrdPairs R l1 -> ForallOrdPairs R l2 ->
  (forall a b, In a l1 -> In b l2 -> R a b) ->
  ForallOrdPairs R (l1 ++ l2).
Proof.
  intros H1 H2 Hx. induction H1 as [|a l1 Ha _ IH]; [exact H2|].
  cbn [app]. constructor.
  - apply Forall_app. split; [exact Ha|].
    apply Forall_forall. intros b Hb. apply Hx; [left; reflexivity|exact Hb].
  - apply IH. intros x y Hx1 Hy. apply Hx; [right; exact Hx1|exact Hy].
Qed.

Lemma FOP_impl (A : Type) (R S : A -> A -> Prop) (l : list A) :
  (forall a b, R a b -> S a b) -> ForallOrdPairs R l -> ForallOrdPairs S l.
Proof.
  intros HRS. induction 1 as [|a l Ha _ IH]; constructor; [|exact IH].
  eapply Forall_impl; [|exact Ha]. intros b. apply HRS.
Qed.

(** The rectangles of a horizontal row follow one another from left to
    right, each with the row's height at the row's top. *)
Lemma layout_h_apart (row : list Q) :
  forall cx y row_h out res,
    0 < row_h -> all_pos row ->
    layout_h row cx y row_h out = Ok res ->
    exists rects,
      res = out ++ rects /\
      Forall (fun rc => cx <= rx rc /\ ry rc = y /\ rh rc = row_h) rects /\
      ForallOrdPairs (fun a b => rx a + rw a <= rx b) rects.
Proof.
  induction row as [|v tl IH]; intros cx y row_h out res Hh Hpos Hrun.
  - cbn [layout_h] in Hrun. injection Hrun as <-.
    exists []. rewrite app_nil_r. repeat split; constructor.
  - inversion Hpos as [|? ? Hv Htl]; subst.
    cbn [layout_h] in Hrun. rewrite fdiv_ok in Hrun by lra.
    cbn [bind] in Hrun.
    pose proof (div_pos Hv Hh) as Hq.
    destruct (IH _ _ _ _ _ Hh Htl Hrun) as (rects & -> & Hall & Hord).
    exists (mkRect cx y (v / row_h) row_h :: rects).
    rewrite <- app_assoc. split; [reflexivity|]. split.
    + constructor; [cbn; repeat split; lra|].
      eapply Forall_impl; [|exact Hall].
      intros rc (H1 & H2 & H3). repeat split; try assumption. lra.
    + constructor; [|exact Hord].
      eapply Forall_impl; [|exact Hall].
      intros rc (H1 & _). cbn. lra.
Qed.

Lemma layout_v_apart (row : list Q) :
  forall x cy col_w out res,
    0 < col_w -> all_pos row ->
    layout_v row x cy col_w out = Ok res ->
    exists rects,
      res = out ++ rects /\
      Forall (fun rc => cy <= ry rc /\ rx rc = x /\ rw rc = col_w) rects /\
      ForallOrdPairs (fun a b => ry a + rh a <= ry b) rects.
Proof.
  induction row as [|v tl IH]; intros x cy col_w out res Hw Hpos Hrun.
  - cbn [layout_v] in Hrun. injection Hrun as <-.
    exists []. rewrite app_nil_r. repeat split; constructor.
  - inversion Hpos as [|? ? Hv Htl]; subst.
    cbn [layout_v] in Hrun. rewrite fdiv_ok in Hrun by lra.
    cbn [bind] in Hrun.
    pose proof (div_pos Hv Hw) as Hq.
    destruct (IH _ _ _ _ _ Hw Htl Hrun) as (rects & -> & Hall & Hord).
    exists (mkRect x cy col_w (v / col_w) :: rects).
    rewrite <- app_assoc. split; [reflexivity|]. split.
    + constructor; [cbn; repeat split; lra|].
      eapply Forall_impl; [|exact Hall].
      intros rc (H1 & H2 & H3). repeat split; try assumption. lra.
    + constructor; [|exact Hord].
      eapply Forall_impl; [|exact Hall].
      intros rc (H1 & _). cbn. lra.
Qed.

(** The rectangles of a closed row overlap neither one another nor the
    rectangle that is left. *)
Lemma close_row_apart (row : list Q) (r : Rect) (hz : bool)
      (rects : list Rect) (r' : Rect) :
  all_pos row -> row <> [] -> 0 < rw r -> 0 < rh r ->
  layout_row row r hz = Ok rects ->
  leftover_rect r row hz = Ok r' ->
  Forall (fun rc => disjoint rc r') rects /\ ForallOrdPairs disjoint rects.
Proof.
  intros Hpos Hne Hw Hh. destruct r as [x y w h]; cbn [rw rh] in *.
  pose proof (sum_pos Hpos Hne) as Hs.
  unfold layout_row, leftover_rect. rewrite guard_false by assumption.
  destruct hz; rewrite fdiv_ok by lra; cbn [bind]; intros Hlay [= <-].
  - pose proof (div_pos Hs Hw) as Hrh.
    destruct (@layout_h_apart row _ _ _ _ _ Hrh Hpos Hlay) as (rs & -> & Hall & Hord).
    cbn [app]. split.
    + eapply Forall_impl; [|exact Hall].
      intros rc (_ & H2 & H3). unfold disjoint. cbn [rx ry rw rh].
      right; right; left. rewrite H2, H3. lra.
    + eapply FOP_impl; [|exact Hord]. intros a b H. left. exact H.
  - pose proof (div_pos Hs Hh) as Hrw.
    destruct (@layout_v_apart row _ _ _ _ _ Hrw Hpos Hlay) as (rs & -> & Hall & Hord).
    cbn [app]. split.
    + eapply Forall_impl; [|exact Hall].
      intros rc (_ & H2 & H3). unfold disjoint. cbn [rx ry rw rh].
      left. rewrite H2, H3. lra.
    + eapply FOP_impl; [|exact Hord]. intros a b H. right; right; left. exact H.
Qed.

Section LoopApart.

Variable R : Rect.
Variable V : list Q.

(** The rectangles emitted so far overlap neither one another nor the
    rectangle that remains to be filled. *)
Definition Apart (st : loop_state) : Prop :=
  Forall (fun rc => disjoint rc (st_r st)) (st_out st) /\
  ForallOrdPairs disjoint (st_out st).

Lemma squarify_step_apart (v : Q) (rest row : list Q) (r : Rect)
      (out : list Rect) (st' : loop_state) :
  Inv R V (mkState (v :: rest) row r out) ->
  Apart (mkState (v :: rest) row r out) ->
  squarify_step v rest row r out = Ok st' ->
  Apart st'.
Proof.
  intros (Hvals & Hrow & Hin & Harea & _) [Hout Hpairs]. cbn [st_vals st_row
    st_r st_out] in *.
  inversion Hvals as [|? ? Hv Hrest]; subst.
  pose proof (sum_nonneg Hrow) as Hrow0.
  pose proof (sum_nonneg Hrest) as Hrest0.
  assert (Hsv : sum (v :: rest) == v + sum rest) by apply sum_cons.
  destruct Hin as (I1 & I2 & I3 & I4 & I5 & I6).
  assert (Hpos : 0 < rw r * rh r) by (unfold area in Harea; lra).
  destruct (pos_factors I5 I6 Hpos) as [Hw Hh].
  unfold squarify_step.
  destruct (accepts row v (min2 (rw r) (rh r))) as [[|]|] eqn:Eacc;
    cbn [bind]; [| |discriminate].
  - intros [= <-]. split; assumption.
  - destruct row as [|x tl]; [rewrite accepts_nil in Eacc; discriminate|].
    assert (Hne : x :: tl <> []) by discriminate.
    assert (Hfit : sum (x :: tl) <= area r) by (unfold area in *; lra).
    destruct (layout_row_spec (is_horizontal r) Hrow Hne Hw Hh Hfit)
      as (rects & Hlay & _ & Hins).
    destruct (leftover_rect_spec (is_horizontal r) Hrow Hne Hw Hh Hfit)
      as (r' & Hleft & Hin' & _).
    rewrite Hlay, Hleft. cbn [bind]. intros [= <-].
    destruct (@close_row_apart _ _ _ _ _ Hrow Hne Hw Hh Hlay Hleft)
      as [Hnew Hnewp].
    unfold Apart. cbn [st_r st_out]. split.
    + apply Forall_app. split; [|exact Hnew].
      eapply Forall_impl; [|exact Hout].
      intros rc Hrc. exact (@disjoint_inside rc r r' Hrc Hin').
    + apply FOP_app; [exact Hpairs|exact Hnewp|].
      intros a b Ha Hb. rewrite Forall_forall in Hout, Hins.
      exact (@disjoint_inside a r b (Hout a Ha) (Hins b Hb)).
Qed.

Lemma squarify_loop_apart (fuel : nat) :
  forall st st',
    Inv R V st -> Apart st ->
    squarify_loop fuel st = Some (Ok st') ->
    Inv R V st' /\ Apart st' /\ st_vals st' = [].
Proof.
  induction fuel as [|fuel IH]; intros [vals row r out] st' HI HA Hrun.
  - destruct vals as [|v rest]; [|discriminate].
    cbn in Hrun. injection Hrun as <-. auto.
  - destruct vals as [|v rest].
    + cbn in Hrun. injection Hrun as <-. auto.
    + destruct (squarify_step_spec HI) as (st1 & Hstep & HI1 & _).
      pose proof (squarify_step_apart HI HA Hstep) as HA1.
      cbn [squarify_loop st_vals st_row st_r st_out] in Hrun.
      rewrite Hstep in Hrun. exact (IH _ _ HI1 HA1 Hrun).
Qed.

End LoopApart.

(** The state in which the loop starts satisfies the invariant. *)
Lemma initial_inv (vals : list Q) (x y w h : Q) :
  1 < w -> 1 < h -> all_pos vals -> vals <> [] ->
  let V := map (fun v => v * (w * h / sum vals)) vals in
  let R := mkRect x y w h in
  Inv R V (mkState V [] R []).
Proof.
  intros Hw Hh Hpos Hne V R.
  pose proof (sum_pos Hpos Hne) as Htot.
  assert (Harea : 0 < w * h) by nra.
  assert (Hscale : 0 < w * h / sum vals) by (apply div_pos; assumption).
  unfold Inv. cbn [st_vals st_row st_r st_out].
  split; [apply all_pos_scale; assumption|].
  split; [constructor|].
  split; [apply inside_refl; cbn; lra|]. split.
  - unfold area, V, R. cbn [rw rh]. rewrite sum_nil, sum_scale. field. lra.
  - exists []. cbn [app]. repeat split; constructor.
Qed.

Lemma squarify_apart (values : list Q) (rect : Rect) (out : list Rect) :
  squarify values rect = Some (Ok out) ->
  ForallOrdPairs disjoint out.
Proof.
  destruct rect as [x y w h]. unfold squarify.
  destruct (Qle_bool w 1 || Qle_bool h 1) eqn:Eg.
  { intros [= <-]. constructor. }
  apply orb_false_iff in Eg as [Ew Eh].
  assert (Hw : 1 < w).
  { destruct (Qlt_le_dec 1 w) as [H|H]; [exact H|].
    apply Qle_bool_iff in H. congruence. }
  assert (Hh : 1 < h).
  { destruct (Qlt_le_dec 1 h) as [H|H]; [exact H|].
    apply Qle_bool_iff in H. congruence. }
  pose proof (filter_positive_all_pos values) as Hpos.
  destruct (filter positive values) as [|v0 vs] eqn:Evals.
  { intros [= <-]. constructor. }
  set (vals := v0 :: vs) in *.
  assert (Hne : vals <> []) by discriminate.
  pose proof (sum_pos Hpos Hne) as Htot.
  assert (Hptot : positive (sum vals) = true) by (apply positive_iff; exact Htot).
  rewrite Hptot, fdiv_ok by lra.
  pose proof (initial_inv x y Hw Hh Hpos Hne) as HI. cbv zeta in HI.
  set (V := map (fun v => v * (w * h / sum vals)) vals) in *.
  set (R := mkRect x y w h) in *.
  assert (HA : Apart (mkState V [] R [])) by (split; constructor).
  destruct (squarify_loop (2 * List.length V) (mkState V [] R []))
    as [[st|ex]|] eqn:Eloop; [|discriminate|discriminate].
  destruct (squarify_loop_apart _ HI HA Eloop) as (HI' & [Hout Hpairs] & Hv).
  destruct st as [vals' row' r' out']. cbn [st_vals st_row st_r st_out] in *.
  subst vals'.
  destruct row' as [|r0 rt]; [intros [= <-]; exact Hpairs|].
  destruct HI' as (_ & Hrow & Hin & Har & _).
  cbn [st_vals st_row st_r st_out] in *.
  assert (Hne' : r0 :: rt <> []) by discriminate.
  pose proof (sum_pos Hrow Hne') as Hs.
  rewrite sum_nil in Har.
  destruct Hin as (I1 & I2 & I3 & I4 & I5 & I6).
  assert (Hp : 0 < rw r' * rh r') by (unfold area in Har; lra).
  destruct (pos_factors I5 I6 Hp) as [Hw' Hh'].
  assert (Hfit : sum (r0 :: rt) <= area r') by lra.
  destruct (layout_row_spec (is_horizontal r') Hrow Hne' Hw' Hh' Hfit)
    as (rects & Hlay & _ & Hins).
  destruct (leftover_rect_spec (is_horizontal r') Hrow Hne' Hw' Hh' Hfit)
    as (r'' & Hleft & _).
  destruct (@close_row_apart _ _ _ _ _ Hrow Hne' Hw' Hh' Hlay Hleft)
    as [_ Hnewp].
  rewrite Hlay. intros [= <-].
  apply FOP_app; [exact Hpairs|exact Hnewp|].
  intros a b Ha Hb. rewrite Forall_forall in Hout, Hins.
  exact (@disjoint_inside a r' b (Hout a Ha) (Hins b Hb)).
Qed.

(** X6.  The rectangles that [squarify] returns do not overlap: any two of
    them are separated by a vertical or a horizontal line. *)
Theorem squarify_rectangles_disjoint (values : list Q) (rect : Rect)
        (out : list Rect) :
  squarify values rect = Some (Ok out) ->
  ForallOrdPairs disjoint out.
Proof. apply squarify_apart. Qed.

Lemma squarify_rectangles_disjoint_witness :
  exists out,
    squarify [4; 4] (mkRect 0 0 4 2) = Some (Ok out) /\
    ForallOrdPairs disjoint out.
Proof.
  eexists. split; [vm_compute; reflexivity|].
  apply (@squarify_rectangles_disjoint [4; 4] (mkRect 0 0 4 2)).
  vm_compute. reflexivity.
Defined.




End Treemap.

(** ** Display: the children that [redraw] shows *)

Module Display.

(** [[
    def sorted_children(self):
        return sorted(self.children, key=lambda n: n.size, reverse=True)
]]
    [sorted] is stable, also with [reverse=True]: nodes of equal size stay
    in their order.  The stable sort is written as an insertion sort that
    puts a node before the first node that is not larger. *)
Fixpoint insert_desc (x : Node) (l : list Node) : list Node :=
  match l with
  | [] => [x]
  | y :: l' =>
      if (size x <? size y)%Z then y :: insert_desc x l' else x :: y :: l'
  end.

Definition sorted_children (n : Node) : list Node :=
  fold_right insert_desc [] (children n).

(** [children = [c for c in node.sorted_children() if c.size > 0]] *)
Definition shown_children (node : Node) : list Node :=
  filter (fun c => (0 <? size c)%Z) (sorted_children node).

(** *** [sorted_children] *)

Lemma insert_desc_perm (x : Node) (l : list Node) :
  Permutation (insert_desc x l) (x :: l).
Proof.
  induction l as [|y l IH]; cbn [insert_desc]; [apply Permutation_refl|].
  destruct (size x <? size y)%Z; [|apply Permutation_refl].
  eapply Permutation_trans; [apply perm_skip, IH|apply perm_swap].
Qed.

Lemma sorted_children_perm (n : Node) :
  Permutation (sorted_children n) (children n).
Proof.
  unfold sorted_children. induction (children n) as [|x l IH];
    cbn [fold_right]; [apply Permutation_refl|].
  eapply Permutation_trans; [apply insert_desc_perm|apply perm_skip, IH].
Qed.

(** No node is followed, at any distance, by a larger one. *)
Definition descending (l : list Node) : Prop :=
  StronglySorted (fun a b => (size b <= size a)%Z) l.

Lemma insert_desc_descending (x : Node) (l : list Node) :
  descending l -> descending (insert_desc x l).
Proof.
  unfold descending. induction 1 as [|y l Hl IH Hy]; cbn [insert_desc].
  - constructor; constructor.
  - destruct (size x <? size y)%Z eqn:E.
    + apply Z.ltb_lt in E. constructor; [exact IH|].
      apply Forall_forall. intros z Hz.
      apply (Permutation_in _ (insert_desc_perm x l)) in Hz.
      destruct Hz as [<-|Hz]; [lia|].
      rewrite Forall_forall in Hy. apply Hy, Hz.
    + apply Z.ltb_ge in E. constructor; [constructor; assumption|].
      constructor; [exact E|].
      eapply Forall_impl; [|exact Hy]. cbn. intros z Hz. lia.
Qed.

Lemma sorted_children_descending (n : Node) : descending (sorted_children n).
Proof.
  unfold sorted_children. induction (children n) as [|x l IH];
    cbn [fold_right]; [constructor|].
  apply insert_desc_descending, IH.
Qed.

Lemma insert_desc_stable (k : Z) (x : Node) (l : list Node) :
  filter (fun n => (size n =? k)%Z) (insert_desc x l)
  = filter (fun n => (size n =? k)%Z) (x :: l).
Proof.
  induction l as [|y l IH]; cbn [insert_desc]; [reflexivity|].
  destruct (size x <? size y)%Z eqn:E; [|reflexivity].
  apply Z.ltb_lt in E. cbn [filter] in *. rewrite IH.
  destruct (size x =? k)%Z eqn:Ex; destruct (size y =? k)%Z eqn:Ey;
    try reflexivity.
  apply Z.eqb_eq in Ex, Ey. lia.
Qed.

Lemma sorted_children_stable (n : Node) (k : Z) :
  filter (fun c => (size c =? k)%Z) (sorted_children n)
  = filter (fun c => (size c =? k)%Z) (children n).
Proof.
  unfold sorted_children. induction (children n) as [|x l IH];
    cbn [fold_right]; [reflexivity|].
  rewrite insert_desc_stable. cbn [filter]. rewrite IH. reflexivity.
Qed.

(** X9.  [sorted_children] returns the children of the node, all of them
    and no others, with no node before a larger one, and the nodes of any
    one size in the order they have among the children. *)
Theorem sorted_children_stable_descending (n : Node) :
  Permutation (sorted_children n) (children n) /\
  descending (sorted_children n) /\
  (forall k,
      filter (fun c => (size c =? k)%Z) (sorted_children n)
      = filter (fun c => (size c =? k)%Z) (children n)).
Proof.
  split; [apply sorted_children_perm|].
  split; [apply sorted_children_descending|].
  apply sorted_children_stable.
Qed.

(** *** The children that are shown *)

Lemma filter_permutation (A : Type) (f : A -> bool) (l l' : list A) :
  Permutation l l' -> Permutation (filter f l) (filter f l').
Proof.
  induction 1 as [|x l l' _ IH|x y l|l l' l'' _ IH1 _ IH2]; cbn [filter].
  - apply Permutation_refl.
  - destruct (f x); [apply perm_skip|]; exact IH.
  - destruct (f x), (f y); try apply Permutation_refl. apply perm_swap.
  - eapply Permutation_trans; eassumption.
Qed.

Lemma filter_descending (f : Node -> bool) (l : list Node) :
  descending l -> descending (filter f l).
Proof.
  unfold descending. induction 1 as [|x l Hl IH Hx]; cbn [filter].
  - constructor.
  - destruct (f x); [|exact IH]. constructor; [exact IH|].
    rewrite Forall_forall in *. intros y Hy.
    apply filter_In in Hy as [Hy _]. apply Hx, Hy.
Qed.

(** [redraw] shows the children of positive size, each once, with no node
    before a larger one. *)
Lemma shown_children_sorted (node : Node) :
  Permutation (shown_children node)
              (filter (fun c => (0 <? size c)%Z) (children node)) /\
  descending (shown_children node).
Proof.
  unfold shown_children. split.
  - apply filter_permutation, sorted_children_perm.
  - apply filter_descending, sorted_children_descending.
Qed.

End Display.

(** ** The layout in the interpreter's arithmetic

    [Treemap] takes the numbers of the layout for exact rationals.  The
    interpreter computes with [int] and [float]: a sum or a quotient is
    rounded, [x**2] and the conversion of a large [int] can raise
    [OverflowError], a division by a zero that rounding produced raises
    [ZeroDivisionError].  Here the same functions are written over a type of
    numbers whose operations are parameters, so that what is proved holds
    whatever the operations compute, those of the interpreter included.
    [Exact] below shows that with exact operations they are the functions
    of [Treemap], and [Binary64] runs them on IEEE doubles. *)

Module Numbers.

Local Open Scope result_scope.

(** [[x for x in l]] with an expression that can raise: left to right, the
    first exception ends it. *)
Fixpoint mapM (A B : Type) (f : A -> result B) (l : list A)
  : result (list B) :=
  match l with
  | [] => Ok []
  | a :: tl =>
      b <- f a ;;
      bs <- mapM f tl ;;
      Ok (b :: bs)
  end.

Section Arithmetic.

(** A Python number. *)
Variable num : Type.

(** An [int] as a number, [float("inf")] and the literal [0.0]. *)
Variable of_int : Z -> num.
Variable inf : num.
Variable fzero : num.

(** [a + b], [a - b], [a * b], [a / b] and [a**2]. *)
Variables add sub mul truediv : num -> num -> result num.
Variable pow2 : num -> result num.

(** The builtin [sum] (plain left-to-right addition before Python 3.12,
    compensated summation of floats since). *)
Variable sum : list num -> result num.

(** [a <= b] and [a < b] ([a >= b] is [b <= a], [a > b] is [b < a]), and
    the truth value of a number. *)
Variables le lt : num -> num -> bool.
Variable nonzero : num -> bool.

(** [Rect = Tuple[float, float, float, float]  # (x, y, w, h)] *)
Record Rect : Type := mkRect { rx : num; ry : num; rw : num; rh : num }.

(** Python's two-argument [max] and [min] keep the first argument unless
    the second is strictly larger (smaller); over a list they go left to
    right. *)
Definition max2 (a b : num) : num := if lt a b then b else a.
Definition min2 (a b : num) : num := if lt b a then b else a.
Definition max_list (x : num) (row : list num) : num := fold_left max2 row x.
Definition min_list (x : num) (row : list num) : num := fold_left min2 row x.

(** [[
def worst_aspect_ratio(row, short_side):
    if not row or short_side <= 0:
        return float("inf")
    s = sum(row)
    mx = max(row)
    mn = min(row)
    return max((short_side**2) * mx / (s**2), (s**2) / (short_side**2 * mn))
]] *)
Definition worst_aspect_ratio (row : list num) (short_side : num)
  : result num :=
  match row with
  | [] => Ok inf
  | x :: tl =>
      if le short_side (of_int 0) then Ok inf
      else
        s <- sum row ;;
        let mx := max_list x tl in
        let mn := min_list x tl in
        p <- pow2 short_side ;;
        pm <- mul p mx ;;
        s2 <- pow2 s ;;
        a <- truediv pm s2 ;;
        s2' <- pow2 s ;;
        p' <- pow2 short_side ;;
        pn <- mul p' mn ;;
        b <- truediv s2' pn ;;
        Ok (max2 a b)
  end.

(** [[
def layout_row(row, rect, horizontal):
    x, y, w, h = rect
    out = []
    s = sum(row)
    if s <= 0 or w <= 0 or h <= 0:
        return out
    if horizontal:
        row_h = s / w
        cx = x
        for v in row:
            rw = v / row_h
            out.append((cx, y, rw, row_h))
            cx += rw
    else:
        col_w = s / h
        cy = y
        for v in row:
            rh = v / col_w
            out.append((x, cy, col_w, rh))
            cy += rh
    return out
]] *)
Fixpoint layout_h (row : list num) (cx y row_h : num) (out : list Rect)
  : result (list Rect) :=
  match row with
  | [] => Ok out
  | v :: tl =>
      w' <- truediv v row_h ;;
      cx' <- add cx w' ;;
      layout_h tl cx' y row_h (out ++ [mkRect cx y w' row_h])
  end.

Fixpoint layout_v (row : list num) (x cy col_w : num) (out : list Rect)
  : result (list Rect) :=
  match row with
  | [] => Ok out
  | v :: tl =>
      h' <- truediv v col_w ;;
      cy' <- add cy h' ;;
      layout_v tl x cy' col_w (out ++ [mkRect x cy col_w h'])
  end.

Definition layout_row (row : list num) (rect : Rect) (horizontal : bool)
  : result (list Rect) :=
  let '(mkRect x y w h) := rect in
  s <- sum row ;;
  if le s (of_int 0) || le w (of_int 0) || le h (of_int 0) then Ok []
  else if horizontal then
    row_h <- truediv s w ;;
    layout_h row x y row_h []
  else
    col_w <- truediv s h ;;
    layout_v row x y col_w [].

(** [[
def leftover_rect(rect, row, horizontal):
    x, y, w, h = rect
    s = sum(row)
    if s <= 0 or w <= 0 or h <= 0:
        return rect
    if horizontal:
        row_h = s / w
        return (x, y + row_h, w, h - row_h)  # carve from TOP
    else:
        col_w = s / h
        return (x + col_w, y, w - col_w, h)  # carve from LEFT
]] *)
Definition leftover_rect (rect : Rect) (row : list num) (horizontal : bool)
  : result Rect :=
  let '(mkRect x y w h) := rect in
  s <- sum row ;;
  if le s (of_int 0) || le w (of_int 0) || le h (of_int 0) then Ok rect
  else if horizontal then
    row_h <- truediv s w ;;
    y' <- add y row_h ;;
    h' <- sub h row_h ;;
    Ok (mkRect x y' w h')
  else
    col_w <- truediv s h ;;
    x' <- add x col_w ;;
    w' <- sub w col_w ;;
    Ok (mkRect x' y w' h).

(** State of the [while vals:] loop of [squarify]. *)
Record loop_state : Type := mkState {
  st_vals : list num;
  st_row : list num;
  st_r : Rect;
  st_out : list Rect
}.

(** [horizontal = (rw >= rh)] *)
Definition is_horizontal (r : Rect) : bool := le (rh r) (rw r).

(** [not row or worst_aspect_ratio(row + [v], short) <= worst_aspect_ratio(row, short)] *)
Definition accepts (row : list num) (v short : num) : result bool :=
  match row with
  | [] => Ok true
  | _ =>
      w_with <- worst_aspect_ratio (row ++ [v]) short ;;
      w_without <- worst_aspect_ratio row short ;;
      Ok (le w_with w_without)
  end.

(** One iteration of the loop body, for [vals = v :: rest]. *)
Definition squarify_step (v : num) (rest : list num) (row : list num)
           (r : Rect) (out : list Rect) : result loop_state :=
  let short := min2 (rw r) (rh r) in
  acc <- accepts row v short ;;
  if acc : bool then
    Ok (mkState rest (row ++ [v]) r out)
  else
    let horizontal := is_horizontal r in
    rects <- layout_row row r horizontal ;;
    r' <- leftover_rect r row horizontal ;;
    Ok (mkState (v :: rest) [] r' (out ++ rects)).

(** The loop; [None] when the iteration budget is used up before [vals] is
    empty. *)
Fixpoint squarify_loop (fuel : nat) (st : loop_state)
  : option (result loop_state) :=
  match st_vals st with
  | [] => Some (Ok st)
  | v :: rest =>
      match fuel with
      | O => None
      | S fuel' =>
          match squarify_step v rest (st_row st) (st_r st) (st_out st) with
          | Ok st' => squarify_loop fuel' st'
          | Raise e => Some (Raise e)
          end
      end
  end.

(** [v > 0] *)
Definition positive (v : num) : bool := lt (of_int 0) v.

(** [[
def squarify(values, rect):
    x, y, w, h = rect
    if w <= 1 or h <= 1:
        return []
    vals = [v for v in values if v > 0]
    if not vals:
        return []
    total = sum(vals)
    area = w * h
    scale = area / total if total > 0 else 0.0
    vals = [v * scale for v in vals]
    r = (x, y, w, h); row = []; out = []
    while vals: ...
    if row:
        rx, ry, rw, rh = r
        horizontal = (rw >= rh)
        out.extend(layout_row(row, r, horizontal))
    return out
]]
    [scaled] is the part before the loop.  The loop is given [2 * len(vals)]
    iterations; [squarify_returns] below proves that they are enough. *)
Definition scaled (vals : list num) (w h : num) : result (list num) :=
  total <- sum vals ;;
  area <- mul w h ;;
  scale <- (if lt (of_int 0) total then truediv area total else Ok fzero) ;;
  mapM (fun v => mul v scale) vals.

Definition squarify (values : list num) (rect : Rect)
  : option (result (list Rect)) :=
  let '(mkRect x y w h) := rect in
  if le w (of_int 1) || le h (of_int 1) then Some (Ok [])
  else
    let vals := filter positive values in
    match vals with
    | [] => Some (Ok [])
    | _ =>
        match scaled vals w h with
        | Raise e => Some (Raise e)
        | Ok vals =>
            match squarify_loop (2 * List.length vals)
                    (mkState vals [] (mkRect x y w h) []) with
            | None => None
            | Some (Raise e) => Some (Raise e)
            | Some (Ok st) =>
                match st_row st with
                | [] => Some (Ok (st_out st))
                | _ =>
                    match layout_row (st_row st) (st_r st)
                            (is_horizontal (st_r st)) with
                    | Raise e => Some (Raise e)
                    | Ok rects => Some (Ok (st_out st ++ rects))
                    end
                end
            end
        end
    end.

(** The fallback of [redraw]:
[[
            x, y, w, h = rect_area
            total = sum(values) or 1
            horizontal = (w >= h)
            for size in values:
                frac = size / total
                if horizontal:
                    rw = w * frac
                    rects.append((x, y, rw, h))
                    x += rw
                else:
                    rh = h * frac
                    rects.append((x, y, w, rh))
                    y += rh
]] *)
Fixpoint strip_h (values : list num) (x y w h total : num)
         (rects : list Rect) : result (list Rect) :=
  match values with
  | [] => Ok rects
  | sz :: tl =>
      frac <- truediv sz total ;;
      w' <- mul w frac ;;
      x' <- add x w' ;;
      strip_h tl x' y w h total (rects ++ [mkRect x y w' h])
  end.

Fixpoint strip_v (values : list num) (x y w h total : num)
         (rects : list Rect) : result (list Rect) :=
  match values with
  | [] => Ok rects
  | sz :: tl =>
      frac <- truediv sz total ;;
      h' <- mul h frac ;;
      y' <- add y h' ;;
      strip_v tl x y' w h total (rects ++ [mkRect x y w h'])
  end.

Definition fallback_layout (values : list num) (rect_area : Rect)
  : result (list Rect) :=
  let '(mkRect x y w h) := rect_area in
  s <- sum values ;;
  let total := if nonzero s then s else of_int 1 in
  if le h w then strip_h values x y w h total []
  else strip_v values x y w h total [].

(** [rect_area = (padding, padding, W - 2 * padding, H - 2 * padding)] with
    [W = max(10, winfo_width())], [H = max(10, winfo_height())] and
    [padding = 6]. *)
Definition rect_area (width height : Z) : Rect :=
  mkRect (of_int 6) (of_int 6) (of_int (Z.max 10 width - 2 * 6))
         (of_int (Z.max 10 height - 2 * 6)).

(** The loop that draws and records the rectangles (the canvas calls and
    the item ids are left out; the label is made, with [human_size], for a
    rectangle of area 360 or more):
[[
        for idx, (child, r) in enumerate(zip(children, rects)):
            x, y, w, h = r
            x2, y2 = x + w, y + h
            ...
            self.rect_items.append((item, child, (x, y, w, h)))
            area = w * h
            if area >= min_area_for_label:
                ...
                txt = f"{icon} {name}\n{human_size(child.size)}"
                self.canvas.create_text(x + 6, y + 6, ...)
]] *)
Fixpoint draw (pairs : list (Node * Rect)) (rect_items : list (Node * Rect))
  : result (list (Node * Rect)) :=
  match pairs with
  | [] => Ok rect_items
  | (child, r) :: tl =>
      x2 <- add (rx r) (rw r) ;;
      y2 <- add (ry r) (rh r) ;;
      area <- mul (rw r) (rh r) ;;
      label <- (if le (of_int (90 * 4)) area
                then (txt <- Utilities.human_size (size child) ;;
                      tx <- add (rx r) (of_int 6) ;;
                      ty <- add (ry r) (of_int 6) ;;
                      Ok (Some txt))
                else Ok None) ;;
      draw tl (rect_items ++ [(child, r)])
  end.

(** What [redraw] leaves in [rect_items] (for a [current_tree] that is
    set):
[[
        children = [c for c in node.sorted_children() if c.size > 0]
        if not children:
            self._draw_empty_message(...)
            return
        ...
        values = [c.size for c in children]
        rects = squarify(values, rect_area)
        if len(rects) != len(children):
            rects = []
            ... the fallback ...
        for idx, (child, r) in enumerate(zip(children, rects)):
            ...
]] *)
Definition redraw (width height : Z) (node : Node)
  : option (result (list (Node * Rect))) :=
  let children := Display.shown_children node in
  match children with
  | [] => Some (Ok [])
  | _ =>
      let area := rect_area width height in
      let values := map (fun c => of_int (size c)) children in
      match squarify values area with
      | None => None
      | Some (Raise ex) => Some (Raise ex)
      | Some (Ok rects) =>
          Some (rects' <- (if Nat.eqb (List.length rects)
                                      (List.length children)
                           then Ok rects
                           else fallback_layout values area) ;;
                draw (combine children rects') [])
      end
  end.

(** *** How many rectangles *)

Lemma mapM_length (A B : Type) (f : A -> result B) (l : list A) :
  forall l', mapM f l = Ok l' -> List.length l' = List.length l.
Proof.
  induction l as [|a tl IH]; intros l' H; cbn [mapM] in H.
  - injection H as <-. reflexivity.
  - destruct (f a) as [b|e]; cbn [bind] in H; [|discriminate].
    destruct (mapM f tl) as [bs|e]; cbn [bind] in H; [|discriminate].
    injection H as <-. cbn [List.length]. rewrite (IH bs eq_refl).
    reflexivity.
Qed.

Lemma layout_h_length (row : list num) :
  forall cx y row_h out res,
    layout_h row cx y row_h out = Ok res ->
    List.length res = (List.length out + List.length row)%nat.
Proof.
  induction row as [|v tl IH]; intros cx y row_h out res H;
    cbn [layout_h] in H.
  - injection H as <-. cbn [List.length]. lia.
  - destruct (truediv v row_h) as [w'|e]; cbn [bind] in H; [|discriminate].
    destruct (add cx w') as [cx'|e]; cbn [bind] in H; [|discriminate].
    apply IH in H. rewrite H, length_app. cbn [List.length]. lia.
Qed.

Lemma layout_v_length (row : list num) :
  forall x cy col_w out res,
    layout_v row x cy col_w out = Ok res ->
    List.length res = (List.length out + List.length row)%nat.
Proof.
  induction row as [|v tl IH]; intros x cy col_w out res H;
    cbn [layout_v] in H.
  - injection H as <-. cbn [List.length]. lia.
  - destruct (truediv v col_w) as [h'|e]; cbn [bind] in H; [|discriminate].
    destruct (add cy h') as [cy'|e]; cbn [bind] in H; [|discriminate].
    apply IH in H. rewrite H, length_app. cbn [List.length]. lia.
Qed.

(** A row is laid out whole or, when the guard of [layout_row] answers,
    not at all. *)
Lemma layout_row_length (row : list num) (r : Rect) (hz : bool)
      (rects : list Rect) :
  layout_row row r hz = Ok rects ->
  rects = [] \/ List.length rects = List.length row.
Proof.
  destruct r as [x y w h]. unfold layout_row.
  destruct (sum row) as [s|e]; cbn [bind]; [|discriminate].
  destruct (le s (of_int 0) || le w (of_int 0) || le h (of_int 0)).
  - intros [= <-]. left. reflexivity.
  - destruct hz.
    + destruct (truediv s w) as [row_h|e]; cbn [bind]; [|discriminate].
      intros H. apply layout_h_length in H. right. exact H.
    + destruct (truediv s h) as [col_w|e]; cbn [bind]; [|discriminate].
      intros H. apply layout_v_length in H. right. exact H.
Qed.

(** The values that are in the output, in the row or still to come. *)
Definition placed (st : loop_state) : nat :=
  (List.length (st_out st) + List.length (st_row st)
   + List.length (st_vals st))%nat.

(** Every iteration pops a value or empties a non-empty row. *)
Definition steps_left (st : loop_state) : nat :=
  (2 * List.length (st_vals st)
   + match st_row st with [] => 0 | _ => 1 end)%nat.

Lemma squarify_step_count (v : num) (rest row : list num) (r : Rect)
      (out : list Rect) (st' : loop_state) :
  squarify_step v rest row r out = Ok st' ->
  (placed st' <= placed (mkState (v :: rest) row r out))%nat /\
  (steps_left st' < steps_left (mkState (v :: rest) row r out))%nat.
Proof.
  unfold squarify_step, placed, steps_left.
  cbn [st_vals st_row st_out List.length].
  destruct (accepts row v (min2 (rw r) (rh r))) as [[|]|e] eqn:Eacc;
    cbn [bind]; [| |discriminate].
  - intros [= <-]. cbn [st_vals st_row st_out].
    rewrite length_app. cbn [List.length].
    destruct (row ++ [v]) eqn:E; [destruct row; discriminate|].
    destruct row; lia.
  - destruct row as [|x tl]; [cbn in Eacc; discriminate|].
    destruct (layout_row (x :: tl) r (is_horizontal r)) as [rects|e] eqn:El;
      cbn [bind]; [|discriminate].
    destruct (leftover_rect r (x :: tl) (is_horizontal r)) as [r'|e];
      cbn [bind]; [|discriminate].
    intros [= <-]. cbn [st_vals st_row st_out List.length].
    rewrite length_app.
    destruct (layout_row_length _ _ _ El) as [->|Hlen].
    + cbn [List.length]. lia.
    + rewrite Hlen. cbn [List.length]. lia.
Qed.

Lemma squarify_loop_runs (fuel : nat) :
  forall st,
    (steps_left st <= fuel)%nat ->
    exists res,
      squarify_loop fuel st = Some res /\
      forall st', res = Ok st' ->
                  st_vals st' = [] /\ (placed st' <= placed st)%nat.
Proof.
  induction fuel as [|fuel IH]; intros st Hm.
  - destruct st as [vals row r out]. unfold steps_left in Hm.
    cbn [st_vals st_row] in Hm.
    destruct vals as [|v rest]; [|cbn [List.length] in Hm; lia].
    exists (Ok (mkState [] row r out)). split; [reflexivity|].
    intros st' [= <-]. split; [reflexivity|lia].
  - destruct st as [vals row r out].
    destruct vals as [|v rest].
    + exists (Ok (mkState [] row r out)). split; [reflexivity|].
      intros st' [= <-]. split; [reflexivity|lia].
    + cbn [squarify_loop st_vals st_row st_r st_out].
      destruct (squarify_step v rest row r out) as [st1|e] eqn:Es.
      * destruct (squarify_step_count _ _ _ _ _ Es) as [Hp Hlt].
        destruct (IH st1) as (res & Hrun & Hres); [lia|].
        exists res. split; [exact Hrun|].
        intros st' Hst'. destruct (Hres st' Hst') as [Hv Hp'].
        split; [exact Hv|lia].
      * exists (Raise e). split; [reflexivity|]. intros st' H. discriminate.
Qed.

(** [squarify] ends, with an exception of the arithmetic or with a list
    that has no more rectangles than there are positive weights. *)
Lemma squarify_returns (values : list num) (rect : Rect) :
  exists res,
    squarify values rect = Some res /\
    forall out,
      res = Ok out ->
      (List.length out <= List.length (filter positive values))%nat.
Proof.
  destruct rect as [x y w h]. unfold squarify.
  destruct (le w (of_int 1) || le h (of_int 1)).
  { exists (Ok []). split; [reflexivity|].
    intros out [= <-]. cbn [List.length]. lia. }
  destruct (filter positive values) as [|v0 vs] eqn:Ef.
  { exists (Ok []). split; [reflexivity|].
    intros out [= <-]. cbn [List.length]. lia. }
  destruct (scaled (v0 :: vs) w h) as [vals|e] eqn:Esc.
  2:{ exists (Raise e). split; [reflexivity|]. intros out H. discriminate. }
  assert (Hlen : List.length vals = List.length (v0 :: vs)).
  { unfold scaled in Esc.
    destruct (sum (v0 :: vs)) as [total|e]; cbn [bind] in Esc;
      [|discriminate].
    destruct (mul w h) as [area|e]; cbn [bind] in Esc; [|discriminate].
    destruct (if lt (of_int 0) total then truediv area total else Ok fzero)
      as [scale|e]; cbn [bind] in Esc; [|discriminate].
    apply mapM_length in Esc. exact Esc. }
  destruct (@squarify_loop_runs (2 * List.length vals)
              (mkState vals [] (mkRect x y w h) []))
    as (res & Hrun & Hres).
  { unfold steps_left. cbn [st_vals st_row]. lia. }
  rewrite Hrun. destruct res as [st|e].
  2:{ exists (Raise e). split; [reflexivity|]. intros out H. discriminate. }
  destruct (Hres st eq_refl) as [_ Hp]. unfold placed in Hp.
  cbn [st_vals st_row st_out List.length] in Hp.
  destruct (st_row st) as [|x0 row] eqn:Erow.
  - exists (Ok (st_out st)). split; [reflexivity|].
    intros out [= <-]. lia.
  - destruct (layout_row (x0 :: row) (st_r st) (is_horizontal (st_r st)))
      as [rects|e] eqn:El.
    + exists (Ok (st_out st ++ rects)). split; [reflexivity|].
      intros out [= <-]. rewrite length_app.
      destruct (layout_row_length _ _ _ El) as [->|Hl].
      * cbn [List.length] in Hlen |- *. lia.
      * rewrite Hl. lia.
    + exists (Raise e). split; [reflexivity|]. intros out H. discriminate.
Qed.


(** *** What [redraw] records *)

Lemma strip_h_length (values : list num) :
  forall x y w h total rects res,
    strip_h values x y w h total rects = Ok res ->
    List.length res = (List.length rects + List.length values)%nat.
Proof.
  induction values as [|sz tl IH]; intros x y w h total rects res H;
    cbn [strip_h] in H.
  - injection H as <-. cbn [List.length]. lia.
  - destruct (truediv sz total) as [frac|e]; cbn [bind] in H; [|discriminate].
    destruct (mul w frac) as [w'|e]; cbn [bind] in H; [|discriminate].
    destruct (add x w') as [x'|e]; cbn [bind] in H; [|discriminate].
    apply IH in H. rewrite H, length_app. cbn [List.length]. lia.
Qed.

Lemma strip_v_length (values : list num) :
  forall x y w h total rects res,
    strip_v values x y w h total rects = Ok res ->
    List.length res = (List.length rects + List.length values)%nat.
Proof.
  induction values as [|sz tl IH]; intros x y w h total rects res H;
    cbn [strip_v] in H.
  - injection H as <-. cbn [List.length]. lia.
  - destruct (truediv sz total) as [frac|e]; cbn [bind] in H; [|discriminate].
    destruct (mul h frac) as [h'|e]; cbn [bind] in H; [|discriminate].
    destruct (add y h') as [y'|e]; cbn [bind] in H; [|discriminate].
    apply IH in H. rewrite H, length_app. cbn [List.length]. lia.
Qed.

Lemma fallback_layout_length (values : list num) (area : Rect)
      (rects : list Rect) :
  fallback_layout values area = Ok rects ->
  List.length rects = List.length values.
Proof.
  destruct area as [x y w h]. unfold fallback_layout.
  destruct (sum values) as [s|e]; cbn [bind]; [|discriminate].
  destruct (le h w); intros H.
  - apply strip_h_length in H. exact H.
  - apply strip_v_length in H. exact H.
Qed.

Lemma draw_records (pairs : list (Node * Rect)) :
  forall rect_items res,
    draw pairs rect_items = Ok res -> res = (rect_items ++ pairs)%list.
Proof.
  induction pairs as [|[child r] tl IH]; intros rect_items res H;
    cbn [draw] in H.
  - injection H as <-. rewrite app_nil_r. reflexivity.
  - destruct (add (rx r) (rw r)) as [x2|e]; cbn [bind] in H; [|discriminate].
    destruct (add (ry r) (rh r)) as [y2|e]; cbn [bind] in H; [|discriminate].
    destruct (mul (rw r) (rh r)) as [area|e]; cbn [bind] in H;
      [|discriminate].
    destruct (if le (of_int (90 * 4)) area then _ else _) as [label|e];
      cbn [bind] in H; [|discriminate].
    apply IH in H. rewrite H, <- app_assoc. reflexivity.
Qed.

Lemma combine_fst (A B : Type) (l : list A) :
  forall l' : list B,
    List.length l' = List.length l -> map fst (combine l l') = l.
Proof.
  induction l as [|a tl IH]; intros [|b tl'] H; try discriminate;
    [reflexivity|].
  cbn [combine map fst]. rewrite IH; [reflexivity|].
  cbn [List.length] in H. lia.
Qed.

Lemma combine_snd (A B : Type) (l : list A) :
  forall l' : list B,
    List.length l' = List.length l -> map snd (combine l l') = l'.
Proof.
  induction l as [|a tl IH]; intros [|b tl'] H; try discriminate;
    [reflexivity|].
  cbn [combine map snd]. rewrite IH; [reflexivity|].
  cbn [List.length] in H. lia.
Qed.

Lemma redraw_spec (width height : Z) (node : Node) :
  exists res,
    redraw width height node = Some res /\
    forall items,
      res = Ok items ->
      map fst items = Display.shown_children node /\
      Permutation (map fst items)
                  (filter (fun c => (0 <? size c)%Z) (children node)) /\
      Display.descending (map fst items) /\
      (Display.shown_children node <> [] ->
       exists rects,
         squarify (map (fun c => of_int (size c))
                       (Display.shown_children node))
                  (rect_area width height) = Some (Ok rects) /\
         (List.length rects = List.length (Display.shown_children node) ->
          map snd items = rects) /\
         (List.length rects <> List.length (Display.shown_children node) ->
          fallback_layout (map (fun c => of_int (size c))
                               (Display.shown_children node))
                          (rect_area width height)
          = Ok (map snd items))).
Proof.
  pose proof (Display.shown_children_sorted node) as [Hperm Hdesc].
  unfold redraw.
  destruct (Display.shown_children node) as [|k0 ks] eqn:Ek.
  { exists (Ok []). split; [reflexivity|].
    intros items [= <-]. split; [reflexivity|].
    split; [exact Hperm|]. split; [exact Hdesc|]. intros H. congruence. }
  cbv iota. rewrite <- Ek in *. clear Ek k0 ks.
  set (kids := Display.shown_children node) in *.
  set (values := map (fun c => of_int (size c)) kids).
  assert (Hdraw : forall rects',
             List.length rects' = List.length kids ->
             forall items,
               draw (combine kids rects') [] = Ok items ->
               map fst items = kids /\ map snd items = rects').
  { intros rects' Hlen items H. apply draw_records in H.
    cbn [app] in H. subst items.
    split; [apply combine_fst|apply combine_snd]; exact Hlen. }
  destruct (squarify_returns values (rect_area width height))
    as (res & Hrun & _).
  rewrite Hrun. destruct res as [rects|e].
  2:{ exists (Raise e). split; [reflexivity|]. intros items H. discriminate. }
  destruct (Nat.eqb (List.length rects) (List.length kids)) eqn:En.
  - apply Nat.eqb_eq in En. cbn [bind].
    eexists. split; [reflexivity|].
    intros items Hit. destruct (Hdraw rects En items Hit) as [Hf Hs].
    split; [exact Hf|]. rewrite Hf.
    split; [exact Hperm|]. split; [exact Hdesc|].
    intros _. exists rects.
    split; [reflexivity|]. split; [intros _; exact Hs|].
    intros Hne. contradiction.
  - apply Nat.eqb_neq in En.
    destruct (fallback_layout values (rect_area width height))
      as [rects'|e] eqn:Ef; cbn [bind].
    + pose proof (fallback_layout_length _ _ Ef) as Hlen.
      unfold values in Hlen. rewrite length_map in Hlen.
      eexists. split; [reflexivity|].
      intros items Hit. destruct (Hdraw rects' Hlen items Hit) as [Hf Hs].
      split; [exact Hf|]. rewrite Hf.
      split; [exact Hperm|]. split; [exact Hdesc|].
      intros _. exists rects.
      split; [reflexivity|]. split; [intros Heq; contradiction|].
      intros _. rewrite Hs. reflexivity.
    + exists (Raise e). split; [reflexivity|]. intros items H. discriminate.
Qed.

(** C2, as the code has it.  For every non-empty sequence of strictly
    positive weights and every rectangle wider and taller than one unit: in
    exact arithmetic the i-th rectangle that [squarify] returns is that of
    the i-th weight, with the weight's share of the area, and the areas add
    up to [width * height].  As to the count, whatever the arithmetic
    computes [squarify] ends and, unless an operation raises, returns at
    most one rectangle per weight; in floating point it can return fewer
    ([Binary64] has an example). *)
Theorem squarify_areas_and_count
        (weights : list Q) (area : Treemap.Rect)
        (values : list num) (rect : Rect) :
  (weights <> [] -> Treemap.all_pos weights ->
   (1 < Treemap.rw area)%Q -> (1 < Treemap.rh area)%Q ->
   exists out,
     Treemap.squarify weights area = Some (Ok out) /\
     (forall i rc,
         nth_error out i = Some rc ->
         exists v,
           nth_error weights i = Some v /\
           (Treemap.area rc
            == v * (Treemap.rw area * Treemap.rh area
                    / Treemap.sum weights))%Q) /\
     (Treemap.sum (map Treemap.area out)
      == Treemap.rw area * Treemap.rh area)%Q) /\
  (exists res,
      squarify values rect = Some res /\
      forall out,
        res = Ok out -> (List.length out <= List.length values)%nat).
Proof.
  split.
  - intros Hne Hpos Hw Hh.
    pose proof (Treemap.filter_positive_id Hpos) as Hf.
    assert (Hne' : filter Treemap.positive weights <> [])
      by (rewrite Hf; exact Hne).
    destruct (@Treemap.squarify_exact_shares weights area Hw Hh Hne')
      as (out & Hrun & Hshares & Hsum).
    rewrite Hf in Hshares. exists out.
    split; [exact Hrun|]. split; [exact Hshares|exact Hsum].
  - destruct (squarify_returns values rect) as (res & Hrun & Hlen).
    exists res. split; [exact Hrun|].
    intros out Hout. specialize (Hlen out Hout).
    pose proof (filter_length_le positive values). lia.
Qed.


(** X10.  [redraw] leaves no child of positive size without a rectangle.
    Whatever the arithmetic computes, [redraw] ends and, unless an
    operation raises, records exactly one rectangle for every child of
    positive size, each child once and none before a larger one: the
    rectangles of [squarify] when it returns one per child, and those of the
    fallback strip when it returns any other number. *)
Theorem redraw_one_rectangle_per_child (width height : Z) (node : Node) :
  exists res,
    redraw width height node = Some res /\
    forall items,
      res = Ok items ->
      map fst items = Display.shown_children node /\
      Permutation (map fst items)
                  (filter (fun c => (0 <? size c)%Z) (children node)) /\
      Display.descending (map fst items) /\
      (Display.shown_children node <> [] ->
       exists rects,
         squarify (map (fun c => of_int (size c))
                       (Display.shown_children node))
                  (rect_area width height) = Some (Ok rects) /\
         (List.length rects = List.length (Display.shown_children node) ->
          map snd items = rects) /\
         (List.length rects <> List.length (Display.shown_children node) ->
          fallback_layout (map (fun c => of_int (size c))
                               (Display.shown_children node))
                          (rect_area width height)
          = Ok (map snd items))).
Proof. apply redraw_spec. Qed.

End Arithmetic.

End Numbers.

(** ** Exact arithmetic

    The functions of [Treemap] are those of [Numbers] with exact
    operations on rationals.  Infinity is [float("inf")], which the layout
    only compares and never computes with. *)

Module Exact.

Import Treemap.
Local Open Scope Q_scope.
Local Open Scope result_scope.

Definition of_int (z : Z) : efloat := Fin (inject_Z z).

Definition arith (f : Q -> Q -> Q) (a b : efloat) : result efloat :=
  match a, b with
  | Fin x, Fin y => Ok (Fin (f x y))
  | _, _ => Ok Inf
  end.

Definition add : efloat -> efloat -> result efloat := arith Qplus.
Definition sub : efloat -> efloat -> result efloat := arith Qminus.
Definition mul : efloat -> efloat -> result efloat := arith Qmult.

Definition truediv (a b : efloat) : result efloat :=
  match a, b with
  | Fin x, Fin y => q <- fdiv x y ;; Ok (Fin q)
  | _, _ => Ok Inf
  end.

Definition pow2 (a : efloat) : result efloat :=
  match a with
  | Fin x => Ok (Fin (sq x))
  | Inf => Ok Inf
  end.

Definition total (l : list efloat) : result efloat :=
  fold_left (fun acc x => a <- acc ;; add a x) l (Ok (Fin 0)).

Definition lt (a b : efloat) : bool :=
  match a, b with
  | Fin x, Fin y => if Qlt_le_dec x y then true else false
  | Fin _, Inf => true
  | Inf, _ => false
  end.

(** A rectangle and a loop state of [Treemap] as those of [Numbers]. *)
Definition num_rect (r : Rect) : Numbers.Rect efloat :=
  Numbers.mkRect (Fin (rx r)) (Fin (ry r)) (Fin (rw r)) (Fin (rh r)).

Definition num_state (st : loop_state) : Numbers.loop_state efloat :=
  Numbers.mkState (map Fin (st_vals st)) (map Fin (st_row st))
                  (num_rect (st_r st)) (map num_rect (st_out st)).

Definition lift (A B : Type) (f : A -> B) (m : result A) : result B :=
  x <- m ;; Ok (f x).

Lemma total_fin (row : list Q) :
  total (map Fin row) = Ok (Fin (sum row)).
Proof.
  unfold total, sum. generalize 0 as a.
  induction row as [|x tl IH]; intros a; [reflexivity|].
  cbn [map fold_left bind add arith]. apply IH.
Qed.

Lemma max_list_fin (x : Q) (tl : list Q) :
  Numbers.max_list lt (Fin x) (map Fin tl) = Fin (max_list x tl).
Proof.
  unfold Numbers.max_list, max_list. revert x.
  induction tl as [|y tl IH]; intros x; [reflexivity|].
  cbn [map fold_left]. unfold Numbers.max2 at 2, max2 at 2, lt.
  destruct (Qlt_le_dec x y); apply IH.
Qed.

Lemma min_list_fin (x : Q) (tl : list Q) :
  Numbers.min_list lt (Fin x) (map Fin tl) = Fin (min_list x tl).
Proof.
  unfold Numbers.min_list, min_list. revert x.
  induction tl as [|y tl IH]; intros x; [reflexivity|].
  cbn [map fold_left]. unfold Numbers.min2 at 2, min2 at 2, lt.
  destruct (Qlt_le_dec y x); apply IH.
Qed.

Lemma worst_aspect_ratio_fin (row : list Q) (s : Q) :
  Numbers.worst_aspect_ratio of_int Inf mul truediv pow2 total efloat_leb lt
                             (map Fin row) (Fin s)
  = worst_aspect_ratio row s.
Proof.
  destruct row as [|x tl]; [reflexivity|].
  unfold Numbers.worst_aspect_ratio, worst_aspect_ratio.
  change (map Fin (x :: tl)) with (Fin x :: map Fin tl).
  cbn [efloat_leb of_int]. change (inject_Z 0) with 0.
  destruct (Qle_bool s 0); [reflexivity|].
  change (Fin x :: map Fin tl) with (map Fin (x :: tl)).
  rewrite total_fin, max_list_fin, min_list_fin.
  cbn [bind pow2 mul arith truediv].
  destruct (fdiv (sq s * max_list x tl) (sq (sum (x :: tl)))) as [a|e];
    cbn [bind]; [|reflexivity].
  destruct (fdiv (sq (sum (x :: tl))) (sq s * min_list x tl)) as [b|e];
    cbn [bind]; [|reflexivity].
  unfold Numbers.max2, max2, lt. destruct (Qlt_le_dec a b); reflexivity.
Qed.

Lemma layout_h_fin (row : list Q) :
  forall cx y row_h out,
    Numbers.layout_h add truediv (map Fin row) (Fin cx) (Fin y) (Fin row_h)
                     (map num_rect out)
    = lift (map num_rect) (layout_h row cx y row_h out).
Proof.
  induction row as [|v tl IH]; intros cx y row_h out; [reflexivity|].
  cbn [map Numbers.layout_h layout_h truediv].
  destruct (fdiv v row_h) as [w'|e]; cbn [bind add arith]; [|reflexivity].
  rewrite <- IH. rewrite map_app. reflexivity.
Qed.

Lemma layout_v_fin (row : list Q) :
  forall x cy col_w out,
    Numbers.layout_v add truediv (map Fin row) (Fin x) (Fin cy) (Fin col_w)
                     (map num_rect out)
    = lift (map num_rect) (layout_v row x cy col_w out).
Proof.
  induction row as [|v tl IH]; intros x cy col_w out; [reflexivity|].
  cbn [map Numbers.layout_v layout_v truediv].
  destruct (fdiv v col_w) as [h'|e]; cbn [bind add arith]; [|reflexivity].
  rewrite <- IH. rewrite map_app. reflexivity.
Qed.

Lemma layout_row_fin (row : list Q) (r : Rect) (hz : bool) :
  Numbers.layout_row of_int add truediv total efloat_leb
                     (map Fin row) (num_rect r) hz
  = lift (map num_rect) (layout_row row r hz).
Proof.
  destruct r as [x y w h].
  unfold Numbers.layout_row, layout_row, num_rect. cbn [rx ry rw rh].
  rewrite total_fin. cbn [bind efloat_leb of_int].
  change (inject_Z 0) with 0.
  destruct (Qle_bool (sum row) 0 || Qle_bool w 0 || Qle_bool h 0);
    [reflexivity|].
  destruct hz; cbn [truediv].
  - destruct (fdiv (sum row) w) as [row_h|e]; cbn [bind]; [|reflexivity].
    apply (layout_h_fin row x y row_h []).
  - destruct (fdiv (sum row) h) as [col_w|e]; cbn [bind]; [|reflexivity].
    apply (layout_v_fin row x y col_w []).
Qed.

Lemma leftover_rect_fin (row : list Q) (r : Rect) (hz : bool) :
  Numbers.leftover_rect of_int add sub truediv total efloat_leb
                        (num_rect r) (map Fin row) hz
  = lift num_rect (leftover_rect r row hz).
Proof.
  destruct r as [x y w h].
  unfold Numbers.leftover_rect, leftover_rect, num_rect. cbn [rx ry rw rh].
  rewrite total_fin. cbn [bind efloat_leb of_int].
  change (inject_Z 0) with 0.
  destruct (Qle_bool (sum row) 0 || Qle_bool w 0 || Qle_bool h 0);
    [reflexivity|].
  destruct hz; cbn [truediv].
  - destruct (fdiv (sum row) w) as [row_h|e]; cbn [bind]; reflexivity.
  - destruct (fdiv (sum row) h) as [col_w|e]; cbn [bind]; reflexivity.
Qed.

Lemma accepts_fin (row : list Q) (v short : Q) :
  Numbers.accepts of_int Inf mul truediv pow2 total efloat_leb lt
                  (map Fin row) (Fin v) (Fin short)
  = accepts row v short.
Proof.
  destruct row as [|x tl]; [reflexivity|].
  unfold Numbers.accepts, accepts.
  change (map Fin (x :: tl)) with (Fin x :: map Fin tl).
  cbv iota.
  change (Fin x :: map Fin tl) with (map Fin (x :: tl)).
  change [Fin v] with (map Fin [v]). rewrite <- map_app.
  rewrite !worst_aspect_ratio_fin. reflexivity.
Qed.

Lemma min2_fin (a b : Q) :
  Numbers.min2 lt (Fin a) (Fin b) = Fin (min2 a b).
Proof.
  unfold Numbers.min2, min2, lt. destruct (Qlt_le_dec b a); reflexivity.
Qed.

Lemma squarify_step_fin (v : Q) (rest row : list Q) (r : Rect)
      (out : list Rect) :
  Numbers.squarify_step of_int Inf add sub mul truediv pow2 total
                        efloat_leb lt
                        (Fin v) (map Fin rest) (map Fin row) (num_rect r)
                        (map num_rect out)
  = lift num_state (squarify_step v rest row r out).
Proof.
  unfold Numbers.squarify_step, squarify_step.
  change (Numbers.rw (num_rect r)) with (Fin (rw r)).
  change (Numbers.rh (num_rect r)) with (Fin (rh r)).
  rewrite min2_fin, accepts_fin.
  destruct (accepts row v (min2 (rw r) (rh r))) as [[|]|e]; cbn [bind lift].
  - unfold num_state. cbn [st_vals st_row st_r st_out].
    rewrite map_app. reflexivity.
  - change (Numbers.is_horizontal efloat_leb (num_rect r))
      with (is_horizontal r).
    rewrite layout_row_fin, leftover_rect_fin.
    destruct (layout_row row r (is_horizontal r)) as [rects|e];
      cbn [bind lift]; [|reflexivity].
    destruct (leftover_rect r row (is_horizontal r)) as [r'|e];
      cbn [bind lift]; [|reflexivity].
    unfold num_state. cbn [st_vals st_row st_r st_out map].
    rewrite map_app. reflexivity.
  - reflexivity.
Qed.

Lemma squarify_loop_fin (fuel : nat) :
  forall st,
    Numbers.squarify_loop of_int Inf add sub mul truediv pow2 total
                          efloat_leb lt fuel (num_state st)
    = option_map (lift num_state) (squarify_loop fuel st).
Proof.
  induction fuel as [|fuel IH]; intros [vals row r out].
  - destruct vals; reflexivity.
  - destruct vals as [|v rest]; [reflexivity|].
    cbn [squarify_loop Numbers.squarify_loop num_state
         st_vals st_row st_r st_out
         Numbers.st_vals Numbers.st_row Numbers.st_r Numbers.st_out map].
    rewrite squarify_step_fin.
    destruct (squarify_step v rest row r out) as [st'|e]; cbn [lift bind].
    + apply IH.
    + reflexivity.
Qed.

Lemma positive_fin (v : Q) :
  Numbers.positive of_int lt (Fin v) = positive v.
Proof.
  unfold Numbers.positive, positive, lt, of_int.
  change (inject_Z 0) with 0.
  destruct (Qlt_le_dec 0 v) as [H|H].
  - symmetry. apply negb_true_iff.
    destruct (Qle_bool v 0) eqn:E; [|reflexivity].
    apply Qle_bool_iff in E. lra.
  - symmetry. apply negb_false_iff. apply Qle_bool_iff. exact H.
Qed.

Lemma filter_positive_fin (values : list Q) :
  filter (Numbers.positive of_int lt) (map Fin values)
  = map Fin (filter positive values).
Proof.
  induction values as [|v tl IH]; [reflexivity|].
  cbn [map filter]. rewrite positive_fin, IH.
  destruct (positive v); reflexivity.
Qed.

Lemma mapM_mul_fin (scale : Q) (vals : list Q) :
  Numbers.mapM (fun v => mul v (Fin scale)) (map Fin vals)
  = Ok (map Fin (map (fun v => v * scale) vals)).
Proof.
  induction vals as [|v tl IH]; [reflexivity|].
  cbn [map Numbers.mapM mul arith bind]. rewrite IH. reflexivity.
Qed.

(** [squarify] over exact numbers is [squarify] of [Treemap]. *)
Lemma squarify_fin (values : list Q) (rect : Rect) :
  Numbers.squarify of_int Inf (Fin 0) add sub mul truediv pow2 total
                   efloat_leb lt (map Fin values) (num_rect rect)
  = option_map (lift (map num_rect)) (squarify values rect).
Proof.
  destruct rect as [x y w h].
  unfold Numbers.squarify, squarify, num_rect. cbn [rx ry rw rh].
  cbn [efloat_leb of_int]. change (inject_Z 1) with 1.
  destruct (Qle_bool w 1 || Qle_bool h 1); [reflexivity|].
  rewrite filter_positive_fin.
  destruct (filter positive values) as [|v0 vs] eqn:Ef; [reflexivity|].
  change (map Fin (v0 :: vs)) with (Fin v0 :: map Fin vs). cbv iota.
  change (Fin v0 :: map Fin vs) with (map Fin (v0 :: vs)).
  unfold Numbers.scaled. rewrite total_fin. cbn [bind mul arith].
  change (lt (of_int 0) (Fin (sum (v0 :: vs))))
    with (Numbers.positive of_int lt (Fin (sum (v0 :: vs)))).
  rewrite positive_fin.
  assert (Hscale :
            (scale <- (if positive (sum (v0 :: vs))
                       then truediv (Fin (w * h)) (Fin (sum (v0 :: vs)))
                       else Ok (Fin 0)) ;;
             Numbers.mapM (fun v => mul v scale) (map Fin (v0 :: vs)))
            = (scale <- (if positive (sum (v0 :: vs))
                         then fdiv (w * h) (sum (v0 :: vs)) else Ok 0) ;;
               Ok (map Fin (map (fun v => v * scale) (v0 :: vs))))).
  { destruct (positive (sum (v0 :: vs))); cbn [truediv].
    - destruct (fdiv (w * h) (sum (v0 :: vs))) as [scale|e]; cbn [bind];
        [apply mapM_mul_fin|reflexivity].
    - cbn [bind]. apply mapM_mul_fin. }
  rewrite Hscale. clear Hscale.
  destruct (if positive (sum (v0 :: vs))
            then fdiv (w * h) (sum (v0 :: vs)) else Ok 0) as [scale|e];
    cbn [bind]; [|reflexivity].
  set (vals := map (fun v => v * scale) (v0 :: vs)).
  rewrite length_map.
  change (Numbers.mkState (map Fin vals) [] (Numbers.mkRect (Fin x) (Fin y) (Fin w) (Fin h)) [])
    with (num_state (mkState vals [] (mkRect x y w h) [])).
  rewrite squarify_loop_fin.
  destruct (squarify_loop (2 * List.length vals)
                          (mkState vals [] (mkRect x y w h) []))
    as [[st|e]|]; cbn [option_map lift bind]; try reflexivity.
  destruct st as [vals' row r out].
  cbn [num_state Numbers.st_row Numbers.st_r Numbers.st_out
       st_vals st_row st_r st_out].
  destruct row as [|x0 row]; [reflexivity|].
  change (map Fin (x0 :: row)) with (Fin x0 :: map Fin row). cbv iota.
  change (Fin x0 :: map Fin row) with (map Fin (x0 :: row)).
  change (Numbers.is_horizontal efloat_leb (num_rect r))
    with (is_horizontal r).
  rewrite layout_row_fin.
  destruct (layout_row (x0 :: row) r (is_horizontal r)) as [rects|e];
    cbn [lift bind]; [|reflexivity].
  rewrite <- map_app. reflexivity.
Qed.

End Exact.

(** ** IEEE doubles

    The numbers of [Numbers] as binary64 floats: [+], [-], [*] and [/] round
    to nearest, ties to even; [/] raises [ZeroDivisionError] on a zero
    divisor; [x**2] is the rounded square and raises [OverflowError] when
    it is out of range; [sum] adds from left to right, as the interpreter
    did before Python 3.12 (it compensates the rounding errors since); an
    [int] is taken for the nearest double (the interpreter keeps an [int]
    exact until it meets a [float]).  The examples below come out the same
    either way. *)

Module Binary64.

Import PrimFloat.
Local Open Scope float_scope.

Definition of_int (z : Z) : float :=
  FloatOps.SF2Prim
    (SpecFloat.binary_normalize FloatOps.prec FloatOps.emax z 0 false).

Definition add (a b : float) : result float := Ok (a + b).
Definition sub (a b : float) : result float := Ok (a - b).
Definition mul (a b : float) : result float := Ok (a * b).

Definition truediv (a b : float) : result float :=
  if b =? 0 then Raise ZeroDivisionError else Ok (a / b).

Definition pow2 (a : float) : result float :=
  let r := a * a in
  if is_infinity r && negb (is_infinity a) then Raise OverflowError
  else Ok r.

Definition sum (l : list float) : result float :=
  Ok (fold_left PrimFloat.add l 0).

Definition nonzero (a : float) : bool := negb (a =? 0).

Local Abbreviation Rect := (Numbers.Rect float).

Definition squarify : list float -> Rect -> option (result (list Rect)) :=
  Numbers.squarify of_int infinity 0 add sub mul truediv pow2 sum
                   PrimFloat.leb PrimFloat.ltb.

Definition redraw : Z -> Z -> Node -> option (result (list (Node * Rect))) :=
  Numbers.redraw of_int infinity 0 add sub mul truediv pow2 sum
                 PrimFloat.leb PrimFloat.ltb nonzero.

(** [squarify([2.0**60, 1.0], (0.0, 0.0, 100.0, 100.0))].  The total
    [2.0**60 + 1.0] rounds to [2.0**60], so the first weight is scaled to
    the whole area, [10000.0]; its row takes the height [10000.0 / 100.0],
    and [100.0 - 100.0] is left for the second weight, whose row
    [layout_row] refuses ([h <= 0]): one rectangle for two positive
    weights.  (Every operation on the way is exact but for that sum and
    the addition of the tiny second value to [10000.0].) *)
Lemma squarify_areas_and_count_witness :
  (exists out,
      Treemap.squarify [6; 6; 4; 3; 2; 2; 1]%Q (Treemap.mkRect 0 0 6 4)
      = Some (Ok out) /\
      (Treemap.sum (map Treemap.area out) == 6 * 4)%Q) /\
  (exists out,
      squarify [0x1p60; 1] (Numbers.mkRect 0 0 100 100) = Some (Ok out) /\
      (List.length out <= 2)%nat /\
      out = [Numbers.mkRect 0 0 100 100]).
Proof.
  destruct (@Numbers.squarify_areas_and_count
              float of_int infinity 0 add sub mul truediv pow2 sum
              PrimFloat.leb PrimFloat.ltb
              [6; 6; 4; 3; 2; 2; 1]%Q (Treemap.mkRect 0 0 6 4)
              [0x1p60; 1] (Numbers.mkRect 0 0 100 100))
    as [Hexact (res & Hrun & Hlen)].
  split.
  - destruct Hexact as (out & Hout & _ & Hsum).
    + discriminate.
    + repeat constructor.
    + reflexivity.
    + reflexivity.
    + exists out. split; [exact Hout|exact Hsum].
  - exists [Numbers.mkRect 0 0 100 100].
    assert (Hres : res = Ok [Numbers.mkRect 0 0 100 100]).
    { vm_compute in Hrun. injection Hrun as <-. reflexivity. }
    split; [reflexivity|]. split; [|reflexivity].
    apply (Hlen _ Hres).
Defined.


(** A directory with a file of one byte and a file of [2**60] bytes, on a
    canvas of 1000 by 680: [squarify] returns one rectangle for the two
    children, and the fallback strip supplies the two that are recorded. *)
Definition big_and_small : Node :=
  mkNode "/r" "r" (2 ^ 60 + 1) true
         [mkNode "/r/a" "a" 1 false []; mkNode "/r/b" "b" (2 ^ 60) false []].

Lemma redraw_one_rectangle_per_child_witness :
  exists items,
    redraw 1000 680 big_and_small = Some (Ok items) /\
    map (fun it => name (fst it)) items = ["b"; "a"]%string /\
    squarify [0x1p60; 1] (Numbers.mkRect 6 6 988 668)
    = Some (Ok [Numbers.mkRect 6 6 988 668]) /\
    map snd items
    = [Numbers.mkRect 6 6 988 668;
       Numbers.mkRect 994 6 (988 * (1 / 0x1p60)) 668].
Proof.
  destruct (@Numbers.redraw_one_rectangle_per_child
              float of_int infinity 0 add sub mul truediv pow2 sum
              PrimFloat.leb PrimFloat.ltb nonzero 1000 680 big_and_small)
    as (res & Hrun & Hres).
  assert (Hok : exists items, res = Ok items).
  { vm_compute in Hrun. injection Hrun as <-. eexists. reflexivity. }
  destruct Hok as (items & ->).
  destruct (Hres items eq_refl) as (Hfst & _).
  exists items. split; [exact Hrun|].
  split; [rewrite <- (map_map fst name), Hfst; reflexivity|].
  split; [reflexivity|].
  vm_compute in Hrun. injection Hrun as <-. reflexivity.
Defined.

(** Rounding can also leave a zero to divide by: the second weight is
    scaled to [0.0], and [worst_aspect_ratio] divides by
    [short_side**2 * mn]. *)
Example squarify_divides_by_zero :
  squarify [0x1p1000; 0x1p-1000] (Numbers.mkRect 0 0 100 100)
  = Some (Raise ZeroDivisionError).
Proof. reflexivity. Qed.

End Binary64.

(** ** Navigation: the zoom stack *)

Module Navigation.

Open Scope string_scope.

(** The part of the application state that zooming reads and writes:
    [self.current_tree], [self.zoom_stack], the texts of [self.path_var] and
    [self.size_var], the texts of the breadcrumb buttons and whether the
    Back button is enabled.  The canvas is redrawn from [current_tree] by
    [redraw] after each change. *)
Record ui : Type := mkUi {
  current_tree : option Node;
  zoom_stack : list Node;
  path_var : string;
  size_var : string;
  breadcrumb : list string;
  up_btn : bool
}.

(** [text = n.name if i > 0 else n.path] *)
Definition crumb_texts (nodes : list Node) : list string :=
  match nodes with
  | [] => []
  | n :: rest => path n :: map name rest
  end.

(** [[
    def _draw_breadcrumb(self, nodes):
        for child in self.breadcrumb.winfo_children():
            child.destroy()
        if not nodes:
            self.up_btn.config(state="disabled")
            return
        ...
        for i, n in enumerate(nodes):
            text = n.name if i > 0 else n.path
            ...
        self.up_btn.config(state="disabled" if len(nodes) <= 1 else "normal")
]] *)
Definition _draw_breadcrumb (nodes : list Node) (u : ui) : ui :=
  match nodes with
  | [] =>
      mkUi (current_tree u) (zoom_stack u) (path_var u) (size_var u) [] false
  | _ =>
      mkUi (current_tree u) (zoom_stack u) (path_var u) (size_var u)
           (crumb_texts nodes) (negb (Nat.leb (List.length nodes) 1))
  end.

(** [[
    def _update_header(self, node):
        self.path_var.set(node.path)
        self.size_var.set(f"Total: {human_size(node.size)}")
        self._draw_breadcrumb(self.zoom_stack)
]]
    An exception of [human_size] leaves the handler with the state as it is
    by then. *)
Definition _update_header (node : Node) (u : ui) : ui * result unit :=
  let u := mkUi (current_tree u) (zoom_stack u) (path node) (size_var u)
                (breadcrumb u) (up_btn u) in
  match Utilities.human_size (size node) with
  | Raise ex => (u, Raise ex)
  | Ok s =>
      let u := mkUi (current_tree u) (zoom_stack u) (path_var u)
                    ("Total: " ++ s) (breadcrumb u) (up_btn u) in
      (_draw_breadcrumb (zoom_stack u) u, Ok tt)
  end.

(** [[
        def apply_tree():
            ...
            self.current_tree = tree
            self.zoom_stack = [tree]
            self._update_header(tree)
            self.redraw()
]] *)
Definition apply_tree (tree : Node) (u : ui) : ui * result unit :=
  let u := mkUi (Some tree) [tree] (path_var u) (size_var u)
                (breadcrumb u) (up_btn u) in
  _update_header tree u.

(** [[
    def on_left_click(self, event):
        node = self._node_at(event)
        if not node:
            return
        if node.is_dir and node.children:
            self.zoom_stack.append(node)
            self.current_tree = node
            self._update_header(node)
            self.redraw()
]]
    [clicked] is what [_node_at] returns. *)
Definition on_left_click (clicked : option Node) (u : ui) : ui * result unit :=
  match clicked with
  | None => (u, Ok tt)
  | Some node =>
      if is_dir node && negb (Nat.eqb (List.length (children node)) 0) then
        let u := mkUi (Some node) (zoom_stack u ++ [node])%list (path_var u)
                      (size_var u) (breadcrumb u) (up_btn u) in
        _update_header node u
      else (u, Ok tt)
  end.

(** [[
    def zoom_out(self):
        if len(self.zoom_stack) > 1:
            self.zoom_stack.pop()
            self.current_tree = self.zoom_stack[-1]
            self._update_header(self.current_tree)
            self.redraw()
]] *)
Definition zoom_out (u : ui) : ui * result unit :=
  if Nat.ltb 1 (List.length (zoom_stack u)) then
    let stack := removelast (zoom_stack u) in
    match rev stack with
    | [] => (mkUi (current_tree u) stack (path_var u) (size_var u)
                  (breadcrumb u) (up_btn u), Raise OtherError)
    | top :: _ =>
        _update_header top
          (mkUi (Some top) stack (path_var u) (size_var u)
                (breadcrumb u) (up_btn u))
    end
  else (u, Ok tt).

(** The callback of the breadcrumb button number [index]:
[[
            def cb():
                self.zoom_stack = self.zoom_stack[: index + 1]
                self.current_tree = self.zoom_stack[-1]
                self._update_header(self.current_tree)
                self.redraw()
]]
    [zoom_stack[-1]] of an empty list raises [IndexError]. *)
Definition crumb_click (index : nat) (u : ui) : ui * result unit :=
  let stack := firstn (S index) (zoom_stack u) in
  match rev stack with
  | [] => (mkUi (current_tree u) stack (path_var u) (size_var u)
                (breadcrumb u) (up_btn u), Raise OtherError)
  | top :: _ =>
      _update_header top
        (mkUi (Some top) stack (path_var u) (size_var u)
              (breadcrumb u) (up_btn u))
  end.

(** *** The state after each handler *)

(** The state shows the node [cur], reached through the nodes [init]: the
    stack is [init] followed by [cur], [cur] is the current tree, and the
    header, the breadcrumb and the Back button are those written for it. *)
Definition shows (u : ui) (init : list Node) (cur : Node) : Prop :=
  zoom_stack u = (init ++ [cur])%list /\
  current_tree u = Some cur /\
  path_var u = path cur /\
  (exists s, Utilities.human_size (size cur) = Ok s
             /\ size_var u = "Total: " ++ s) /\
  breadcrumb u = crumb_texts (init ++ [cur]) /\
  up_btn u = negb (Nat.leb (List.length (init ++ [cur])) 1).

Definition printable (n : Node) : Prop :=
  exists s, Utilities.human_size (size n) = Ok s.

Lemma shows_unique (u u' : ui) (init : list Node) (cur : Node) :
  shows u init cur -> shows u' init cur -> u = u'.
Proof.
  destruct u as [c z p sv b k], u' as [c' z' p' sv' b' k'].
  unfold shows. cbn.
  intros (-> & -> & -> & (s & Hs & ->) & -> & ->)
         (-> & -> & -> & (s' & Hs' & ->) & -> & ->).
  rewrite Hs in Hs'. injection Hs' as ->. reflexivity.
Qed.

(** [_update_header] on a state whose stack ends with the node. *)
Lemma update_header_shows (u : ui) (init : list Node) (cur : Node) :
  zoom_stack u = (init ++ [cur])%list -> current_tree u = Some cur ->
  printable cur ->
  exists u', _update_header cur u = (u', Ok tt) /\ shows u' init cur.
Proof.
  intros Hz Hc [s Hs]. unfold _update_header. rewrite Hs. cbn [zoom_stack].
  eexists. split; [reflexivity|].
  unfold _draw_breadcrumb. rewrite Hz.
  destruct (init ++ [cur])%list as [|n0 l0] eqn:E.
  { destruct init; discriminate. }
  cbv iota. rewrite <- E in *.
  unfold shows. cbn [zoom_stack current_tree path_var size_var breadcrumb
                       up_btn].
  split; [reflexivity|]. split; [exact Hc|]. split; [reflexivity|].
  split; [exists s; split; [exact Hs|reflexivity]|].
  split; reflexivity.
Qed.

Lemma rev_snoc (A : Type) (l : list A) (a : A) : rev (l ++ [a]) = a :: rev l.
Proof. rewrite rev_app_distr. reflexivity. Qed.

Lemma apply_tree_shows (tree : Node) (u : ui) :
  printable tree ->
  exists u', apply_tree tree u = (u', Ok tt) /\ shows u' [] tree.
Proof.
  intros Hp. unfold apply_tree. apply update_header_shows; auto.
Qed.

Lemma on_left_click_shows (u : ui) (init : list Node) (cur node : Node) :
  shows u init cur ->
  is_dir node = true -> children node <> [] -> printable node ->
  exists u',
    on_left_click (Some node) u = (u', Ok tt) /\
    shows u' (init ++ [cur]) node.
Proof.
  intros (Hz & _) Hd Hk Hp. unfold on_left_click. rewrite Hd.
  destruct (children node) as [|k ks]; [congruence|].
  cbn [List.length Nat.eqb negb andb].
  apply update_header_shows; [cbn [zoom_stack]; rewrite Hz| |];
    auto.
Qed.

Lemma zoom_out_shows (u : ui) (init : list Node) (prev cur : Node) :
  shows u (init ++ [prev]) cur -> printable prev ->
  exists u', zoom_out u = (u', Ok tt) /\ shows u' init prev.
Proof.
  intros (Hz & _) Hp. unfold zoom_out. rewrite Hz.
  assert (Hlen : Nat.ltb 1 (List.length ((init ++ [prev]) ++ [cur])) = true).
  { apply Nat.ltb_lt. rewrite !length_app. cbn [List.length]. lia. }
  rewrite Hlen, removelast_last, rev_snoc.
  apply update_header_shows; auto.
Qed.

Lemma zoom_out_at_root (u : ui) (cur : Node) :
  shows u [] cur -> zoom_out u = (u, Ok tt).
Proof.
  intros (Hz & _). unfold zoom_out. rewrite Hz. reflexivity.
Qed.

Lemma firstn_succ_nth (A : Type) (d : A) (l : list A) :
  forall i, (i < List.length l)%nat ->
            firstn (S i) l = (firstn i l ++ [nth i l d])%list.
Proof.
  induction l as [|a l IH]; intros i Hi; [cbn in Hi; lia|].
  destruct i as [|i]; [reflexivity|].
  cbn [List.length] in Hi.
  change (firstn (S (S i)) (a :: l)) with (a :: firstn (S i) l).
  rewrite IH by lia. reflexivity.
Qed.

Lemma crumb_click_shows (u : ui) (init : list Node) (cur d : Node)
      (index : nat) :
  shows u init cur ->
  (index < List.length (init ++ [cur]))%nat ->
  printable (nth index (init ++ [cur]) d) ->
  exists u',
    crumb_click index u = (u', Ok tt) /\
    shows u' (firstn index (init ++ [cur])) (nth index (init ++ [cur]) d).
Proof.
  intros (Hz & _) Hi Hp. unfold crumb_click. rewrite Hz.
  rewrite (firstn_succ_nth d _ Hi), rev_snoc.
  apply update_header_shows; auto.
Qed.

(** X11.  Zooming keeps the display in step with the stack.  After a tree
    is applied the stack holds the tree alone; a click on a directory that
    has children pushes it and makes it the current tree, any other click
    changes nothing; Back pops one level and never the last one: at the
    root it changes nothing.  After each of them the current tree is the
    top of the stack, the header shows its path and size, the breadcrumb
    lists the stack and the Back button is enabled exactly when the stack
    holds more than one node. *)
Theorem zoom_keeps_display_in_step :
  (forall tree u,
      printable tree ->
      exists u', apply_tree tree u = (u', Ok tt) /\ shows u' [] tree) /\
  (forall u init cur node,
      shows u init cur ->
      is_dir node = true -> children node <> [] -> printable node ->
      exists u',
        on_left_click (Some node) u = (u', Ok tt) /\
        shows u' (init ++ [cur]) node) /\
  (forall u node,
      is_dir node = false \/ children node = [] ->
      on_left_click (Some node) u = (u, Ok tt)) /\
  (forall u, on_left_click None u = (u, Ok tt)) /\
  (forall u init prev cur,
      shows u (init ++ [prev]) cur -> printable prev ->
      exists u', zoom_out u = (u', Ok tt) /\ shows u' init prev) /\
  (forall u cur, shows u [] cur -> zoom_out u = (u, Ok tt)).
Proof.
  split; [exact apply_tree_shows|].
  split; [exact on_left_click_shows|].
  split.
  { intros u node [H|H]; unfold on_left_click; rewrite H;
      [reflexivity|]. rewrite andb_false_r. reflexivity. }
  split; [reflexivity|].
  split; [exact zoom_out_shows|exact zoom_out_at_root].
Qed.

(** A directory [/r] with a subdirectory [/r/d] that holds a file. *)
Definition sub_dir : Node :=
  mkNode "/r/d" "d" 50 true [mkNode "/r/d/g" "g" 50 false []].
Definition top_dir : Node :=
  mkNode "/r" "r" 60 true [mkNode "/r/f" "f" 10 false []; sub_dir].
Definition blank : ui := mkUi None [] "No folder selected" "" [] false.

Lemma zoom_keeps_display_in_step_witness :
  exists u1 u2,
    apply_tree top_dir blank = (u1, Ok tt) /\ shows u1 [] top_dir /\
    on_left_click (Some sub_dir) u1 = (u2, Ok tt) /\
    shows u2 [top_dir] sub_dir.
Proof.
  destruct zoom_keeps_display_in_step as (Happly & Hclick & _).
  destruct (Happly top_dir blank) as (u1 & E1 & S1);
    [eexists; vm_compute; reflexivity|].
  destruct (Hclick u1 [] top_dir sub_dir S1) as (u2 & E2 & S2);
    [reflexivity|discriminate|eexists; vm_compute; reflexivity|].
  exists u1, u2. auto.
Defined.

(** X12.  Back undoes a zooming click: from a state that shows a node, a
    click on a directory with children followed by Back gives the same
    state again, header, breadcrumb and button included. *)
Theorem zoom_out_undoes_click (u u1 : ui) (init : list Node)
        (cur node : Node) :
  shows u init cur ->
  is_dir node = true -> children node <> [] -> printable node ->
  on_left_click (Some node) u = (u1, Ok tt) ->
  zoom_out u1 = (u, Ok tt).
Proof.
  intros Hs Hd Hk Hp Hclick.
  destruct (on_left_click_shows Hs Hd Hk Hp) as (u1' & E1 & S1).
  rewrite E1 in Hclick. injection Hclick as <-.
  assert (Hcur : printable cur).
  { destruct Hs as (_ & _ & _ & (s & Hs' & _) & _). exists s. exact Hs'. }
  destruct (@zoom_out_shows u1' init cur node S1 Hcur) as (u2 & E2 & S2).
  rewrite E2. f_equal. apply (@shows_unique u2 u init cur S2 Hs).
Qed.

Lemma zoom_out_undoes_click_witness :
  exists u1 u2,
    apply_tree top_dir blank = (u1, Ok tt) /\
    on_left_click (Some sub_dir) u1 = (u2, Ok tt) /\
    zoom_out u2 = (u1, Ok tt).
Proof.
  destruct (@apply_tree_shows top_dir blank) as (u1 & E1 & S1);
    [eexists; vm_compute; reflexivity|].
  assert (Hp : printable sub_dir) by (eexists; vm_compute; reflexivity).
  destruct (@on_left_click_shows u1 [] top_dir sub_dir S1 eq_refl
              ltac:(discriminate) Hp) as (u2 & E2 & _).
  exists u1, u2. split; [exact E1|]. split; [exact E2|].
  apply (@zoom_out_undoes_click u1 u2 [] top_dir sub_dir S1 eq_refl
           ltac:(discriminate) Hp E2).
Defined.

(** X13.  A click on the breadcrumb button number [index] cuts the stack
    back to its first [index + 1] nodes and shows the last of them. *)
Theorem crumb_click_cuts_stack (u : ui) (init : list Node) (cur d : Node)
        (index : nat) :
  shows u init cur ->
  (index < List.length (init ++ [cur]))%nat ->
  printable (nth index (init ++ [cur]) d) ->
  exists u',
    crumb_click index u = (u', Ok tt) /\
    zoom_stack u' = firstn (S index) (init ++ [cur]) /\
    shows u' (firstn index (init ++ [cur])) (nth index (init ++ [cur]) d).
Proof.
  intros Hs Hi Hp.
  destruct (@crumb_click_shows u init cur d index Hs Hi Hp) as (u' & E & S').
  exists u'. split; [exact E|]. split; [|exact S'].
  destruct S' as (Hz & _). rewrite Hz. symmetry.
  apply firstn_succ_nth. exact Hi.
Qed.

Lemma crumb_click_cuts_stack_witness :
  exists u1 u2 u3,
    apply_tree top_dir blank = (u1, Ok tt) /\
    on_left_click (Some sub_dir) u1 = (u2, Ok tt) /\
    crumb_click 0 u2 = (u3, Ok tt) /\ zoom_stack u3 = [top_dir].
Proof.
  destruct (@apply_tree_shows top_dir blank) as (u1 & E1 & S1);
    [eexists; vm_compute; reflexivity|].
  assert (Hp : printable sub_dir) by (eexists; vm_compute; reflexivity).
  destruct (@on_left_click_shows u1 [] top_dir sub_dir S1 eq_refl
              ltac:(discriminate) Hp) as (u2 & E2 & S2).
  destruct (@crumb_click_cuts_stack u2 [top_dir] sub_dir top_dir 0%nat S2)
    as (u3 & E3 & Hz & _);
    [cbn; lia|eexists; vm_compute; reflexivity|].
  exists u1, u2, u3. auto.
Defined.

End Navigation.

(** ** Exclusion rules *)

Module Exclude.

Import Strings.
Open Scope string_scope.

Section Matcher.

(** [os.path.isabs], [os.path.abspath] and [fnmatch.fnmatch]. *)
Variable isabs : string -> bool.
Variable abspath : string -> string.
Variable fnmatch : string -> string -> bool.

(** [any(ch in pat_n for ch in "*?[")] *)
Definition has_wildcard (pat_n : string) : bool :=
  contains pat_n "*" || contains pat_n "?" || contains pat_n "[".

(** The candidate path as compared:
    [os.path.abspath(path).replace("\\", "/").lower()]. *)
Definition norm_path (path : string) : string :=
  lower (replace_backslash (abspath path)).

(** The absolute rule as compared:
    [pat.strip().replace("\\", "/").lower().rstrip("/")]. *)
Definition norm_rule (pat : string) : string :=
  rstrip_slash (lower (replace_backslash (strip pat))).

(** [[
        for pat in self.exclude_patterns:
            pat_s = pat.strip()
            if not pat_s:
                continue
            is_abs = os.path.isabs(pat_s)
            pat_n = (pat_s if not is_abs else pat_s.replace("\\", "/")).lower()
            if is_abs:
                base = pat_n.rstrip("/")
                if path_n == base or path_n.startswith(base + "/"):
                    return True
                continue
            if fnmatch.fnmatch(name_n, pat_n) or fnmatch.fnmatch(path_n, pat_n):
                return True
            if not any(ch in pat_n for ch in "*?[") and name_n == pat_n:
                return True
        return False
]] *)
Fixpoint match_rules (path_n name_n : string) (pats : list string) : bool :=
  match pats with
  | [] => false
  | pat :: rest =>
      let pat_s := strip pat in
      if String.eqb pat_s "" then match_rules path_n name_n rest
      else
        let is_abs := isabs pat_s in
        let pat_n :=
          lower (if negb is_abs then pat_s else replace_backslash pat_s) in
        if is_abs then
          let base := rstrip_slash pat_n in
          if String.eqb path_n base || startswith path_n (base ++ "/")
          then true
          else match_rules path_n name_n rest
        else if fnmatch name_n pat_n || fnmatch path_n pat_n then true
        else if negb (has_wildcard pat_n) && String.eqb name_n pat_n then true
        else match_rules path_n name_n rest
  end.

(** [[
    def _should_exclude(self, path, is_dir, name):
        path_n = os.path.abspath(path).replace("\\", "/").lower()
        name_n = name.lower()
        for pat in self.exclude_patterns: ...
]] *)
Definition _should_exclude (exclude_patterns : list string)
           (path : string) (is_dir : bool) (name : string) : bool :=
  match_rules (norm_path path) (lower name) exclude_patterns.


End Matcher.


(** C7.  For an absolute-path rule, the matcher matches exactly when the
    normalized candidate path equals the normalized rule or continues it
    after a separator, which is to say exactly when the segments of the
    normalized rule are the leading segments of the normalized candidate
    path.  On POSIX paths in particular, the rule [/a/b] excludes [/a/b] and
    [/a/b/c] but not [/a/bc], and the rule [/foo] does not exclude
    [/foobar]. *)
Theorem absolute_rule_matches_segments
        (isabs : string -> bool) (abspath : string -> string)
        (fnmatch : string -> string -> bool)
        (rule path : string) (is_dir : bool) (name : string) :
  strip rule <> "" -> isabs (strip rule) = true ->
  (_should_exclude isabs abspath fnmatch [rule] path is_dir name = true <->
   norm_path abspath path = norm_rule rule \/
   exists rest, norm_path abspath path = norm_rule rule ++ "/" ++ rest) /\
  (_should_exclude isabs abspath fnmatch [rule] path is_dir name = true <->
   exists more,
     split_slash (norm_path abspath path)
     = (split_slash (norm_rule rule) ++ more)%list) /\
  (forall cwd d n,
      _should_exclude Posix.isabs (Posix.abspath cwd) Posix.fnmatch
                      ["/a/b"] "/a/b" d n = true /\
      _should_exclude Posix.isabs (Posix.abspath cwd) Posix.fnmatch
                      ["/a/b"] "/a/b/c" d n = true /\
      _should_exclude Posix.isabs (Posix.abspath cwd) Posix.fnmatch
                      ["/a/b"] "/a/bc" d n = false /\
      _should_exclude Posix.isabs (Posix.abspath cwd) Posix.fnmatch
                      ["/foo"] "/foobar" d n = false).
Proof.
  intros Hne Habs.
  assert (Hiff :
            _should_exclude isabs abspath fnmatch [rule] path is_dir name = true
            <-> norm_path abspath path = norm_rule rule \/
                exists rest,
                  norm_path abspath path = norm_rule rule ++ "/" ++ rest).
  { unfold _should_exclude. cbn [match_rules].
    apply String.eqb_neq in Hne. rewrite Hne, Habs. cbn [negb].
    fold (norm_rule rule).
    destruct (String.eqb (norm_path abspath path) (norm_rule rule)) eqn:E.
    - apply String.eqb_eq in E. cbn [orb]. split; [left; exact E|reflexivity].
    - apply String.eqb_neq in E. cbn [orb].
      destruct (startswith (norm_path abspath path) (norm_rule rule ++ "/"))
        eqn:S.
      + apply startswith_iff in S as [rest Hr].
        rewrite append_assoc in Hr.
        split; [intros _; right; exists rest; exact Hr|reflexivity].
      + split; [discriminate|]. intros [Heq|[rest Hr]]; [contradiction|].
        assert (startswith (norm_path abspath path) (norm_rule rule ++ "/")
                = true) as S'.
        { apply startswith_iff. exists rest.
          rewrite append_assoc. exact Hr. }
        congruence. }
  split; [exact Hiff|]. split.
  - rewrite Hiff. apply below_iff_segments.
  - intros cwd d n. repeat split; vm_compute; reflexivity.
Qed.

Lemma absolute_rule_matches_segments_witness :
  _should_exclude Posix.isabs (Posix.abspath "/home/u") Posix.fnmatch
                  ["/a/b/"] "/A/x/../b/c.txt" false "c.txt" = true /\
  _should_exclude Posix.isabs (Posix.abspath "/home/u") Posix.fnmatch
                  ["/a/b/"] "/a/bc" false "bc" = false.
Proof.
  split.
  - destruct (@absolute_rule_matches_segments
                Posix.isabs (Posix.abspath "/home/u") Posix.fnmatch
                "/a/b/" "/A/x/../b/c.txt" false "c.txt") as (_ & Hseg & _).
    + discriminate.
    + reflexivity.
    + apply (proj2 Hseg). exists ["c.txt"]. reflexivity.
  - destruct (@absolute_rule_matches_segments
                Posix.isabs (Posix.abspath "/home/u") Posix.fnmatch
                "/a/b/" "/a/bc" false "bc") as (_ & Hseg & _).
    + discriminate.
    + reflexivity.
    + apply not_true_is_false. intros E.
      apply (proj1 Hseg) in E. destruct E as [more Hm].
      vm_compute in Hm. discriminate.
Defined.


End Exclude.

(** ** The rule list: capture, quick rules, editing *)

Module Rules.

Import Strings Exclude.
Open Scope string_scope.

(** *** More on [strip] and [rstrip] *)

Lemma rstrip_with_idem (drop : ascii -> bool) (s : string) :
  rstrip_with drop (rstrip_with drop s) = rstrip_with drop s.
Proof.
  induction s as [|c s IH]; [reflexivity|]. cbn [rstrip_with].
  destruct (rstrip_with drop s) as [|c' r] eqn:E.
  - destruct (drop c) eqn:D; [reflexivity|].
    cbn [rstrip_with]. rewrite D. reflexivity.
  - cbn [rstrip_with]. cbn [rstrip_with] in IH.
    destruct (rstrip_with drop r) as [|c'' r'] eqn:E'.
    + destruct (drop c'); [discriminate|]. rewrite IH. reflexivity.
    + rewrite IH. reflexivity.
Qed.

(** A string that starts with a character that is kept still starts with
    it after [rstrip]. *)
Lemma rstrip_with_head (drop : ascii -> bool) (c : ascii) (s : string) :
  drop c = false ->
  exists r, rstrip_with drop (String c s) = String c r.
Proof.
  intros D. cbn [rstrip_with].
  destruct (rstrip_with drop s) as [|c' r].
  - rewrite D. exists "". reflexivity.
  - exists (String c' r). reflexivity.
Qed.

Lemma lstrip_head (s : string) :
  lstrip s = "" \/ exists c r, lstrip s = String c r /\ is_space c = false.
Proof.
  induction s as [|c s IH]; [left; reflexivity|]. cbn [lstrip].
  destruct (is_space c) eqn:E; [exact IH|].
  right. exists c, s. split; [reflexivity|exact E].
Qed.

Lemma strip_idem (s : string) : strip (strip s) = strip s.
Proof.
  unfold strip. destruct (lstrip_head s) as [->|(c & r & -> & Hc)];
    [reflexivity|].
  destruct (@rstrip_with_head is_space c r Hc) as [r' Hr]. rewrite Hr.
  cbn [lstrip]. rewrite Hc, <- Hr. apply rstrip_with_idem.
Qed.

(** What [rstrip] removes is a run of dropped characters. *)
Fixpoint all_dropped (drop : ascii -> bool) (s : string) : bool :=
  match s with
  | EmptyString => true
  | String c s' => drop c && all_dropped drop s'
  end.

Lemma rstrip_with_nil (drop : ascii -> bool) (s : string) :
  rstrip_with drop s = "" -> all_dropped drop s = true.
Proof.
  induction s as [|c s IH]; [reflexivity|]. cbn [rstrip_with all_dropped].
  destruct (rstrip_with drop s) as [|c' r]; [|discriminate].
  destruct (drop c); [intros _; apply IH; reflexivity|discriminate].
Qed.

Lemma rstrip_with_split (drop : ascii -> bool) (s : string) :
  exists t, s = rstrip_with drop s ++ t /\ all_dropped drop t = true.
Proof.
  induction s as [|c s IH]; [exists ""; split; reflexivity|].
  cbn [rstrip_with]. destruct (rstrip_with drop s) as [|c' r] eqn:E.
  - destruct (drop c) eqn:D.
    + exists (String c s). split; [reflexivity|].
      cbn [all_dropped]. rewrite D. apply rstrip_with_nil. exact E.
    + exists s. split; [reflexivity|]. apply rstrip_with_nil. exact E.
  - destruct IH as (t & Hs & Ht). exists t. split; [|exact Ht].
    cbn [append]. f_equal. exact Hs.
Qed.

Lemma replace_backslash_idem (s : string) :
  replace_backslash (replace_backslash s) = replace_backslash s.
Proof.
  induction s as [|c s IH]; [reflexivity|]. cbn [replace_backslash].
  rewrite IH. f_equal.
  destruct (Ascii.eqb c backslash) eqn:E; [reflexivity|]. rewrite E.
  reflexivity.
Qed.

(** *** Capturing the rules of a scan *)

Section Capture.

Variable isabs : string -> bool.
Variable abspath : string -> string.
Variable fnmatch : string -> string -> bool.

(** [[
    def _get_exclude_patterns(self):
        items = list(self.excl_list.get(0, tk.END))
        out = []
        for p in items:
            p = p.strip()
            if not p:
                continue
            if os.path.isabs(p):
                out.append(os.path.abspath(p).replace("\\", "/"))
            else:
                out.append(p)
        return out
]] *)
Fixpoint _get_exclude_patterns (items : list string) : list string :=
  match items with
  | [] => []
  | p :: rest =>
      let p := strip p in
      if String.eqb p "" then _get_exclude_patterns rest
      else if isabs p then
        replace_backslash (abspath p) :: _get_exclude_patterns rest
      else p :: _get_exclude_patterns rest
  end.

Lemma match_rules_stripped (path_n name_n p : string) (rest : list string) :
  match_rules isabs fnmatch path_n name_n (strip p :: rest)
  = match_rules isabs fnmatch path_n name_n (p :: rest).
Proof. cbn [match_rules]. rewrite strip_idem. reflexivity. Qed.

Lemma match_rules_cons_congr (path_n name_n p : string)
      (l1 l2 : list string) :
  match_rules isabs fnmatch path_n name_n l1
  = match_rules isabs fnmatch path_n name_n l2 ->
  match_rules isabs fnmatch path_n name_n (p :: l1)
  = match_rules isabs fnmatch path_n name_n (p :: l2).
Proof. intros H. cbn [match_rules]. rewrite H. reflexivity. Qed.

Lemma capture_relative (items : list string) (path_n name_n : string) :
  (forall p, In p items -> isabs (strip p) = false) ->
  _get_exclude_patterns items
  = filter (fun p => negb (String.eqb p "")) (map strip items) /\
  match_rules isabs fnmatch path_n name_n (_get_exclude_patterns items)
  = match_rules isabs fnmatch path_n name_n items.
Proof.
  induction items as [|p rest IH]; intros Hrel; [split; reflexivity|].
  destruct IH as [IH1 IH2];
    [intros q Hq; apply Hrel; right; exact Hq|].
  cbn [_get_exclude_patterns map filter].
  destruct (String.eqb (strip p) "") eqn:E; cbn [negb].
  - split; [exact IH1|]. rewrite IH2. cbn [match_rules]. rewrite E.
    reflexivity.
  - rewrite (Hrel p (or_introl eq_refl)). split; [f_equal; exact IH1|].
    rewrite match_rules_stripped. apply match_rules_cons_congr. exact IH2.
Qed.

End Capture.

(** X14.  When no item of the list is an absolute path, the rules captured
    for a scan are the items stripped of surrounding whitespace, without the
    blank ones and in the same order, and the matcher decides with them as
    it would with the items as typed. *)
Theorem captured_rules_decide_alike
        (isabs : string -> bool) (abspath : string -> string)
        (fnmatch : string -> string -> bool)
        (items : list string) (path : string) (is_dir : bool)
        (name : string) :
  (forall p, In p items -> isabs (strip p) = false) ->
  _get_exclude_patterns isabs abspath items
  = filter (fun p => negb (String.eqb p "")) (map strip items) /\
  _should_exclude isabs abspath fnmatch
                  (_get_exclude_patterns isabs abspath items)
                  path is_dir name
  = _should_exclude isabs abspath fnmatch items path is_dir name.
Proof.
  intros Hrel. unfold _should_exclude.
  apply (capture_relative isabs abspath fnmatch items _ _ Hrel).
Qed.

Lemma captured_rules_decide_alike_witness :
  _get_exclude_patterns Posix.isabs (Posix.abspath "/home/u")
                        ["  *.iso "; "   "; "node_modules"]
  = ["*.iso"; "node_modules"] /\
  _should_exclude Posix.isabs (Posix.abspath "/home/u") Posix.fnmatch
                  (_get_exclude_patterns Posix.isabs (Posix.abspath "/home/u")
                                         ["  *.iso "; "   "; "node_modules"])
                  "/srv/disk.ISO" false "disk.ISO"
  = _should_exclude Posix.isabs (Posix.abspath "/home/u") Posix.fnmatch
                    ["  *.iso "; "   "; "node_modules"]
                    "/srv/disk.ISO" false "disk.ISO".
Proof.
  apply (@captured_rules_decide_alike
           Posix.isabs (Posix.abspath "/home/u") Posix.fnmatch
           ["  *.iso "; "   "; "node_modules"] "/srv/disk.ISO" false
           "disk.ISO").
  intros p [<-|[<-|[<-|[]]]]; reflexivity.
Defined.

(** *** Quick rules *)

(** [s.rsplit(ch, 1)[-1]]: the text after the last [ch], all of [s] when it
    has none. *)
Fixpoint after_last_from (ch : ascii) (s acc : string) : string :=
  match s with
  | EmptyString => acc
  | String c s' =>
      if Ascii.eqb c ch then after_last_from ch s' ""
      else after_last_from ch s' (acc ++ String c "")
  end.

Definition after_last (ch : ascii) (s : string) : string :=
  after_last_from ch s "".

(** The rule that Ctrl + right-click makes for a node:
[[
            if (event.state & SHIFT):
                rule = os.path.abspath(node.path).replace("\\", "/")
            else:
                rule = node.name if node.is_dir else (
                    "*." + node.name.rsplit(".", 1)[-1]
                    if "." in node.name else node.name)
]] *)
Definition quick_rule (abspath : string -> string) (shift : bool)
           (node : Node) : string :=
  if shift then replace_backslash (abspath (path node))
  else if is_dir node then name node
  else if contains (name node) "." then "*." ++ after_last "." (name node)
  else name node.

(** A rule text that the matcher takes as a plain name: no surrounding
    whitespace, not empty, not absolute, no glob character. *)
Definition plain_name (isabs : string -> bool) (nm : string) : Prop :=
  strip nm = nm /\ nm <> "" /\ isabs nm = false /\
  has_wildcard (lower nm) = false.

Lemma name_rule_matches
      (isabs : string -> bool) (abspath : string -> string)
      (fnmatch : string -> string -> bool)
      (nm path : string) (d : bool) :
  plain_name isabs nm ->
  _should_exclude isabs abspath fnmatch [nm] path d nm = true.
Proof.
  intros (Hs & Hne & Habs & Hw). unfold _should_exclude.
  cbn [match_rules]. rewrite Hs.
  apply String.eqb_neq in Hne. rewrite Hne, Habs. cbn [negb].
  destruct (fnmatch (lower nm) (lower nm) || fnmatch _ (lower nm));
    [reflexivity|].
  rewrite Hw, String.eqb_refl. reflexivity.
Qed.

Lemma startswith_app (a b : string) : startswith (a ++ b) a = true.
Proof. apply startswith_iff. exists b. reflexivity. Qed.

Lemma append_nil_r (s : string) : s ++ "" = s.
Proof. induction s as [|c s IH]; cbn; [reflexivity|rewrite IH; reflexivity]. Qed.

(** A string equals its [rstrip("/")] or continues it with a ["/"]. *)
Lemma rstrip_slash_below (s : string) :
  String.eqb s (rstrip_slash s) || startswith s (rstrip_slash s ++ "/")
  = true.
Proof.
  unfold rstrip_slash.
  destruct (rstrip_with_split (fun c => Ascii.eqb c slash) s)
    as (t & Hs & Ht).
  destruct t as [|c t].
  - rewrite append_nil_r in Hs. rewrite <- Hs, String.eqb_refl. reflexivity.
  - cbn [all_dropped] in Ht. apply andb_true_iff in Ht as [Hc _].
    apply Ascii.eqb_eq in Hc. subst c.
    assert (E : startswith s (rstrip_with (fun c => Ascii.eqb c slash) s
                              ++ "/") = true).
    { apply startswith_iff. exists t. rewrite append_assoc. exact Hs. }
    rewrite E. apply orb_true_r.
Qed.

Lemma path_rule_matches
      (isabs : string -> bool) (abspath : string -> string)
      (fnmatch : string -> string -> bool)
      (path nm : string) (d : bool) :
  let rule := replace_backslash (abspath path) in
  strip rule = rule -> rule <> "" -> isabs rule = true ->
  _should_exclude isabs abspath fnmatch [rule] path d nm = true.
Proof.
  intros rule Hs Hne Habs. unfold _should_exclude. cbn [match_rules].
  rewrite Hs. apply String.eqb_neq in Hne. rewrite Hne, Habs. cbn [negb].
  unfold rule at 1 2. rewrite replace_backslash_idem.
  fold (norm_path abspath path). rewrite rstrip_slash_below. reflexivity.
Qed.

(** X15.  A quick rule excludes the node it was made for.  The name rule
    made for a directory, or for a file without a dot, matches an entry of
    that name at any path when the name is a plain one; the path rule made
    with Shift matches the node's own path when the normalized path is
    absolute and has no surrounding whitespace. *)
Theorem quick_rule_excludes_its_node
        (isabs : string -> bool) (abspath : string -> string)
        (fnmatch : string -> string -> bool) (node : Node) :
  (is_dir node = true \/ contains (name node) "." = false ->
   plain_name isabs (name node) ->
   forall path d,
     _should_exclude isabs abspath fnmatch [quick_rule abspath false node]
                     path d (name node) = true) /\
  (strip (quick_rule abspath true node) = quick_rule abspath true node ->
   quick_rule abspath true node <> "" ->
   isabs (quick_rule abspath true node) = true ->
   forall d nm,
     _should_exclude isabs abspath fnmatch [quick_rule abspath true node]
                     (path node) d nm = true).
Proof.
  split.
  - intros Hkind Hplain p d.
    assert (E : quick_rule abspath false node = name node).
    { unfold quick_rule. destruct (is_dir node); [reflexivity|].
      destruct Hkind as [H|H]; [discriminate|]. rewrite H. reflexivity. }
    rewrite E. apply name_rule_matches. exact Hplain.
  - intros Hs Hne Habs d nm. unfold quick_rule in *.
    apply path_rule_matches; assumption.
Qed.

Lemma quick_rule_excludes_its_node_witness :
  _should_exclude Posix.isabs (Posix.abspath "/home/u") Posix.fnmatch
                  [quick_rule (Posix.abspath "/home/u") false
                              (mkNode "/r/Cache" "Cache" 0 true [])]
                  "/other/cache" true "Cache" = true /\
  _should_exclude Posix.isabs (Posix.abspath "/home/u") Posix.fnmatch
                  [quick_rule (Posix.abspath "/home/u") true
                              (mkNode "/r/Cache/" "Cache" 0 true [])]
                  "/r/Cache/" true "Cache" = true.
Proof.
  destruct (@quick_rule_excludes_its_node
              Posix.isabs (Posix.abspath "/home/u") Posix.fnmatch
              (mkNode "/r/Cache" "Cache" 0 true [])) as [Hname _].
  destruct (@quick_rule_excludes_its_node
              Posix.isabs (Posix.abspath "/home/u") Posix.fnmatch
              (mkNode "/r/Cache/" "Cache" 0 true [])) as [_ Hpath].
  split.
  - apply Hname; [left; reflexivity|].
    split; [reflexivity|]. split; [discriminate|]. split; reflexivity.
  - apply Hpath; [reflexivity|discriminate|reflexivity].
Defined.

(** *** The extension rule, on POSIX globs *)

Lemma lower_app (a b : string) : lower (a ++ b) = lower a ++ lower b.
Proof. induction a as [|c a IH]; cbn; [reflexivity|rewrite IH; reflexivity]. Qed.

(** Lower-casing neither makes nor removes a glob character. *)
Lemma lower_char_glob (c : ascii) :
  Ascii.eqb (lower_char c) "*" = Ascii.eqb c "*" /\
  Ascii.eqb (lower_char c) "?" = Ascii.eqb c "?" /\
  Ascii.eqb (lower_char c) "[" = Ascii.eqb c "[".
Proof.
  destruct c as [b0 b1 b2 b3 b4 b5 b6 b7].
  destruct b0, b1, b2, b3, b4, b5, b6, b7; repeat split; reflexivity.
Qed.

Lemma contains_lower_glob (s : string) :
  contains (lower s) "*" = contains s "*" /\
  contains (lower s) "?" = contains s "?" /\
  contains (lower s) "[" = contains s "[".
Proof.
  induction s as [|c s (I1 & I2 & I3)]; [repeat split; reflexivity|].
  cbn [lower contains]. destruct (lower_char_glob c) as (H1 & H2 & H3).
  rewrite H1, H2, H3, I1, I2, I3. repeat split; reflexivity.
Qed.

Lemma has_wildcard_lower (s : string) :
  has_wildcard (lower s) = has_wildcard s.
Proof.
  unfold has_wildcard. destruct (contains_lower_glob s) as (-> & -> & ->).
  reflexivity.
Qed.

(** The tokens of a pattern without glob characters are its characters. *)
Fixpoint lits (s : string) : list Posix.token :=
  match s with
  | EmptyString => []
  | String c s' => Posix.Lit c :: lits s'
  end.

Lemma tokens_literal (e : string) :
  forall fuel,
    (String.length e <= fuel)%nat -> has_wildcard e = false ->
    Posix.tokens fuel e = lits e.
Proof.
  induction e as [|c e IH]; intros fuel Hf Hw.
  - destruct fuel; reflexivity.
  - destruct fuel as [|fuel]; [cbn in Hf; lia|].
    unfold has_wildcard in Hw. cbn [contains] in Hw.
    apply orb_false_iff in Hw as [Hw H3].
    apply orb_false_iff in Hw as [H1 H2].
    apply orb_false_iff in H1 as [C1 T1].
    apply orb_false_iff in H2 as [C2 T2].
    apply orb_false_iff in H3 as [C3 T3].
    cbn [Posix.tokens lits]. rewrite C1, C2, C3. f_equal.
    apply IH; [cbn in Hf; lia|].
    unfold has_wildcard. rewrite T1, T2, T3. reflexivity.
Qed.

Lemma glob_lits_self (e : string) : Posix.glob (lits e) e = true.
Proof.
  induction e as [|c e IH]; [reflexivity|].
  cbn [lits Posix.glob]. rewrite Ascii.eqb_refl, IH. reflexivity.
Qed.

Lemma glob_star_suffix (p : list Posix.token) (a b : string) :
  Posix.glob p b = true -> Posix.glob (Posix.Star :: p) (a ++ b) = true.
Proof.
  intros Hb. induction a as [|c a IH].
  - cbn [append Posix.glob]. destruct b; rewrite Hb; reflexivity.
  - change (Posix.glob (Posix.Star :: p) (String c a ++ b))
      with (Posix.glob p (String c (a ++ b))
            || Posix.glob (Posix.Star :: p) (a ++ b)).
    rewrite IH. apply orb_true_r.
Qed.

Lemma fnmatch_extension (stem ext : string) :
  has_wildcard ext = false ->
  Posix.fnmatch (stem ++ "." ++ ext) ("*." ++ ext) = true.
Proof.
  intros Hw. unfold Posix.fnmatch.
  change (String.length ("*." ++ ext)) with (S (S (String.length ext))).
  change ("*." ++ ext) with (String "*" (String "." ext)).
  cbn [Posix.tokens Ascii.eqb Bool.eqb].
  rewrite (tokens_literal ext (Nat.le_refl _) Hw).
  apply glob_star_suffix. cbn [append Posix.glob].
  rewrite Ascii.eqb_refl. apply glob_lits_self.
Qed.

Lemma after_last_from_clean (ch : ascii) (e : string) :
  forall acc, contains e ch = false -> after_last_from ch e acc = acc ++ e.
Proof.
  induction e as [|c e IH]; intros acc Hc.
  - cbn. symmetry. apply append_nil_r.
  - cbn [contains] in Hc. apply orb_false_iff in Hc as [Hc He].
    cbn [after_last_from]. rewrite Hc, IH by exact He.
    rewrite append_assoc. reflexivity.
Qed.

Lemma after_last_app (ch : ascii) (a e : string) :
  forall acc,
    contains e ch = false ->
    after_last_from ch (a ++ String ch e) acc = e.
Proof.
  induction a as [|c a IH]; intros acc He.
  - cbn [append after_last_from]. rewrite Ascii.eqb_refl.
    apply (after_last_from_clean ch e "" He).
  - cbn [append after_last_from].
    destruct (Ascii.eqb c ch); apply IH; exact He.
Qed.

Lemma contains_app_char (a e : string) (ch : ascii) :
  contains (a ++ String ch e) ch = true.
Proof.
  induction a as [|c a IH]; cbn [append contains].
  - rewrite Ascii.eqb_refl. reflexivity.
  - rewrite IH. apply orb_true_r.
Qed.

(** X16.  On POSIX globs, the quick rule made for a file with an extension
    is ["*."] followed by the extension, and it excludes every entry whose
    name ends with a dot and that extension in any letter case, the file
    itself included, when the extension holds no glob character. *)
Theorem extension_rule_excludes_its_file
        (abspath : string -> string) (node : Node) (stem ext : string) :
  is_dir node = false ->
  name node = stem ++ "." ++ ext ->
  contains ext "." = false -> has_wildcard ext = false ->
  strip ("*." ++ ext) = "*." ++ ext ->
  quick_rule abspath false node = "*." ++ ext /\
  forall path d other,
    lower other = lower ext ->
    forall stem',
      _should_exclude Posix.isabs abspath Posix.fnmatch
                      [quick_rule abspath false node]
                      path d (stem' ++ "." ++ other) = true.
Proof.
  intros Hd Hn Hdot Hw Hs.
  assert (E : quick_rule abspath false node = "*." ++ ext).
  { unfold quick_rule. rewrite Hd, Hn.
    change (stem ++ "." ++ ext) with (stem ++ String "." ext).
    rewrite contains_app_char. unfold after_last.
    rewrite after_last_app by exact Hdot. reflexivity. }
  split; [exact E|]. intros p d other Ho stem'. rewrite E.
  unfold _should_exclude. cbn [match_rules]. rewrite Hs.
  change (String.eqb ("*." ++ ext) "") with false.
  change (Posix.isabs ("*." ++ ext)) with false. cbn [negb].
  rewrite !lower_app, Ho.
  change (lower ".") with ".". change (lower "*.") with "*.".
  rewrite fnmatch_extension; [reflexivity|].
  rewrite has_wildcard_lower. exact Hw.
Qed.

Lemma extension_rule_excludes_its_file_witness :
  quick_rule (Posix.abspath "/home/u") false
             (mkNode "/r/disk.iso" "disk.iso" 700 false [])
  = "*.iso" /\
  _should_exclude Posix.isabs (Posix.abspath "/home/u") Posix.fnmatch
                  [quick_rule (Posix.abspath "/home/u") false
                              (mkNode "/r/disk.iso" "disk.iso" 700 false [])]
                  "/srv/Other.ISO" false ("Other" ++ "." ++ "ISO") = true.
Proof.
  destruct (@extension_rule_excludes_its_file
              (Posix.abspath "/home/u")
              (mkNode "/r/disk.iso" "disk.iso" 700 false []) "disk" "iso")
    as [Hrule Hmatch]; try reflexivity.
  split; [exact Hrule|].
  apply (Hmatch "/srv/Other.ISO" false "ISO" eq_refl "Other").
Defined.

(** *** Editing the list *)

(** [if rule not in existing: self.excl_list.insert(tk.END, rule)] *)
Definition insert_new (rule : string) (items : list string) : list string :=
  if existsb (String.eqb rule) items then items else (items ++ [rule])%list.

(** [[
    def on_add_pattern(self):
        pat = sd.askstring(...)
        if not pat:
            return
        pat = pat.strip()
        if not pat:
            return
        existing = set(self.excl_list.get(0, tk.END))
        if pat not in existing:
            self.excl_list.insert(tk.END, pat)
]]
    [answer] is what the dialog returns, [None] when it is cancelled. *)
Definition on_add_pattern (answer : option string) (items : list string)
  : list string :=
  match answer with
  | None => items
  | Some pat =>
      if String.eqb pat "" then items
      else
        let pat := strip pat in
        if String.eqb pat "" then items else insert_new pat items
  end.

(** [self.excl_list.delete(i)]; an index past the end deletes nothing. *)
Fixpoint delete_at (i : nat) (items : list string) : list string :=
  match items, i with
  | [], _ => []
  | _ :: rest, O => rest
  | x :: rest, S i' => x :: delete_at i' rest
  end.

(** [[
    def on_remove_selected_excluded(self):
        sel = list(self.excl_list.curselection())
        for i in reversed(sel):
            self.excl_list.delete(i)
]] *)
Definition on_remove_selected_excluded (sel : list nat)
           (items : list string) : list string :=
  fold_left (fun l i => delete_at i l) (rev sel) items.

(** The items whose position, counted from [k], is not selected. *)
Fixpoint unselected (sel : list nat) (k : nat) (items : list string)
  : list string :=
  match items with
  | [] => []
  | x :: rest =>
      if existsb (Nat.eqb k) sel then unselected sel (S k) rest
      else x :: unselected sel (S k) rest
  end.

Lemma existsb_eqb_in (rule : string) (items : list string) :
  existsb (String.eqb rule) items = true <-> In rule items.
Proof.
  rewrite existsb_exists. split.
  - intros (x & Hx & E). apply String.eqb_eq in E. subst. exact Hx.
  - intros H. exists rule. split; [exact H|apply String.eqb_refl].
Qed.

Lemma insert_new_spec (rule : string) (items : list string) :
  NoDup items ->
  NoDup (insert_new rule items) /\ In rule (insert_new rule items) /\
  (exists tl, insert_new rule items = (items ++ tl)%list) /\
  insert_new rule (insert_new rule items) = insert_new rule items.
Proof.
  intros Hnd. unfold insert_new.
  destruct (existsb (String.eqb rule) items) eqn:E.
  - pose proof (proj1 (existsb_eqb_in rule items) E) as Hin.
    rewrite E.
    split; [exact Hnd|]. split; [exact Hin|].
    split; [exists []; symmetry; apply app_nil_r|reflexivity].
  - assert (Hnin : ~ In rule items).
    { intros H. apply existsb_eqb_in in H. congruence. }
    assert (E' : existsb (String.eqb rule) (items ++ [rule]) = true).
    { apply existsb_eqb_in, in_or_app. right; left; reflexivity. }
    rewrite E'.
    split.
    { apply NoDup_app; [exact Hnd|constructor; [intros []|constructor]|].
      intros x Hx [<-|[]]. contradiction. }
    split; [apply in_or_app; right; left; reflexivity|].
    split; [exists [rule]; reflexivity|reflexivity].
Qed.

(** X17.  Adding a pattern never duplicates a rule and never adds a blank
    one.  A cancelled dialog or a blank answer leaves the list as it is; any
    other answer is stripped and afterwards present in the list, appended at
    the end if it was not there; the items already there keep their places;
    adding the same answer again changes nothing. *)
Theorem on_add_pattern_keeps_list_clean (answer : option string)
        (items : list string) :
  NoDup items -> ~ In "" items ->
  NoDup (on_add_pattern answer items) /\
  ~ In "" (on_add_pattern answer items) /\
  (exists tl, on_add_pattern answer items = (items ++ tl)%list) /\
  on_add_pattern answer (on_add_pattern answer items)
  = on_add_pattern answer items /\
  (forall pat, answer = Some pat -> strip pat <> "" ->
               In (strip pat) (on_add_pattern answer items)) /\
  (answer = None \/ (exists pat, answer = Some pat /\ strip pat = "") ->
   on_add_pattern answer items = items).
Proof.
  intros Hnd Hblank.
  assert (Hsame : on_add_pattern answer items = items ->
                  NoDup (on_add_pattern answer items) /\
                  ~ In "" (on_add_pattern answer items) /\
                  (exists tl, on_add_pattern answer items = (items ++ tl)%list) /\
                  on_add_pattern answer (on_add_pattern answer items)
                  = on_add_pattern answer items).
  { intros E. rewrite !E. repeat split; try assumption.
    exists []. symmetry. apply app_nil_r. }
  destruct answer as [pat|].
  2:{ destruct (Hsame eq_refl) as (H1 & H2 & H3 & H4).
      split; [exact H1|]. split; [exact H2|]. split; [exact H3|].
      split; [exact H4|]. split; [discriminate|reflexivity]. }
  unfold on_add_pattern in *.
  destruct (String.eqb pat "") eqn:E0.
  { apply String.eqb_eq in E0. subst pat.
    destruct (Hsame eq_refl) as (H1 & H2 & H3 & H4).
    split; [exact H1|]. split; [exact H2|]. split; [exact H3|].
    split; [exact H4|]. split; [|reflexivity].
    intros pat [= <-] Hs. exfalso. apply Hs. reflexivity. }
  destruct (String.eqb (strip pat) "") eqn:E1.
  { destruct (Hsame eq_refl) as (H1 & H2 & H3 & H4).
    split; [exact H1|]. split; [exact H2|]. split; [exact H3|].
    split; [exact H4|]. split; [|reflexivity].
    intros pat' [= <-] Hs. apply String.eqb_eq in E1. contradiction. }
  destruct (insert_new_spec (strip pat) Hnd) as (N1 & N2 & N3 & N4).
  apply String.eqb_neq in E1.
  split; [exact N1|]. split.
  { unfold insert_new. destruct (existsb _ items); [exact Hblank|].
    intros H. apply in_app_or in H as [H|[H|[]]]; [contradiction|].
    exact (E1 H). }
  split; [exact N3|]. split; [exact N4|]. split.
  - intros pat' [= <-] _. exact N2.
  - intros [H|(pat' & [= <-] & H)]; [discriminate|contradiction].
Qed.

Lemma on_add_pattern_keeps_list_clean_witness :
  NoDup (on_add_pattern (Some " *.iso ") ["node_modules"]) /\
  In "*.iso" (on_add_pattern (Some " *.iso ") ["node_modules"]) /\
  on_add_pattern (Some "   ") ["node_modules"] = ["node_modules"].
Proof.
  assert (Hnd : NoDup ["node_modules"])
    by (constructor; [intros []|constructor]).
  assert (Hb : ~ In "" ["node_modules"]) by (intros [H|[]]; discriminate).
  destruct (@on_add_pattern_keeps_list_clean (Some " *.iso ")
              ["node_modules"] Hnd Hb) as (H1 & _ & _ & _ & H5 & _).
  destruct (@on_add_pattern_keeps_list_clean (Some "   ")
              ["node_modules"] Hnd Hb) as (_ & _ & _ & _ & _ & H6).
  split; [exact H1|]. split.
  - apply (H5 " *.iso " eq_refl). discriminate.
  - apply H6. right. exists "   ". split; reflexivity.
Defined.

Lemma unselected_nil (k : nat) (items : list string) :
  unselected [] k items = items.
Proof.
  revert k. induction items as [|x r IH]; intros k; [reflexivity|].
  cbn [unselected existsb]. rewrite IH. reflexivity.
Qed.

(** A selected position that lies before [k] plays no part from [k] on. *)
Lemma unselected_past (i : nat) (sel : list nat) (items : list string) :
  forall k, (i < k)%nat ->
            unselected (i :: sel) k items = unselected sel k items.
Proof.
  induction items as [|x r IH]; intros k Hk; [reflexivity|].
  cbn [unselected existsb].
  assert (E : Nat.eqb k i = false) by (apply Nat.eqb_neq; lia).
  rewrite E. cbn [orb]. rewrite IH by lia. reflexivity.
Qed.

Lemma delete_at_unselected (i : nat) (sel : list nat) :
  Forall (fun j => (i < j)%nat) sel ->
  forall items k,
    (k <= i)%nat ->
    delete_at (i - k) (unselected sel k items)
    = unselected (i :: sel) k items.
Proof.
  intros Hsel. induction items as [|x r IH]; intros k Hk.
  - cbn [unselected]. destruct (i - k)%nat; reflexivity.
  - cbn [unselected existsb].
    assert (Ek : existsb (Nat.eqb k) sel = false).
    { destruct (existsb (Nat.eqb k) sel) eqn:E; [|reflexivity].
      apply existsb_exists in E as (j & Hj & Ej).
      apply Nat.eqb_eq in Ej. subst j.
      rewrite Forall_forall in Hsel. specialize (Hsel k Hj). lia. }
    rewrite Ek. destruct (Nat.eqb k i) eqn:Eki; cbn [orb].
    + apply Nat.eqb_eq in Eki. subst k. rewrite Nat.sub_diag.
      cbn [delete_at]. symmetry. apply unselected_past. lia.
    + apply Nat.eqb_neq in Eki.
      replace (i - k)%nat with (S (i - S k)) by lia.
      cbn [delete_at]. rewrite IH by lia. reflexivity.
Qed.

Lemma remove_selected_unselected (sel : list nat) :
  StronglySorted Nat.lt sel ->
  forall items,
    on_remove_selected_excluded sel items = unselected sel 0 items.
Proof.
  unfold on_remove_selected_excluded.
  induction 1 as [|i sel Hs IH Hi]; intros items.
  - cbn [rev fold_left]. symmetry. apply unselected_nil.
  - cbn [rev]. rewrite fold_left_app. cbn [fold_left]. rewrite IH.
    rewrite <- (Nat.sub_0_r i) at 1.
    apply delete_at_unselected; [exact Hi|lia].
Qed.

(** X18.  With the selection in ascending order, as the list box reports
    it, removing the selected rows deletes exactly the rows at the selected
    positions: the rows that stay are those at the other positions, in
    order. *)
Theorem remove_selected_removes_selected_rows (sel : list nat)
        (items : list string) :
  StronglySorted Nat.lt sel ->
  on_remove_selected_excluded sel items = unselected sel 0 items.
Proof. intros H. apply remove_selected_unselected. exact H. Qed.

Lemma remove_selected_removes_selected_rows_witness :
  on_remove_selected_excluded [0; 2]%nat ["a"; "b"; "c"; "d"] = ["b"; "d"].
Proof.
  apply (@remove_selected_removes_selected_rows [0; 2]%nat
           ["a"; "b"; "c"; "d"]).
  repeat constructor.
Defined.

End Rules.
